(** * openskills: the upload pipeline and its identifier validators

  A shallow embedding of [src/commands/upload.ts] (the upload command), of
  [src/utils/config.ts] (the repository configuration), of
  [src/commands/repo.ts] (the repo command) and of parts of
  [src/commands/install.ts] (the installer), with the properties of the
  repository synchronisation engine stated over it.

  JavaScript strings are modelled as [string] (sequences of 8-bit code
  units).  Every character the code inspects is ASCII, so the character
  classes and literal searches below read the same on UTF-16 code units. *)

From Stdlib Require Import String Ascii List ZArith Lia Bool Arith DecimalString.
Import ListNotations.
Local Open Scope string_scope.

(** ** JavaScript string methods used by the sources *)

Module JsString.

Fixpoint forallb (p : ascii -> bool) (s : string) : bool :=
  match s with
  | EmptyString => true
  | String c t => p c && forallb p t
  end.

(** [s.startsWith(p)] *)
Fixpoint startsWith (p s : string) : bool :=
  match p with
  | EmptyString => true
  | String a p' =>
      match s with
      | EmptyString => false
      | String b s' => Ascii.eqb a b && startsWith p' s'
      end
  end.

(** [hay.includes(needle)] *)
Fixpoint includes (needle hay : string) : bool :=
  startsWith needle hay ||
  match hay with
  | EmptyString => false
  | String _ t => includes needle t
  end.

(** [s.replace(/c/g, by)] for a one-character pattern. *)
Fixpoint replaceAll (c : ascii) (by_ : string) (s : string) : string :=
  match s with
  | EmptyString => EmptyString
  | String d t =>
      if Ascii.eqb d c then by_ ++ replaceAll c by_ t
      else String d (replaceAll c by_ t)
  end.

Definition in_range (lo hi c : ascii) : bool :=
  (nat_of_ascii lo <=? nat_of_ascii c)%nat && (nat_of_ascii c <=? nat_of_ascii hi)%nat.

(** Upper-case letters among the 8-bit code units: A-Z, and the accented
    capitals 192-214 and 216-222. *)
Definition is_upper (c : ascii) : bool :=
  let n := nat_of_ascii c in
  in_range "A" "Z" c || ((192 <=? n) && (n <=? 214))%nat || ((216 <=? n) && (n <=? 222))%nat.

Definition lower_char (c : ascii) : ascii :=
  if is_upper c then ascii_of_nat (nat_of_ascii c + 32) else c.

(** [s.toLowerCase()] *)
Fixpoint toLowerCase (s : string) : string :=
  match s with
  | EmptyString => EmptyString
  | String c t => String (lower_char c) (toLowerCase t)
  end.

(** White space as [String.prototype.trim] sees it (8-bit part). *)
Definition is_space (c : ascii) : bool :=
  let n := nat_of_ascii c in
  ((9 <=? n) && (n <=? 13))%nat || (n =? 32)%nat || (n =? 160)%nat.

Fixpoint trimStart (s : string) : string :=
  match s with
  | EmptyString => EmptyString
  | String c t => if is_space c then trimStart t else s
  end.

Fixpoint trimEnd (s : string) : string :=
  match s with
  | EmptyString => EmptyString
  | String c t =>
      match trimEnd t with
      | EmptyString => if is_space c then EmptyString else String c EmptyString
      | t' => String c t'
      end
  end.

(** [s.trim()] *)
Definition trim (s : string) : string := trimEnd (trimStart s).

(** Truthiness of a string value: the empty string is falsy. *)
Definition truthy (s : string) : bool :=
  match s with EmptyString => false | _ => true end.

(** [a || b] on strings. *)
Definition or_else (a b : string) : string := if truthy a then a else b.

(** [xs.join(sep)] *)
Fixpoint join (sep : string) (xs : list string) : string :=
  match xs with
  | [] => EmptyString
  | [x] => x
  | x :: rest => x ++ sep ++ join sep rest
  end.

End JsString.

Import JsString.

(** ** Identifier validators (upload.ts, lines 36-90) *)

(** The character class [[a-zA-Z0-9._-]]. *)
Definition name_class (c : ascii) : bool :=
  in_range "a" "z" c || in_range "A" "Z" c || in_range "0" "9" c
  || Ascii.eqb c "." || Ascii.eqb c "_" || Ascii.eqb c "-".

(** The character class [[a-zA-Z0-9._/-]]. *)
Definition branch_class (c : ascii) : bool :=
  in_range "a" "z" c || in_range "A" "Z" c || in_range "0" "9" c
  || Ascii.eqb c "." || Ascii.eqb c "_" || Ascii.eqb c "/" || Ascii.eqb c "-".

(** [/^[cls]+$/.test(s)]: one or more characters, all of the class.  Without
  the [m] flag [$] matches at the very end of the input only. *)
Definition test_class_plus (cls : ascii -> bool) (s : string) : bool :=
  match s with
  | EmptyString => false
  | String c t => cls c && forallb cls t
  end.

Definition isValidBranchName (branch : string) : bool :=
  test_class_plus branch_class branch
  && (0 <? String.length branch)%nat && (String.length branch <=? 255)%nat.

Definition isValidSkillName (skillName : string) : bool :=
  test_class_plus name_class skillName
  && (0 <? String.length skillName)%nat && (String.length skillName <=? 255)%nat.

Definition isValidRepoName (repoName : string) : bool :=
  if includes ".." repoName || includes "/" repoName || includes "\" repoName
  then false
  else test_class_plus name_class repoName
     && (0 <? String.length repoName)%nat && (String.length repoName <=? 255)%nat.

Definition LF : ascii := ascii_of_nat 10.
Definition CR : ascii := ascii_of_nat 13.
Definition TAB : ascii := ascii_of_nat 9.
Definition NUL : ascii := ascii_of_nat 0.
Definition DQUOTE : ascii := ascii_of_nat 34.
Definition BACKSLASH : ascii := ascii_of_nat 92.
Definition BACKTICK : ascii := ascii_of_nat 96.
Definition DOLLAR : ascii := ascii_of_nat 36.

Definition str (c : ascii) : string := String c EmptyString.

Definition validProtocols : list string := ["http://"; "https://"; "git://"; "git@"].

Definition dangerousChars : list string :=
  ["`"; "$"; ";"; "&"; "|"; "<"; ">"; str LF; str CR].

Definition isValidGitUrl (url : string) : bool :=
  let hasValidProtocol := existsb (fun protocol => startsWith protocol url) validProtocols in
  if negb hasValidProtocol then false
  else if existsb (fun char => includes char url) dangerousChars then false
  else (0 <? String.length url)%nat && (String.length url <=? 2000)%nat.

(** ** Escaping for double-quoted command arguments (lines 97-107, 321-332) *)

Definition escapeGitPath (path : string) : string :=
  replaceAll NUL EmptyString
  (replaceAll TAB " "
    (replaceAll CR EmptyString
      (replaceAll LF EmptyString
        (replaceAll DQUOTE (String BACKSLASH (str DQUOTE))
          (replaceAll BACKSLASH (String BACKSLASH (str BACKSLASH)) path))))).

Definition escapeCommitMessage (message : string) : string :=
  replaceAll NUL EmptyString
  (replaceAll CR EmptyString
    (replaceAll LF " "
      (replaceAll BACKTICK (String BACKSLASH (str BACKTICK))
        (replaceAll DOLLAR (String BACKSLASH (str DOLLAR))
          (replaceAll DQUOTE (String BACKSLASH (str DQUOTE))
            (replaceAll BACKSLASH (String BACKSLASH (str BACKSLASH)) message)))))).


(** *** What the specification says of names, and of quoting *)

(** The alphabet [[A-Za-z0-9._-]], letter by letter. *)
Definition name_alphabet : list ascii :=
  list_ascii_of_string
    "ABCDEFGHIJKLMNOPQRSTUVWXYZabcdefghijklmnopqrstuvwxyz0123456789._-".

(** 1 to 255 characters, each drawn from the alphabet. *)
Definition valid_name_spec (s : string) : Prop :=
  (1 <= String.length s <= 255)%nat /\
  forall c, In c (list_ascii_of_string s) -> In c name_alphabet.

(** [s] holds [sub] somewhere. *)
Definition contains (sub s : string) : Prop := exists a b, s = a ++ sub ++ b.

(** The characters that, left bare between double quotes, end the argument
    or start a substitution: the double quote and the backtick, and with
    them the dollar sign for the shell proper. *)
Definition listed_special (c : ascii) : bool :=
  Ascii.eqb c DQUOTE || Ascii.eqb c BACKTICK.

Definition shell_special (c : ascii) : bool :=
  listed_special c || Ascii.eqb c DOLLAR.

(** How the shell reads the text placed between two double quotes: a
    backslash protects the character after it, a bare special character
    leaves the literal text, a newline or NUL cuts the command line, and a
    backslash left at the very end protects the closing quote itself.
    [true]: the whole text stays one literal argument. *)
Fixpoint dq_scan (special : ascii -> bool) (escaped : bool) (s : string) : bool :=
  match s with
  | EmptyString => negb escaped
  | String c t =>
      if Ascii.eqb c LF || Ascii.eqb c NUL then false
      else if escaped then dq_scan special false t
      else if Ascii.eqb c BACKSLASH then dq_scan special true t
      else if special c then false
      else dq_scan special false t
  end.

Definition dq_inert (s : string) : bool := dq_scan listed_special false s.

(** Replace every character by a string. *)
Fixpoint map_chars (f : ascii -> string) (s : string) : string :=
  match s with
  | EmptyString => EmptyString
  | String c t => f c ++ map_chars f t
  end.

(** What [escapeGitPath] does to one character. *)
Definition git_path_char (c : ascii) : string :=
  if Ascii.eqb c BACKSLASH then String BACKSLASH (str BACKSLASH)
  else if Ascii.eqb c DQUOTE then String BACKSLASH (str DQUOTE)
  else if Ascii.eqb c LF || Ascii.eqb c CR || Ascii.eqb c NUL then EmptyString
  else if Ascii.eqb c TAB then " "
  else str c.

(** What [escapeCommitMessage] does to one character. *)
Definition commit_message_char (c : ascii) : string :=
  if Ascii.eqb c BACKSLASH || Ascii.eqb c DQUOTE || Ascii.eqb c DOLLAR
     || Ascii.eqb c BACKTICK then String BACKSLASH (str c)
  else if Ascii.eqb c LF then " "
  else if Ascii.eqb c CR || Ascii.eqb c NUL then EmptyString
  else str c.

(** ** Values that cross the boundary to Node and to git *)

(** [process.platform === 'win32'] or anything else. *)
Inductive platform := Win32 | Posix.

(** The [code] property of a thrown error: a number or a string such as
    [EPERM]. *)
Inductive js_code := CodeNum (n : Z) | CodeStr (s : string).

(** Captured output is a [Buffer], or a string when an encoding is given. *)
Inductive out_val := Buf (s : string) | Str (s : string).

Definition toString (v : out_val) : string :=
  match v with Buf s => s | Str s => s end.

(** A [Buffer] is an object and so always truthy. *)
Definition out_truthy (v : out_val) : bool :=
  match v with Buf _ => true | Str s => truthy s end.

(** A thrown value: the properties the code reads, each present or not. *)
Record js_error := mkError {
  is_ExitPromptError : bool;
  err_code : option js_code;
  err_stderr : option out_val;
  err_stdout : option out_val;
  err_message : option string
}.

Definition is_some {A} (o : option A) : bool :=
  match o with Some _ => true | None => false end.

Definition isExecError (error : js_error) : bool :=
  is_some (err_stderr error) || is_some (err_stdout error)
  || is_some (err_code error) || is_some (err_message error).

(** [error.code !== 0] *)
Definition code_nonzero (error : js_error) : bool :=
  match err_code error with
  | Some (CodeNum 0) => false
  | _ => true
  end.

(** [v?.toString()], with [undefined] read as the empty (falsy) string. *)
Definition opt_toString (v : option out_val) : string :=
  match v with Some o => toString o | None => EmptyString end.

(** [error.stderr?.toString() || ''] *)
Definition stderr_text (error : js_error) : string :=
  or_else (opt_toString (err_stderr error)) EmptyString.

(** [error.stderr?.toString() || error.stdout?.toString() || ''] *)
Definition diagnostic_text (error : js_error) : string :=
  or_else (opt_toString (err_stderr error))
    (or_else (opt_toString (err_stdout error)) EmptyString).

(** [error.message || 'Unknown error'] *)
Definition message_text (error : js_error) : string :=
  or_else (match err_message error with Some m => m | None => EmptyString end)
          "Unknown error".

(** [isExecError(error) && error.stderr] as a condition. *)
Definition has_stderr (error : js_error) : bool :=
  isExecError error &&
  match err_stderr error with Some v => out_truthy v | None => false end.

Definition has_stdout (error : js_error) : bool :=
  match err_stdout error with Some v => out_truthy v | None => false end.

Inductive reply (A : Type) := Done (a : A) | Raised (e : js_error).
Arguments Done {A} a.
Arguments Raised {A} e.

Inductive dirent_kind := KDirectory | KFile | KSymbolicLink | KOther.
Record dirent := mkDirent { d_name : string; d_kind : dirent_kind }.

Inductive stat_kind := SFile | SDirectory | SOther.

Record exec_options := mkExecOptions {
  opt_cwd : option string;
  opt_encoding : bool;
  opt_shell : option string
}.

#[warnings="-register-all"]
Inductive json :=
| JNull
| JBool (b : bool)
| JNum (mantissa exponent : Z)
| JStr (s : string)
| JArr (items : list json)
| JObj (fields : list (string * json)).

(** The world outside the program, as the program can observe and change it.
    [W] is the state of the file system, of git and of the terminal. *)
Record Sys (W : Type) := mkSys {
  sys_platform : platform;
  sys_PSModulePath : option string;
  sys_COMSPEC : option string;
  sys_homedir : string;
  sys_join : list string -> string;
  sys_exists : string -> W -> bool;
  sys_rm : string -> bool -> W -> reply unit * W;
  sys_mkdir : string -> W -> reply unit * W;
  sys_readdir : string -> W -> reply (list dirent);
  sys_stat : string -> W -> reply (option stat_kind);
  sys_copyFile : string -> string -> W -> reply unit * W;
  sys_readFile : string -> W -> reply string;
  sys_writeFile : string -> string -> W -> reply unit * W;
  sys_exec : string -> exec_options -> W -> reply string * W;
  sys_confirm : string -> W -> reply bool * W;
  sys_sleep : Z -> W -> W;
  (** depth of the call stack left to [copyRecursive] *)
  sys_stack : nat;
  (** the two [RegExp] replacements of [cleanupSubmodule], by the engine *)
  sys_strip_gitmodules : string -> string -> string;
  sys_strip_gitconfig : string -> string -> string;
  sys_JSON_parse : string -> reply json
}.

Inductive spinner_call := SpinStart | SpinSucceed | SpinFail | SpinInfo.

Inductive event :=
| EvExists (p : string) (r : bool)
| EvRm (p : string) (recursive : bool)
| EvMkdir (p : string)
| EvReaddir (p : string)
| EvStat (p : string)
| EvCopyFile (src dst : string)
| EvReadFile (p : string)
| EvWriteFile (p content : string)
| EvExec (cmd : string) (opts : exec_options)
| EvConfirm (message : string)
| EvSleep (ms : Z)
| EvLog (s : string)
| EvError (s : string)
| EvWarn (s : string)
| EvSpinner (k : spinner_call) (text : string).

(** How a computation ends: a value, a thrown error, or [process.exit]. *)
Inductive outcome (A : Type) :=
| Ret (a : A)
| Throw (e : js_error)
| Exit (code : Z).
Arguments Ret {A} a.
Arguments Throw {A} e.
Arguments Exit {A} code.

Record state (W : Type) := mkState { world : W; trace : list event }.
Arguments mkState {W} world trace.
Arguments world {W} s.
Arguments trace {W} s.

Definition M (W A : Type) : Type := state W -> outcome A * state W.

Definition ret {W A} (a : A) : M W A := fun s => (Ret a, s).

Definition bind {W A B} (m : M W A) (f : A -> M W B) : M W B :=
  fun s =>
    match m s with
    | (Ret a, s') => f a s'
    | (Throw e, s') => (Throw e, s')
    | (Exit c, s') => (Exit c, s')
    end.

Definition throw {W A} (e : js_error) : M W A := fun s => (Throw e, s).

(** [process.exit(code)] ends the process: no [catch] sees it. *)
Definition process_exit {W A} (code : Z) : M W A := fun s => (Exit code, s).

(** [try { m } catch (error) { h error }] *)
Definition try_catch {W A} (m : M W A) (h : js_error -> M W A) : M W A :=
  fun s =>
    match m s with
    | (Throw e, s') => h e s'
    | r => r
    end.

Declare Scope io_scope.
Delimit Scope io_scope with io.
Notation "x <- m ;; k" := (bind m (fun x => k))
  (at level 100, m at next level, right associativity) : io_scope.
Notation "m ;; k" := (bind m (fun _ => k))
  (at level 100, right associativity) : io_scope.
Local Open Scope io_scope.

Definition emit {W} (e : event) : M W unit :=
  fun s => (Ret tt, mkState (world s) (trace s ++ [e])).

Definition of_reply {A} (r : reply A) : outcome A :=
  match r with Done a => Ret a | Raised e => Throw e end.

(** A call that may change the world. *)
Definition call {W A} (e : event) (op : W -> reply A * W) : M W A :=
  fun s => let (r, w') := op (world s) in (of_reply r, mkState w' (trace s ++ [e])).

(** A call that only reads the world. *)
Definition query {W A} (e : event) (op : W -> reply A) : M W A :=
  fun s => (of_reply (op (world s)), mkState (world s) (trace s ++ [e])).

Definition when {W} (c : bool) (m : M W unit) : M W unit :=
  if c then m else ret tt.

(** [for (const x of xs) body] *)
Fixpoint for_of {W A} (xs : list A) (body : A -> M W unit) : M W unit :=
  match xs with
  | [] => ret tt
  | x :: rest => body x ;; for_of rest body
  end.

(** ** The upload command (upload.ts) *)

Definition MAX_RETRY_ATTEMPTS : nat := 10.
Definition FILE_SYSTEM_WAIT_MS : Z := 300.
Definition GIT_SUBMODULE_MODE : string := "160000".
Definition DEFAULT_BRANCHES : list string := ["main"; "master"].

Record skill := mkSkill { name : string; baseDir : string }.

Record UploadOptions := mkOptions {
  repo : option string;
  message : option string;
  yes : bool
}.

(** A double-quoted argument inside a command line. *)
Definition dq (s : string) : string := str DQUOTE ++ s ++ str DQUOTE.

Definition nl : string := str LF.

Definition show_nat (n : nat) : string :=
  NilEmpty.string_of_uint (Nat.to_uint n).

(** [s.split(/[/\\]/).pop()] *)
Fixpoint last_segment_from (acc s : string) : string :=
  match s with
  | EmptyString => acc
  | String c t =>
      if Ascii.eqb c "/" || Ascii.eqb c BACKSLASH
      then last_segment_from EmptyString t
      else last_segment_from (acc ++ str c) t
  end.

Definition last_segment (s : string) : string := last_segment_from EmptyString s.

Definition isGitRelatedFile (name : string) : bool :=
  String.eqb name ".git" || String.eqb name ".gitignore" || String.eqb name ".gitattributes".

Definition getDeleteCommand (pf : platform) (path : string) : string :=
  match pf with
  | Win32 => "Remove-Item -Recurse -Force " ++ dq path
  | Posix => "rm -rf " ++ dq path
  end.

Definition show_Z (z : Z) : string :=
  if (z <? 0)%Z then "-" ++ show_nat (Z.abs_nat z) else show_nat (Z.abs_nat z).

Definition show_code (c : js_code) : string :=
  match c with CodeNum n => show_Z n | CodeStr s => s end.

(** [s.split('\n')] *)
Fixpoint split_lines_from (acc s : string) : list string :=
  match s with
  | EmptyString => [acc]
  | String c t =>
      if Ascii.eqb c LF then acc :: split_lines_from EmptyString t
      else split_lines_from (acc ++ str c) t
  end.

Definition split_lines (s : string) : list string := split_lines_from EmptyString s.

Section Upload.

Context {W : Type} (sys : Sys W).

Local Notation "'IO'" := (M W).

(** *** Primitive calls *)

Definition existsSync (p : string) : IO bool :=
  fun s => let r := sys_exists W sys p (world s) in
           (Ret r, mkState (world s) (trace s ++ [EvExists p r])).

Definition rmSync (p : string) (recursive : bool) : IO unit :=
  call (EvRm p recursive) (sys_rm W sys p recursive).

Definition mkdirSync (p : string) : IO unit :=
  call (EvMkdir p) (sys_mkdir W sys p).

Definition readdirSync (p : string) : IO (list dirent) :=
  query (EvReaddir p) (sys_readdir W sys p).

Definition statSync (p : string) : IO (option stat_kind) :=
  query (EvStat p) (sys_stat W sys p).

Definition copyFileSync (src dst : string) : IO unit :=
  call (EvCopyFile src dst) (sys_copyFile W sys src dst).

Definition readFileSync (p : string) : IO string :=
  query (EvReadFile p) (sys_readFile W sys p).

Definition writeFileSync (p content : string) : IO unit :=
  call (EvWriteFile p content) (sys_writeFile W sys p content).

Definition execSync (cmd : string) (opts : exec_options) : IO string :=
  call (EvExec cmd opts) (sys_exec W sys cmd opts).

Definition confirm (msg : string) : IO bool :=
  call (EvConfirm msg) (sys_confirm W sys msg).

(** [await new Promise(resolve => setTimeout(resolve, ms))] *)
Definition sleep (ms : Z) : IO unit :=
  fun s => (Ret tt, mkState (sys_sleep W sys ms (world s)) (trace s ++ [EvSleep ms])).

Definition console_log (s : string) : IO unit := emit (EvLog s).
Definition console_error (s : string) : IO unit := emit (EvError s).
Definition console_warn (s : string) : IO unit := emit (EvWarn s).
Definition spinner (k : spinner_call) (text : string) : IO unit := emit (EvSpinner k text).

Definition join (parts : list string) : string := sys_join W sys parts.

(** [{ cwd, stdio: 'pipe' }] *)
Definition piped (cwd : string) : exec_options := mkExecOptions (Some cwd) false None.
(** [{ cwd, encoding: 'utf-8', stdio: 'pipe' }] *)
Definition piped_utf8 (cwd : string) : exec_options := mkExecOptions (Some cwd) true None.

(** *** Lines 114-120 *)

Definition sanitizeBranchName (branch : string) : IO string :=
  if isValidBranchName branch then ret branch
  else
    console_warn ("Warning: Invalid branch name '" ++ branch ++ "', using 'main' as fallback") ;;
    ret "main".

(** *** Lines 143-223 *)

Definition cleanupSubmodule (localRepoDir skillName : string) : IO unit :=
  try_catch
    ((* 1. Remove from .gitmodules *)
     let gitmodulesPath := join [localRepoDir; ".gitmodules"] in
     ex <- existsSync gitmodulesPath ;;
     when ex
       (content <- readFileSync gitmodulesPath ;;
        let gitmodulesContent := trim (sys_strip_gitmodules W sys skillName content) in
        if truthy gitmodulesContent then
          writeFileSync gitmodulesPath (gitmodulesContent ++ nl) ;;
          execSync "git add .gitmodules" (piped localRepoDir) ;;
          ret tt
        else
          rmSync gitmodulesPath false ;;
          try_catch
            (execSync "git rm .gitmodules" (piped localRepoDir) ;; ret tt)
            (fun error =>
               when (isExecError error && code_nonzero error)
                 (let errorMsg := stderr_text error in
                  when (negb (includes "did not match any files" errorMsg))
                    (console_log ("Note: Could not remove .gitmodules from Git index: "
                                  ++ trim errorMsg))))) ;;
     (* 2. Remove from .git/config *)
     try_catch
       (let gitConfigPath := join [localRepoDir; ".git"; "config"] in
        ex <- existsSync gitConfigPath ;;
        when ex
          (content <- readFileSync gitConfigPath ;;
           let configContent := trim (sys_strip_gitconfig W sys skillName content) in
           writeFileSync gitConfigPath (configContent ++ nl)))
       (fun error =>
          when (isExecError error && code_nonzero error)
            (console_log ("Note: Could not clean up .git/config: " ++ message_text error))) ;;
     (* 3. Remove from .git/modules/ *)
     let gitModulesPath := join [localRepoDir; ".git"; "modules"; "skills"; skillName] in
     ex <- existsSync gitModulesPath ;;
     when ex (rmSync gitModulesPath true) ;;
     (* 4. Remove from .git/modules/skills/ if empty *)
     let gitModulesSkillsPath := join [localRepoDir; ".git"; "modules"; "skills"] in
     ex <- existsSync gitModulesSkillsPath ;;
     when ex
       (try_catch
          (entries <- readdirSync gitModulesSkillsPath ;;
           when (List.length entries =? 0)%nat (rmSync gitModulesSkillsPath true))
          (fun error =>
             when (isExecError error && code_nonzero error)
               (console_log ("Note: Could not check/remove empty .git/modules/skills directory: "
                             ++ message_text error)))))
    (fun error =>
       when (isExecError error)
         (console_log ("Warning: Some submodule cleanup operations failed: "
                       ++ message_text error))).

(** *** Lines 257-297 *)

(** One pass of the loop body; [true] is [removed = true; break]. *)
Definition removeAttempt (gitPath : string) : IO bool :=
  try_catch
    (rmSync gitPath true ;;
     sleep FILE_SYSTEM_WAIT_MS ;;
     ex <- existsSync gitPath ;;
     ret (negb ex))
    (fun _ =>
       (* Continue retrying *)
       sleep FILE_SYSTEM_WAIT_MS ;;
       ret false).

(** [for (let i = 0; i < MAX_RETRY_ATTEMPTS; i++)], by the passes left. *)
Fixpoint removeLoop (left : nat) (gitPath : string) : IO bool :=
  match left with
  | O => ret false
  | S left' =>
      removed <- removeAttempt gitPath ;;
      if removed then ret true else removeLoop left' gitPath
  end.

Definition removeGitDirectory (gitPath skillName context : string) : IO bool :=
  ex <- existsSync gitPath ;;
  if negb ex then ret true
  else
    console_log ("Warning: Found .git directory in " ++ context
                 ++ ", removing to prevent submodule issue...") ;;
    removed <- removeLoop MAX_RETRY_ATTEMPTS gitPath ;;
    still <- (if negb removed then existsSync gitPath else ret false) ;;
    if negb removed && still then
      console_error (nl ++ "Error: .git directory still exists in " ++ context) ;;
      console_error ("Path: " ++ gitPath) ;;
      console_error "Git will treat this as a submodule, causing upload to fail." ;;
      console_error (nl ++ "Please manually delete the .git directory:") ;;
      console_error ("  " ++ getDeleteCommand (sys_platform W sys) gitPath) ;;
      console_error (nl ++ "Then try uploading again.") ;;
      ret false
    else
      when removed (console_log "✓ Removed .git directory") ;;
      ret removed.

(** Lines 241-248 *)
Definition ensureGitDirectoryRemoved (skillDir skillName context : string) : IO bool :=
  let gitPath := join [skillDir; ".git"] in
  removeGitDirectory gitPath skillName context.

(** *** Lines 304-314 *)

Definition getCurrentBranch (repoDir : string) : IO string :=
  try_catch
    (branch <- execSync "git rev-parse --abbrev-ref HEAD"
                 (mkExecOptions (Some repoDir) true None) ;;
     sanitizeBranchName (trim branch))
    (fun _ => ret "main").


(** *** Lines 681-728: the recursive copy *)

(** The body of the loop over the entries of [src]; [recurse] is the
    recursive call. *)
Definition copyEntry (recurse : string -> string -> IO unit)
    (src dest : string) (entry : dirent) : IO unit :=
  if isGitRelatedFile (d_name entry) then ret tt
  else
    let srcPath := join [src; d_name entry] in
    let destPath := join [dest; d_name entry] in
    match d_kind entry with
    | KDirectory =>
        if isGitRelatedFile (d_name entry) then ret tt
        else
          mkdirSync destPath ;;
          recurse srcPath destPath
    | KFile => copyFileSync srcPath destPath
    | KSymbolicLink =>
        if isGitRelatedFile (d_name entry) then ret tt
        else
          try_catch
            (stats <- statSync srcPath ;;
             match stats with
             | None => ret tt
             | Some SFile => copyFileSync srcPath destPath
             | Some SDirectory =>
                 mkdirSync destPath ;;
                 recurse srcPath destPath
             | Some SOther => ret tt
             end)
            (fun _ => ret tt)
    | KOther => ret tt
    end.

(** A call deeper than the stack allows raises a [RangeError]. *)
Definition RangeError : js_error :=
  mkError false None None None (Some "Maximum call stack size exceeded").

Fixpoint copyRecursive (stack : nat) (src dest : string) : IO unit :=
  match stack with
  | O => throw RangeError
  | S stack' =>
      entries <- readdirSync src ;;
      for_of entries (copyEntry (copyRecursive stack') src dest)
  end.

(** *** Lines 543-755: one pass of the loop over the skills *)

(** Lines 552-573.  [false] is the [continue] of a declined overwrite. *)
Definition confirmOverwrite (options : UploadOptions) (sk : skill)
    (targetSkillDir : string) : IO bool :=
  ex <- existsSync targetSkillDir ;;
  if ex && negb (yes options) then
    try_catch
      (shouldOverwrite <- confirm ("Skill '" ++ name sk
                                   ++ "' already exists in repository. Overwrite?") ;;
       if negb shouldOverwrite then
         console_log ("Skipped: " ++ name sk) ;;
         ret false
       else ret true)
      (fun error =>
         if is_ExitPromptError error then
           console_log (nl ++ "Cancelled by user") ;;
           process_exit 0
         else throw error)
  else ret true.

(** The [catch] blocks of lines 598-607 and 626-634. *)
Definition noteUnlessUnmatched (what : string) (error : js_error) : IO unit :=
  when (isExecError error && code_nonzero error)
    (let errorMsg := stderr_text error in
     when (negb (includes "did not match any files" errorMsg)
           && negb (includes "No such file" errorMsg))
       (console_log ("Note: " ++ what ++ ": " ++ trim errorMsg))).

(** Lines 582-648: remove what is at the target; returns
    [(isSubmodule, isRegisteredSubmodule)]. *)
Definition removeExisting (localRepoDir targetSkillDir : string) (sk : skill)
    : IO (bool * bool) :=
  ex <- existsSync targetSkillDir ;;
  if ex then
    let existingGitPath := join [targetSkillDir; ".git"] in
    isSubmodule <- existsSync existingGitPath ;;
    isRegisteredSubmodule <-
      try_catch
        (let skillPath := escapeGitPath (join ["skills"; name sk]) in
         lsOutput <- execSync ("git ls-files --stage " ++ dq skillPath)
                       (piped_utf8 localRepoDir) ;;
         ret (includes GIT_SUBMODULE_MODE lsOutput))
        (fun error =>
           noteUnlessUnmatched "Could not check submodule status" error ;;
           ret false) ;;
    try_catch
      (let skillPath := escapeGitPath (join ["skills"; name sk]) in
       if isSubmodule || isRegisteredSubmodule then
         execSync ("git rm --cached --force " ++ dq skillPath) (piped localRepoDir) ;;
         ret tt
       else
         execSync ("git rm -r --cached " ++ dq skillPath) (piped localRepoDir) ;;
         ret tt)
      (noteUnlessUnmatched "Could not remove from Git index") ;;
    rmSync targetSkillDir true ;;
    ex' <- existsSync existingGitPath ;;
    when ex' (rmSync existingGitPath true) ;;
    when (isSubmodule || isRegisteredSubmodule)
      (cleanupSubmodule localRepoDir (name sk)) ;;
    ret (isSubmodule, isRegisteredSubmodule)
  else ret (false, false).

(** Lines 652-674 *)
Definition commitSubmoduleRemoval (localRepoDir : string) : IO unit :=
  try_catch
    (statusOutput <- execSync "git status --porcelain" (piped_utf8 localRepoDir) ;;
     when (truthy (trim statusOutput))
       (execSync ("git commit -m "
                  ++ dq "Remove submodule before uploading as regular files")
          (piped localRepoDir) ;;
        ret tt))
    (fun error =>
       when (isExecError error && code_nonzero error)
         (console_log ("Note: Could not commit submodule removal: "
                       ++ message_text error))).

(** Lines 732-746: the checks after the copy. *)
Definition verifyCopied (targetSkillDir : string) (sk : skill) : IO unit :=
  removed <- ensureGitDirectoryRemoved targetSkillDir (name sk) "target" ;;
  when (negb removed)
    (spinner SpinFail ("CRITICAL: Failed to remove .git directory from " ++ name sk) ;;
     process_exit 1) ;;
  let skillMdPath := join [targetSkillDir; "SKILL.md"] in
  ex <- existsSync skillMdPath ;;
  when (negb ex)
    (spinner SpinFail ("Failed to copy " ++ name sk ++ ": SKILL.md not found") ;;
     console_error ("Error: SKILL.md was not copied to " ++ targetSkillDir) ;;
     process_exit 1).

(** Lines 575-754 *)
Definition copySkill (localRepoDir targetSkillDir : string) (sk : skill) : IO unit :=
  spinner SpinStart ("Copying " ++ name sk ++ "...") ;;
  try_catch
    (flags <- removeExisting localRepoDir targetSkillDir sk ;;
     let (isSubmodule, isRegisteredSubmodule) := flags : bool * bool in
     when (isSubmodule || isRegisteredSubmodule) (commitSubmoduleRemoval localRepoDir) ;;
     mkdirSync targetSkillDir ;;
     copyRecursive (sys_stack W sys) (baseDir sk) targetSkillDir ;;
     verifyCopied targetSkillDir sk ;;
     spinner SpinSucceed ("Copied " ++ name sk))
    (fun error =>
       spinner SpinFail ("Failed to copy " ++ name sk) ;;
       let errorMessage := if isExecError error then message_text error else "Unknown error" in
       console_error ("Error: " ++ errorMessage) ;;
       process_exit 1).

(** Lines 543-755: the body of [for (const skill of skills)]. *)
Definition processSkill (options : UploadOptions) (localRepoDir skillsDir : string)
    (sk : skill) : IO unit :=
  if negb (isValidSkillName (name sk)) then
    console_error ("Error: Invalid skill name '" ++ name sk
                   ++ "'. Skill names can only contain letters, numbers, dots, hyphens, and underscores.") ;;
    process_exit 1
  else
    let targetSkillDir := join [skillsDir; name sk] in
    proceed <- confirmOverwrite options sk targetSkillDir ;;
    if proceed then copySkill localRepoDir targetSkillDir sk else ret tt.


(** *** Lines 488-536: clone, or update, the local mirror *)

(** Lines 514-524.  [true] is [pullSuccess = true; break]. *)
Fixpoint pullLoop (localRepoDir : string) (branches : list string) : IO bool :=
  match branches with
  | [] => ret false
  | branch :: rest =>
      pulled <-
        try_catch
          (safeBranch <- sanitizeBranchName branch ;;
           execSync ("git pull origin " ++ safeBranch) (piped localRepoDir) ;;
           ret true)
          (fun _ => ret false) ;;
      if pulled then ret true else pullLoop localRepoDir rest
  end.

Definition prepareRepository (repoUrl reposDir localRepoDir : string) : IO unit :=
  ex <- existsSync localRepoDir ;;
  if negb ex then
    spinner SpinStart "Cloning repository..." ;;
    try_catch
      (mkdirSync reposDir ;;
       execSync ("git clone " ++ dq repoUrl ++ " " ++ dq localRepoDir)
         (mkExecOptions None false None) ;;
       spinner SpinSucceed "Repository cloned")
      (fun error =>
         spinner SpinFail "Failed to clone repository" ;;
         when (has_stderr error)
           (console_error (trim (opt_toString (err_stderr error)))) ;;
         console_error (nl ++ "Tip: Check your Git credentials (SSH keys or credential helper)") ;;
         process_exit 1)
  else
    spinner SpinStart "Updating repository..." ;;
    try_catch
      (execSync "git fetch origin" (piped localRepoDir) ;;
       currentBranch <- getCurrentBranch localRepoDir ;;
       pullSuccess <- pullLoop localRepoDir (currentBranch :: DEFAULT_BRANCHES) ;;
       if pullSuccess then spinner SpinSucceed "Repository updated"
       else spinner SpinSucceed "Repository ready")
      (fun _ => spinner SpinSucceed "Repository ready").

(** *** Lines 757-761 *)

Definition defaultCommitMessage (skills : list skill) : string :=
  match skills with
  | [sk] => "Upload skill: " ++ name sk
  | _ => "Upload " ++ show_nat (List.length skills) ++ " skills: "
         ++ JsString.join ", " (map name skills)
  end.

Definition commitMessageOf (options : UploadOptions) (skills : list skill) : string :=
  match message options with
  | Some m => if truthy m then m else defaultCommitMessage skills
  | None => defaultCommitMessage skills
  end.

(** *** Lines 765-771 *)

Definition ensureCleanBeforeAdd (localRepoDir : string) (skills : list skill) : IO unit :=
  for_of skills (fun sk =>
    let skillDir := join [localRepoDir; "skills"; name sk] in
    removed <- ensureGitDirectoryRemoved skillDir (name sk)
                 (name sk ++ " before adding to Git") ;;
    when (negb removed) (process_exit 1)).

(** *** Lines 774-810 *)

Definition stageSkill (localRepoDir : string) (sk : skill) : IO unit :=
  let skillPath := join ["skills"; name sk] in
  let skillDir := join [localRepoDir; skillPath] in
  removed <- ensureGitDirectoryRemoved skillDir (name sk) "before git add" ;;
  when (negb removed)
    (console_error "CRITICAL: Failed to remove .git before git add" ;;
     process_exit 1) ;;
  try_catch
    (let escapedPath := escapeGitPath skillPath in
     execSync ("git add -f " ++ dq escapedPath) (piped localRepoDir) ;;
     ret tt)
    (fun _ =>
       let escapedPath := escapeGitPath skillPath in
       execSync ("git add -f " ++ dq (escapedPath ++ "/")) (piped localRepoDir) ;;
       ret tt).

Definition stageAll (localRepoDir : string) (skills : list skill) : IO unit :=
  spinner SpinStart "Adding files to Git..." ;;
  try_catch
    (for_of skills (stageSkill localRepoDir) ;;
     execSync "git add -A" (piped localRepoDir) ;;
     spinner SpinSucceed "Files added to Git")
    (fun error =>
       spinner SpinFail "Failed to add files to Git" ;;
       when (has_stderr error)
         (console_error (trim (opt_toString (err_stderr error)))) ;;
       process_exit 1).

(** *** Lines 813-853.  [false] is the [return] of "No changes to commit". *)

Definition checkChanges (localRepoDir : string) : IO bool :=
  spinner SpinStart "Checking for changes..." ;;
  try_catch
    (statusOutput <- execSync "git status --porcelain" (piped_utf8 localRepoDir) ;;
     if negb (truthy (trim statusOutput)) then
       spinner SpinInfo "No changes to commit" ;;
       console_log "No changes detected. Skills are already up to date." ;;
       try_catch
         (lsOutput <- execSync "git ls-files skills/" (piped_utf8 localRepoDir) ;;
          when (truthy (trim lsOutput))
            (console_log (nl ++ "Files in Git index:") ;;
             console_log (JsString.join nl (firstn 10 (split_lines (trim lsOutput))))))
         (fun error =>
            when (isExecError error && code_nonzero error)
              (console_log ("Note: Could not list files in Git index: "
                            ++ message_text error))) ;;
       ret false
     else
       spinner SpinSucceed "Changes detected" ;;
       ret true)
    (fun error =>
       spinner SpinFail "Failed to check changes" ;;
       when (has_stderr error)
         (console_error (trim (opt_toString (err_stderr error)))) ;;
       process_exit 1).

(** *** Lines 856-928.  [false] is the [return] of "nothing to commit". *)

Definition commitShell : option string :=
  match sys_platform W sys with
  | Win32 =>
      Some (match sys_PSModulePath W sys with
            | Some (String _ _) => "powershell.exe"
            | _ => match sys_COMSPEC W sys with
                   | Some c => or_else c "cmd.exe"
                   | None => "cmd.exe"
                   end
            end)
  | Posix => None
  end.

(** Lines 892-911: the details of a failed commit. *)
Definition commitErrorDetails (error : js_error) : IO unit :=
  console_error (nl ++ "=== Commit Error Details ===") ;;
  when (isExecError error)
    (when (match err_stderr error with Some v => out_truthy v | None => false end)
       (console_error "Stderr:" ;;
        console_error (trim (opt_toString (err_stderr error)))) ;;
     when (has_stdout error)
       (console_error "Stdout:" ;;
        console_error (trim (opt_toString (err_stdout error)))) ;;
     match err_code error with
     | Some c => console_error ("Exit code: " ++ show_code c)
     | None => ret tt
     end).

(** Lines 914-916: the text searched for the known causes. *)
Definition commitErrorText (error : js_error) : string :=
  if isExecError error then toLowerCase (diagnostic_text error) else EmptyString.

Definition commitChanges (localRepoDir commitMessage : string) : IO bool :=
  spinner SpinStart "Committing changes..." ;;
  try_catch
    (let escapedMessage := escapeCommitMessage commitMessage in
     let commitCmd := "git commit -m " ++ dq escapedMessage in
     let execOptions := mkExecOptions (Some localRepoDir) true commitShell in
     output <- execSync commitCmd execOptions ;;
     spinner SpinSucceed "Changes committed" ;;
     when (truthy output && truthy (trim output)) (console_log (trim output)) ;;
     ret true)
    (fun error =>
       spinner SpinFail "Failed to commit changes" ;;
       commitErrorDetails error ;;
       let errorText := commitErrorText error in
       if includes "nothing to commit" errorText
          || includes "nothing added to commit" errorText then
         console_log (nl ++ "No changes to commit. Skills are already up to date.") ;;
         ret false
       else
         when (includes "author" errorText || includes "user.name" errorText
               || includes "user.email" errorText)
           (console_error (nl ++ "Tip: Configure Git user name and email:") ;;
            console_error ("  git config --global user.name " ++ dq "Your Name") ;;
            console_error ("  git config --global user.email " ++ dq "your.email@example.com")) ;;
         process_exit 1).

(** *** Lines 937-1040 *)

Inductive push_step := PushOk | PushNext (e : js_error) | PushStop (e : js_error).

(** Lines 964-995: one pass of the loop over the branches. *)
Definition pushAttempt (repoDir currentBranch branch : string) : IO push_step :=
  try_catch
    (safeBranch <- sanitizeBranchName branch ;;
     (if String.eqb branch currentBranch
      then execSync ("git push -u origin " ++ safeBranch) (piped_utf8 repoDir)
      else execSync ("git push origin " ++ safeBranch) (piped_utf8 repoDir)) ;;
     ret PushOk)
    (fun error =>
       if isExecError error then
         let errorMsg := diagnostic_text error in
         if includes ("refs/heads/" ++ branch) errorMsg || includes "Could not read" errorMsg
         then ret (PushNext error)
         else ret (PushStop error)
       else ret (PushStop error)).

(** Lines 960-996; returns [(pushSuccess, lastError)]. *)
Fixpoint pushLoop (repoDir currentBranch : string) (branches : list string)
    (lastError : option js_error) : IO (bool * option js_error) :=
  match branches with
  | [] => ret (false, lastError)
  | branch :: rest =>
      step <- pushAttempt repoDir currentBranch branch ;;
      match step with
      | PushOk => ret (true, lastError)
      | PushNext e => pushLoop repoDir currentBranch rest (Some e)
      | PushStop e => ret (false, Some e)
      end
  end.

(** Lines 1020-1029: the remediation hint chosen from the text of stderr. *)
Definition pushHint (currentBranch errorMsg : string) : IO unit :=
  if includes "authentication" errorMsg || includes "permission" errorMsg
     || includes "denied" errorMsg then
    console_error (nl ++ "Tip: Check your Git credentials (SSH keys or credential helper)")
  else if includes "no upstream" errorMsg || includes "no tracking" errorMsg then
    console_error (nl ++ "Tip: The branch may not exist on remote. Try:") ;;
    console_error ("  git push -u origin " ++ currentBranch)
  else if includes "rejected" errorMsg || includes "non-fast-forward" errorMsg then
    console_error (nl ++ "Tip: Remote has changes that you don't have. Try:") ;;
    console_error ("  git pull origin " ++ currentBranch ++ " --rebase") ;;
    console_error ("  git push origin " ++ currentBranch)
  else ret tt.

(** Lines 1009-1039 *)
Definition reportPushFailure (currentBranch : string) (lastError : option js_error)
    : IO unit :=
  spinner SpinFail "Failed to push to remote" ;;
  console_error (nl ++ "=== Push Error Details ===") ;;
  match lastError with
  | Some error =>
      when (isExecError error)
        (when (match err_stderr error with Some v => out_truthy v | None => false end)
           (let errorMsg := trim (opt_toString (err_stderr error)) in
            console_error "Stderr:" ;;
            console_error errorMsg ;;
            pushHint currentBranch errorMsg) ;;
         when (has_stdout error)
           (console_error "Stdout:" ;;
            console_error (trim (opt_toString (err_stdout error)))))
  | None => ret tt
  end ;;
  process_exit 1.

Definition reportPushSuccess (skillNames : list string) : IO unit :=
  spinner SpinSucceed "Pushed to remote" ;;
  match skillNames with
  | [n] => console_log (nl ++ "✓ Successfully uploaded skill: " ++ n)
  | _ =>
      console_log (nl ++ "✓ Successfully uploaded " ++ show_nat (List.length skillNames)
                   ++ " skills:") ;;
      for_of skillNames (fun n => console_log ("  - " ++ n))
  end.

Definition pushToRemote (repoDir : string) (skillNames : list string) : IO unit :=
  spinner SpinStart "Pushing to remote..." ;;
  try_catch
    (remoteUrl <- execSync "git remote get-url origin" (piped_utf8 repoDir) ;;
     console_log ("Remote: " ++ trim remoteUrl))
    (fun _ =>
       spinner SpinFail "No remote repository configured" ;;
       console_error "Error: Remote repository not found" ;;
       process_exit 1) ;;
  currentBranch <- getCurrentBranch repoDir ;;
  console_log ("Current branch: " ++ currentBranch) ;;
  result <- pushLoop repoDir currentBranch (currentBranch :: DEFAULT_BRANCHES) None ;;
  let (pushSuccess, lastError) := result : bool * option js_error in
  if pushSuccess then reportPushSuccess skillNames
  else reportPushFailure currentBranch lastError.

(** *** Lines 464-932 *)

(** Lines 757-931: what follows the loop over the skills. *)
Definition publishStaged (options : UploadOptions) (localRepoDir : string)
    (skills : list skill) : IO unit :=
  let commitMessage := commitMessageOf options skills in
  ensureCleanBeforeAdd localRepoDir skills ;;
  stageAll localRepoDir skills ;;
  changed <- checkChanges localRepoDir ;;
  if negb changed then ret tt
  else
    committed <- commitChanges localRepoDir commitMessage ;;
    if negb committed then ret tt
    else pushToRemote localRepoDir (map name skills).

Definition uploadToRepository (skills : list skill) (repoUrl repoName : string)
    (options : UploadOptions) : IO unit :=
  if negb (isValidRepoName repoName) then
    console_error ("Error: Invalid repository name '" ++ repoName
                   ++ "'. Repository names can only contain letters, numbers, dots, hyphens, and underscores, and cannot contain path traversal characters.") ;;
    process_exit 1
  else if negb (isValidGitUrl repoUrl) then
    console_error ("Error: Invalid Git URL '" ++ repoUrl
                   ++ "'. URL must start with http://, https://, git://, or git@, and cannot contain command injection characters.") ;;
    process_exit 1
  else
    let reposDir := join [sys_homedir W sys; ".openskills"; "repos"] in
    let safeRepoName := or_else (last_segment repoName) repoName in
    let localRepoDir := join [reposDir; safeRepoName] in
    prepareRepository repoUrl reposDir localRepoDir ;;
    let skillsDir := join [localRepoDir; "skills"] in
    mkdirSync skillsDir ;;
    for_of skills (processSkill options localRepoDir skillsDir) ;;
    publishStaged options localRepoDir skills.

(** ** The repository configuration (config.ts) *)

Definition getConfigPath : string :=
  let configDir := join [sys_homedir W sys; ".openskills"] in
  join [configDir; "repositories.json"].

(** A [TypeError], as raised by a property read on [null]. *)
Definition TypeError (msg : string) : js_error :=
  mkError false None None None (Some msg).

(** The last binding of a key in an object literal wins. *)
Fixpoint last_binding (key : string) (fields : list (string * json)) : option json :=
  match fields with
  | [] => None
  | (k, v) :: rest =>
      match last_binding key rest with
      | Some v' => Some v'
      | None => if String.eqb k key then Some v else None
      end
  end.

(** [value.key]: [None] is [undefined]; reading a property of [null]
    raises. *)
Definition get_property (value : json) (key : string) : IO (option json) :=
  match value with
  | JNull => throw (TypeError ("Cannot read properties of null (reading '" ++ key ++ "')"))
  | JObj fields => ret (last_binding key fields)
  | _ => ret None
  end.

(** Truthiness of a (possibly undefined) value. *)
Definition json_truthy (v : option json) : bool :=
  match v with
  | None => false
  | Some JNull => false
  | Some (JBool b) => b
  | Some (JNum m _) => negb (m =? 0)%Z
  | Some (JStr s) => truthy s
  | Some (JArr _) => true
  | Some (JObj _) => true
  end.

Definition isArray (v : option json) : bool :=
  match v with Some (JArr _) => true | _ => false end.

(** [JSON.parse(content)]: a value, or a [SyntaxError]. *)
Definition JSON_parse (content : string) : IO json :=
  fun s => (of_reply (sys_JSON_parse W sys content), s).

Definition loadRepositories : IO (list json) :=
  let configPath := getConfigPath in
  ex <- existsSync configPath ;;
  if negb ex then ret []
  else
    try_catch
      (content <- readFileSync configPath ;;
       config <- JSON_parse content ;;
       repositories <- get_property config "repositories" ;;
       if negb (json_truthy repositories) || negb (isArray repositories) then ret []
       else
         match repositories with
         | Some (JArr items) => ret items
         | _ => ret []
         end)
      (fun _ => ret []).

End Upload.

(** ** A small simulated world, to run the model on concrete inputs

    Paths are POSIX paths; [path.join] is used on plain names only, so it is
    concatenation with [/].  The file system is a list of paths with what is
    there; git answers by command line; the terminal answers the prompts in
    order. *)

Module Sim.

Inductive node := File | Dir | Link (target : string) | Special.

(** What the next [rmSync] does: remove, raise (nothing removed), or return
    with the path still there. *)
Inductive rm_mode := RmRemoves | RmRaises | RmLeaves.

Record t := mk {
  fs : list (string * node);
  rm_plan : list rm_mode;
  git : list (string * reply string);
  prompts : list (reply bool)
}.

Definition EPERM : js_error :=
  mkError false (Some (CodeStr "EPERM")) None None (Some "EPERM: operation not permitted").

Definition ENOENT : js_error :=
  mkError false (Some (CodeStr "ENOENT")) None None (Some "ENOENT: no such file or directory").

(** The error of a failed [execSync] with the given captured stderr. *)
Definition exec_failed (stderr : string) : js_error :=
  mkError false None (Some (Str stderr)) (Some (Str EmptyString)) (Some "Command failed").

Definition interrupted : js_error :=
  mkError true None None None (Some "User force closed the prompt").

Fixpoint lookup {A} (key : string) (l : list (string * A)) : option A :=
  match l with
  | [] => None
  | (k, v) :: rest => if String.eqb k key then Some v else lookup key rest
  end.

(** [p] itself or something below it. *)
Definition under (p q : string) : bool :=
  String.eqb p q || startsWith (p ++ "/") q.

(** Follow the symbolic links on a path, a bounded number of times. *)
Fixpoint rewrite_link (links : list (string * node)) (p : string) : option string :=
  match links with
  | [] => None
  | (l, Link target) :: rest =>
      if under l p
      then Some (target ++ substring (String.length l) (String.length p - String.length l) p)
      else rewrite_link rest p
  | _ :: rest => rewrite_link rest p
  end.

Fixpoint resolve (hops : nat) (w : t) (p : string) : option string :=
  match rewrite_link (fs w) p with
  | None => Some p
  | Some p' =>
      match hops with
      | O => None
      | S h => resolve h w p'
      end
  end.

Definition node_at (w : t) (p : string) : option node :=
  match resolve 8 w p with
  | Some p' => lookup p' (fs w)
  | None => None
  end.

Definition kind_of (n : node) : dirent_kind :=
  match n with
  | File => KFile
  | Dir => KDirectory
  | Link _ => KSymbolicLink
  | Special => KOther
  end.

(** The name of [q] when [q] is directly inside [p]. *)
Definition child_name (p q : string) : option string :=
  if startsWith (p ++ "/") q then
    let rest := substring (S (String.length p)) (String.length q - S (String.length p)) q in
    if includes "/" rest || negb (truthy rest) then None else Some rest
  else None.

Definition children (w : t) (p : string) : list dirent :=
  flat_map (fun e : string * node =>
              match child_name p (fst e) with
              | Some n => [mkDirent n (kind_of (snd e))]
              | None => []
              end) (fs w).

Definition remove_tree (p : string) (l : list (string * node)) : list (string * node) :=
  filter (fun e : string * node => negb (under p (fst e))) l.

Definition exists_ (p : string) (w : t) : bool := is_some (node_at w p).

Definition rm (p : string) (recursive : bool) (w : t) : reply unit * t :=
  match rm_plan w with
  | RmRaises :: plan => (Raised EPERM, mk (fs w) plan (git w) (prompts w))
  | RmLeaves :: plan => (Done tt, mk (fs w) plan (git w) (prompts w))
  | RmRemoves :: plan => (Done tt, mk (remove_tree p (fs w)) plan (git w) (prompts w))
  | [] => (Done tt, mk (remove_tree p (fs w)) [] (git w) (prompts w))
  end.

Definition mkdir (p : string) (w : t) : reply unit * t :=
  match lookup p (fs w) with
  | Some _ => (Done tt, w)
  | None => (Done tt, mk (fs w ++ [(p, Dir)]) (rm_plan w) (git w) (prompts w))
  end.

Definition readdir (p : string) (w : t) : reply (list dirent) :=
  match resolve 8 w p with
  | Some p' =>
      match lookup p' (fs w) with
      | Some Dir => Done (children w p')
      | _ => Raised ENOENT
      end
  | None => Raised ENOENT
  end.

Definition stat (p : string) (w : t) : reply (option stat_kind) :=
  match resolve 8 w p with
  | None => Raised (mkError false (Some (CodeStr "ELOOP")) None None
                      (Some "ELOOP: too many symbolic links encountered"))
  | Some p' =>
      match lookup p' (fs w) with
      | None => Done None
      | Some File => Done (Some SFile)
      | Some Dir => Done (Some SDirectory)
      | Some _ => Done (Some SOther)
      end
  end.

Definition copyFile (src dst : string) (w : t) : reply unit * t :=
  match node_at w src with
  | Some File =>
      (Done tt, mk (remove_tree dst (fs w) ++ [(dst, File)]) (rm_plan w) (git w) (prompts w))
  | _ => (Raised ENOENT, w)
  end.

Definition readFile (p : string) (w : t) : reply string :=
  match node_at w p with
  | Some File => Done EmptyString
  | _ => Raised ENOENT
  end.

Definition writeFile (p content : string) (w : t) : reply unit * t :=
  (Done tt, mk (remove_tree p (fs w) ++ [(p, File)]) (rm_plan w) (git w) (prompts w)).

Definition exec (cmd : string) (opts : exec_options) (w : t) : reply string * t :=
  match lookup cmd (git w) with
  | Some r => (r, w)
  | None => (Done EmptyString, w)
  end.

Definition confirm (msg : string) (w : t) : reply bool * t :=
  match prompts w with
  | r :: rest => (r, mk (fs w) (rm_plan w) (git w) rest)
  | [] => (Done false, w)
  end.

Definition SyntaxError : js_error :=
  mkError false None None None (Some "Unexpected end of JSON input").

(** The world on a platform, with what [JSON.parse] makes of a text. *)
Definition sys_with (pf : platform) (parse : string -> reply json) : Sys t :=
  mkSys t pf None None "/home/u"
    (JsString.join "/")
    exists_ rm mkdir readdir stat copyFile readFile writeFile exec confirm
    (fun _ w => w)
    64
    (fun _ content => content)
    (fun _ content => content)
    parse.

Definition sys (pf : platform) : Sys t := sys_with pf (fun _ => Raised SyntaxError).

Definition start (w : t) : state t := mkState w [].

End Sim.

(** ** Vocabulary of the properties *)

(** The value stored under a key of a parsed document; nothing is stored
    under a key of a value that is not an object. *)
Definition json_field (key : string) (v : json) : option json :=
  match v with
  | JObj fields => last_binding key fields
  | _ => None
  end.

(** How one pass of the removal loop went: the removal raised; it returned
    and the path was still there at the re-check; or the path was gone. *)
Inductive attempt := AttemptRaised | AttemptStillThere | AttemptGone.

Definition attempt_events (p : string) (a : attempt) : list event :=
  match a with
  | AttemptRaised => [EvRm p true; EvSleep FILE_SYSTEM_WAIT_MS]
  | AttemptStillThere => [EvRm p true; EvSleep FILE_SYSTEM_WAIT_MS; EvExists p true]
  | AttemptGone => [EvRm p true; EvSleep FILE_SYSTEM_WAIT_MS; EvExists p false]
  end.

(** The report printed when the path cannot be removed. *)
Definition removal_report (pf : platform) (gitPath context : string) : list event :=
  [EvError (nl ++ "Error: .git directory still exists in " ++ context);
   EvError ("Path: " ++ gitPath);
   EvError "Git will treat this as a submodule, causing upload to fail.";
   EvError (nl ++ "Please manually delete the .git directory:");
   EvError ("  " ++ getDeleteCommand pf gitPath);
   EvError (nl ++ "Then try uploading again.")].

(** The polling as the specification words it: every pass a removal, a
    wait and a re-check. *)
Definition polls_in_full_passes (p : string) (polling : list event) : Prop :=
  exists rechecks : list bool,
    polling = flat_map (fun r => [EvRm p true; EvSleep FILE_SYSTEM_WAIT_MS; EvExists p r])
                       rechecks.

(** A [.git] directory that the first [rmSync] fails to remove with an
    error, and the second removes. *)
Definition world_rm_raises_once : Sim.t :=
  Sim.mk [("/r/skills/demo", Sim.Dir); ("/r/skills/demo/.git", Sim.Dir)]
         [Sim.RmRaises] [] [].

(** A [.git] directory that no [rmSync] manages to remove. *)
Definition world_rm_never_removes : Sim.t :=
  Sim.mk [("/r/skills/demo", Sim.Dir); ("/r/skills/demo/.git", Sim.Dir)]
         (repeat Sim.RmLeaves 10) [] [].

(** A configuration file holding one repository. *)
Definition stored_repository : json :=
  JObj [("name", JStr "origin"); ("url", JStr "git@example.com:team/skills.git");
        ("addedAt", JStr "2025-01-01T00:00:00.000Z")].

Definition world_with_config : Sim.t :=
  Sim.mk [("/home/u/.openskills", Sim.Dir);
          ("/home/u/.openskills/repositories.json", Sim.File)] [] [] [].

Definition sys_with_config : Sys Sim.t :=
  Sim.sys_with Posix (fun _ => Done (JObj [("repositories", JArr [stored_repository])])).

Section Vocabulary.

Context {W : Type} (sys : Sys W).

(** The array the configuration file stores under [repositories], when the
    file is there, can be read, is JSON and stores an array there. *)
Definition config_array (w : W) : option (list json) :=
  let path := getConfigPath sys in
  if sys_exists W sys path w then
    match sys_readFile W sys path w with
    | Done content =>
        match sys_JSON_parse W sys content with
        | Done v =>
            match json_field "repositories" v with
            | Some (JArr items) => Some items
            | _ => None
            end
        | Raised _ => None
        end
    | Raised _ => None
    end
  else None.

(** A path the copy makes under [dest]: [dest] followed by names, none of
    them [.git], [.gitignore] or [.gitattributes]. *)
Inductive below (dest : string) : string -> Prop :=
| below_child (n : string) :
    isGitRelatedFile n = false -> below dest (join sys [dest; n])
| below_deeper (d n : string) :
    below dest d -> isGitRelatedFile n = false -> below dest (join sys [d; n]).

(** What the recursive copy may do: read directories and links, and make
    directories and files at such paths; nothing else. *)
Definition copy_event (dest : string) (e : event) : Prop :=
  match e with
  | EvReaddir _ | EvStat _ => True
  | EvMkdir p | EvCopyFile _ p => below dest p
  | _ => False
  end.

(** *** Stages of [uploadToRepository] *)

(** Lines 483-486: the local mirror of a repository. *)
Definition mirrorDir (repoName : string) : string :=
  join sys [join sys [sys_homedir W sys; ".openskills"; "repos"];
            or_else (last_segment repoName) repoName].

Definition skillsDirOf (repoName : string) : string :=
  join sys [mirrorDir repoName; "skills"].

Definition targetOf (repoName : string) (sk : skill) : string :=
  join sys [skillsDirOf repoName; name sk].

(** Lines 482-540: the mirror is cloned or updated and holds [skills/]. *)
Definition prepared (repoUrl repoName : string) : M W unit :=
  bind (prepareRepository sys repoUrl
          (join sys [sys_homedir W sys; ".openskills"; "repos"]) (mirrorDir repoName))
       (fun _ => mkdirSync sys (skillsDirOf repoName)).

(** The body of the loop over the skills, for a repository. *)
Definition pass (options : UploadOptions) (repoName : string) : skill -> M W unit :=
  processSkill sys options (mirrorDir repoName) (skillsDirOf repoName).


(** The question of lines 556-559. *)
Definition overwrite_question (sk : skill) : string :=
  "Skill '" ++ name sk ++ "' already exists in repository. Overwrite?".

(** The target holds the entry file and no [.git]. *)
Definition target_clean (targetSkillDir : string) (w : W) : Prop :=
  sys_exists W sys (join sys [targetSkillDir; ".git"]) w = false /\
  sys_exists W sys (join sys [targetSkillDir; "SKILL.md"]) w = true.

(** *** The push, as the specification words it *)

Definition push_command (currentBranch branch : string) : string :=
  if String.eqb branch currentBranch then "git push -u origin " ++ branch
  else "git push origin " ++ branch.

(** The failure says that the branch is not there on the remote. *)
Definition says_branch_missing (branch : string) (e : js_error) : bool :=
  isExecError e &&
  (includes ("refs/heads/" ++ branch) (diagnostic_text e)
   || includes "Could not read" (diagnostic_text e)).


End Vocabulary.

(** The three remediation hints. *)
Inductive hint := HintCredentials | HintSetUpstream | HintPullRebase.

(** The hint the text of stderr selects, if any. *)
Definition hint_of (errorMsg : string) : option hint :=
  if includes "authentication" errorMsg || includes "permission" errorMsg
     || includes "denied" errorMsg then Some HintCredentials
  else if includes "no upstream" errorMsg || includes "no tracking" errorMsg
  then Some HintSetUpstream
  else if includes "rejected" errorMsg || includes "non-fast-forward" errorMsg
  then Some HintPullRebase
  else None.

(** A line that opens a remediation hint. *)
Definition is_tip (e : event) : bool :=
  match e with
  | EvError line => startsWith (nl ++ "Tip:") line
  | _ => false
  end.

Definition tip_line (h : hint) : string :=
  match h with
  | HintCredentials => nl ++ "Tip: Check your Git credentials (SSH keys or credential helper)"
  | HintSetUpstream => nl ++ "Tip: The branch may not exist on remote. Try:"
  | HintPullRebase => nl ++ "Tip: Remote has changes that you don't have. Try:"
  end.

Definition is_exec (e : event) : bool :=
  match e with EvExec _ _ => true | _ => false end.

(** A mirror that is already cloned and holds [skills/demo]; the operator
    declines the overwrite. *)
Definition world_declines : Sim.t :=
  Sim.mk [("/home/u/.openskills/repos/origin", Sim.Dir);
          ("/home/u/.openskills/repos/origin/skills", Sim.Dir);
          ("/home/u/.openskills/repos/origin/skills/demo", Sim.Dir);
          ("/src/demo", Sim.Dir); ("/src/demo/SKILL.md", Sim.File)]
         [] [] [Done false].

(** The same, the operator interrupting the prompt. *)
Definition world_interrupts : Sim.t :=
  Sim.mk (Sim.fs world_declines) [] [] [Raised Sim.interrupted].

(** No mirror yet; a skill with a [.git], a nested [.gitignore], a link to
    a directory that holds a [.git], a link to a file and a broken link. *)
Definition world_fresh : Sim.t :=
  Sim.mk [("/src/demo", Sim.Dir); ("/src/demo/SKILL.md", Sim.File);
          ("/src/demo/.git", Sim.Dir); ("/src/demo/.git/config", Sim.File);
          ("/src/demo/sub", Sim.Dir); ("/src/demo/sub/.gitignore", Sim.File);
          ("/src/demo/sub/a.txt", Sim.File);
          ("/src/demo/dirlink", Sim.Link "/elsewhere");
          ("/src/demo/filelink", Sim.Link "/elsewhere/x");
          ("/src/demo/broken", Sim.Link "/nowhere");
          ("/elsewhere", Sim.Dir); ("/elsewhere/.git", Sim.Dir); ("/elsewhere/x", Sim.File)]
         [] [("git status --porcelain", Done ("A  skills/demo/SKILL.md" ++ nl))] [].

Definition demo : skill := mkSkill "demo" "/src/demo".
Definition example_url : string := "https://example.com/team/skills.git".
Definition no_options : UploadOptions := mkOptions None None false.


(** The hint selected for the last error of the push loop: none without an
    error, or when the error carries no text on stderr. *)
Definition selected_hint (lastError : option js_error) : option hint :=
  match lastError with
  | Some error =>
      if isExecError error
         && match err_stderr error with Some v => out_truthy v | None => false end
      then hint_of (trim (opt_toString (err_stderr error)))
      else None
  | None => None
  end.

(** A mirror whose remote hangs up on the push of [main]. *)
Definition world_push_hangs_up : Sim.t :=
  Sim.mk [("/home/u/.openskills/repos/origin", Sim.Dir)] []
         [("git push -u origin main",
           Raised (Sim.exec_failed "fatal: the remote end hung up unexpectedly"))] [].


(** *** What a computation may do *)

Section Effects.

Context {W : Type}.

(** [emits P m]: whatever the state, [m] only adds events, all of them
    satisfying [P]. *)
Definition emits {A} (P : event -> Prop) (m : M W A) : Prop :=
  forall s, exists evs, trace (snd (m s)) = (trace s ++ evs)%list /\ Forall P evs.

(** [exits_only c m]: if [m] ends the process, it is with status [c]. *)
Definition exits_only {A} (c0 : Z) (m : M W A) : Prop :=
  forall s c s', m s = (Exit c, s') -> c = c0.

(** [logs_only m]: [m] returns, leaves the world as it is, and runs no
    command. *)
Definition logs_only (m : M W unit) : Prop :=
  forall s, exists evs,
    m s = (Ret tt, mkState (world s) (trace s ++ evs)) /\
    Forall (fun e => is_exec e = false) evs.

(** A loop whose passes all return, from state to state, each pass leaving
    what [P] says. *)
Fixpoint passes {A} (body : A -> M W unit) (P : A -> state W -> state W -> Prop)
    (xs : list A) (s s' : state W) : Prop :=
  match xs with
  | [] => s' = s
  | x :: rest =>
      exists s1, body x s = (Ret tt, s1) /\ P x s s1 /\ passes body P rest s1 s'
  end.

End Effects.

(** ** More of the sources: config.ts, repo.ts, install.ts *)

(** [s.endsWith(suffix)] *)
Definition endsWith (suffix s : string) : bool :=
  (String.length suffix <=? String.length s)%nat
  && String.eqb (substring (String.length s - String.length suffix)
                           (String.length suffix) s) suffix.

(** [s.split(sep)] for a one-character separator. *)
Fixpoint split_from (sep : ascii) (acc s : string) : list string :=
  match s with
  | EmptyString => [acc]
  | String c t =>
      if Ascii.eqb c sep then acc :: split_from sep EmptyString t
      else split_from sep (acc ++ str c) t
  end.

Definition split_on (sep : ascii) (s : string) : list string :=
  split_from sep EmptyString s.

(** A thrown [new Error(message)]. *)
Definition Error (msg : string) : js_error :=
  mkError false None None None (Some msg).

(** A possibly undefined string inside a template literal. *)
Definition interpolated (v : option string) : string :=
  match v with Some s => s | None => "undefined" end.

(** *** config.ts *)

Module Config.

(** Lines 117-125 *)
Definition isValidGitUrl (url : string) : bool :=
  startsWith "git@" url || startsWith "git://" url || startsWith "http://" url
  || startsWith "https://" url || endsWith ".git" url.

Section Store.

Context {W : Type} (sys : Sys W).

(** [repositories.sort((a, b) => a.name.localeCompare(b.name))], by the
    engine and its locale: the sorted array, or the error a comparison
    raises. *)
Variable sortByName : list json -> reply (list json).

(** [JSON.stringify(config, null, 2)] *)
Variable stringify : json -> string.

(** [new Date().toISOString()] *)
Variable now : W -> string.

Local Notation "'IO'" := (M W).

(** Lines 17-22 *)
Definition ensureConfigDir : IO unit :=
  let configDir := join sys [sys_homedir W sys; ".openskills"] in
  ex <- existsSync sys configDir ;;
  when (negb ex) (mkdirSync sys configDir).

(** Lines 52-61 *)
Definition saveRepositories (repositories : list json) : IO unit :=
  ensureConfigDir ;;
  let configPath := getConfigPath sys in
  sorted <- (fun s => (of_reply (sortByName repositories), s)) ;;
  let config := JObj [("repositories", JArr sorted)] in
  writeFileSync sys configPath (stringify config ++ nl).

(** [repo.name === name] *)
Definition named (name : string) (repo : json) : IO bool :=
  n <- get_property repo "name" ;;
  ret (match n with
       | Some (JStr x) => String.eqb x name
       | _ => false
       end).

(** [xs.some(p)] *)
Fixpoint array_some (p : json -> IO bool) (xs : list json) : IO bool :=
  match xs with
  | [] => ret false
  | x :: rest => b <- p x ;; if b then ret true else array_some p rest
  end.

(** [xs.find(p)]; [None] is [undefined]. *)
Fixpoint array_find (p : json -> IO bool) (xs : list json) : IO (option json) :=
  match xs with
  | [] => ret None
  | x :: rest => b <- p x ;; if b then ret (Some x) else array_find p rest
  end.

(** [xs.filter(p)] *)
Fixpoint array_filter (p : json -> IO bool) (xs : list json) : IO (list json) :=
  match xs with
  | [] => ret []
  | x :: rest =>
      b <- p x ;;
      kept <- array_filter p rest ;;
      ret (if b then x :: kept else kept)
  end.

(** Lines 66-87 *)
Definition addRepository (name url : string) : IO unit :=
  repositories <- loadRepositories sys ;;
  exists_ <- array_some (named name) repositories ;;
  if exists_ then throw (Error ("Repository '" ++ name ++ "' already exists"))
  else if negb (isValidGitUrl url) then throw (Error ("Invalid Git URL: " ++ url))
  else
    addedAt <- (fun s => (Ret (now (world s)), s)) ;;
    let newRepo := JObj [("name", JStr name); ("url", JStr url);
                         ("addedAt", JStr addedAt)] in
    saveRepositories (repositories ++ [newRepo]).

(** Lines 92-104 *)
Definition removeRepository (name : string) : IO bool :=
  repositories <- loadRepositories sys ;;
  let initialLength := List.length repositories in
  filtered <- array_filter (fun repo => b <- named name repo ;; ret (negb b))
                repositories ;;
  if (List.length filtered =? initialLength)%nat then ret false
  else
    saveRepositories filtered ;;
    ret true.

(** Lines 109-112; [None] is [null]. *)
Definition getRepository (name : string) : IO (option json) :=
  repositories <- loadRepositories sys ;;
  found <- array_find (named name) repositories ;;
  ret (if json_truthy found then found else None).

End Store.

End Config.

(** *** repo.ts *)

Module Repo.

Section Commands.

Context {W : Type} (sys : Sys W).
Variable sortByName : list json -> reply (list json).
Variable stringify : json -> string.
Variable now : W -> string.

Local Notation "'IO'" := (M W).

(** Lines 14-24 *)
Definition addRepo (name url : string) : IO unit :=
  try_catch
    (Config.addRepository sys sortByName stringify now name url ;;
     console_log ("✓ Added repository: " ++ name) ;;
     console_log ("  URL: " ++ url))
    (fun err =>
       console_error ("Error: " ++ interpolated (err_message err)) ;;
       process_exit 1).

(** Lines 29-65 *)
Definition removeRepo (name : string) (yes : bool) : IO unit :=
  repo <- Config.getRepository sys name ;;
  when (negb (json_truthy repo))
    (console_error ("Error: Repository '" ++ name ++ "' not found") ;;
     process_exit 1) ;;
  proceed <-
    (if negb yes then
       try_catch
         (shouldRemove <- confirm sys ("Remove repository '" ++ name ++ "'?") ;;
          if negb shouldRemove then
            console_log "Cancelled" ;;
            ret false
          else ret true)
         (fun error =>
            if is_ExitPromptError error then
              console_log (nl ++ "Cancelled by user") ;;
              process_exit 0
            else throw error)
     else ret true) ;;
  if negb proceed then ret tt
  else
    removed <- Config.removeRepository sys sortByName stringify name ;;
    if removed then console_log ("✓ Removed repository: " ++ name)
    else
      console_error ("Error: Repository '" ++ name ++ "' not found") ;;
      process_exit 1.

End Commands.

End Repo.

(** *** install.ts *)

Module Install.

(** Lines 16-23 *)
Definition isLocalPath (source : string) : bool :=
  startsWith "/" source || startsWith "./" source || startsWith "../" source
  || startsWith "~/" source.

(** Lines 28-36 *)
Definition isGitUrl (source : string) : bool :=
  startsWith "git@" source || startsWith "git://" source || startsWith "http://" source
  || startsWith "https://" source || endsWith ".git" source.

Section Commands.

Context {W : Type} (sys : Sys W).

(** [ANTHROPIC_MARKETPLACE_SKILLS], of utils/marketplace-skills.ts. *)
Variable marketplace : list string.

Local Notation "'IO'" := (M W).

(** Lines 266-281 of [installFromRepo]; the loop gathers what each entry
    contributes, in order. *)
Fixpoint gather (entries : list dirent) (body : dirent -> IO (list string))
    : IO (list string) :=
  match entries with
  | [] => ret []
  | entry :: rest =>
      found <- body entry ;;
      more <- gather rest body ;;
      ret (found ++ more)%list
  end.

Fixpoint findSkills (stack : nat) (dir : string) : IO (list string) :=
  match stack with
  | O => throw RangeError
  | S stack' =>
      entries <- readdirSync sys dir ;;
      gather entries (fun entry =>
        let fullPath := join sys [dir; d_name entry] in
        match d_kind entry with
        | KDirectory =>
            ex <- existsSync sys (join sys [fullPath; "SKILL.md"]) ;;
            if ex then ret [fullPath]
            else findSkills stack' fullPath
        | _ => ret []
        end)
  end.

(** Lines 390-425.  The first part answers [Some b] where the function
    returns [b] at once. *)
Definition confirmConflict (skillName targetPath : string) (skipPrompt : bool)
    : IO (option bool) :=
  ex <- existsSync sys targetPath ;;
  if ex then
    if skipPrompt then
      console_log ("Overwriting: " ++ skillName) ;;
      ret (Some true)
    else
      try_catch
        (shouldOverwrite <- confirm sys ("Skill '" ++ skillName
                                         ++ "' already exists. Overwrite?") ;;
         if negb shouldOverwrite then ret (Some false) else ret None)
        (fun error =>
           if is_ExitPromptError error then
             console_log (nl ++ nl ++ "Cancelled by user") ;;
             process_exit 0
           else throw error)
  else ret None.

Definition warnIfConflict (skillName targetPath : string) (isProject skipPrompt : bool)
    : IO bool :=
  early <- confirmConflict skillName targetPath skipPrompt ;;
  match early with
  | Some b => ret b
  | None =>
      when (negb isProject && existsb (String.eqb skillName) marketplace)
        (console_warn (nl ++ "⚠️  Warning: '" ++ skillName
                       ++ "' matches an Anthropic marketplace skill") ;;
         console_warn "   Installing globally may conflict with Claude Code plugins." ;;
         console_warn "   If you re-enable Claude plugins, this will be overwritten." ;;
         console_warn ("   Recommend: Use --project flag for conflict-free installation."
                       ++ nl)) ;;
      ret true
  end.

End Commands.

(** [InstallOptions], of types.ts; a flag that is not given is falsy. *)
Record InstallOptions := mkInstallOptions {
  global : bool;
  universal : bool;
  yes : bool
}.

Section Installer.

Context {W : Type} (sys : Sys W).

Local Notation "'IO'" := (M W).

(** [process.cwd()], [path.resolve] and the text of [Date.now()]. *)
Variable cwd : string.
Variable resolve : string -> string.
Variable now : string.

(** The three installers that [installSkill] hands over to (lines 143-165,
    211-255 and 260-384), whatever they do. *)
Variable installFromLocal : string -> string -> InstallOptions -> IO unit.
Variable installSpecificSkill : string -> string -> string -> bool -> InstallOptions -> IO unit.
Variable installFromRepo : string -> string -> InstallOptions -> IO unit.

(** [try { m } finally { f }]: [f] runs when [m] returns or raises, not when
    the process ends inside [m]. *)
Definition try_finally {A} (m : IO A) (f : IO unit) : IO A :=
  fun s =>
    match m s with
    | (Ret a, s') =>
        match f s' with
        | (Ret _, s'') => (Ret a, s'')
        | (Throw e, s'') => (Throw e, s'')
        | (Exit c, s'') => (Exit c, s'')
        end
    | (Throw e, s') =>
        match f s' with
        | (Ret _, s'') => (Throw e, s'')
        | (Throw e', s'') => (Throw e', s'')
        | (Exit c, s'') => (Exit c, s'')
        end
    | (Exit c, s') => (Exit c, s')
    end.

(** Lines 41-46 *)
Definition expandPath (source : string) : string :=
  if startsWith "~/" source
  then join sys [sys_homedir W sys; substring 2 (String.length source - 2) source]
  else resolve source.

(** Lines 133-138 *)
Definition printPostInstallHints (isProject : bool) : IO unit :=
  console_log (nl ++ "Read skill: openskills read <skill-name>") ;;
  when isProject (console_log "Sync to AGENTS.md: openskills sync").

(** Lines 95-127 of [installSkill]: clone into a temporary directory,
    install from the clone, remove the directory. *)
Definition installFromGit (repoUrl skillSubpath targetDir : string) (isProject : bool)
    (options : InstallOptions) : IO unit :=
  let tempDir := join sys [sys_homedir W sys; ".openskills-temp-" ++ now] in
  mkdirSync sys tempDir ;;
  try_finally
    (spinner SpinStart "Cloning repository..." ;;
     try_catch
       (execSync sys ("git clone --depth 1 --quiet " ++ dq repoUrl ++ " "
                      ++ dq (tempDir ++ "/repo"))
          (mkExecOptions None false None) ;;
        spinner SpinSucceed "Repository cloned")
       (fun error =>
          spinner SpinFail "Failed to clone repository" ;;
          when (match err_stderr error with Some v => out_truthy v | None => false end)
            (console_error (trim (opt_toString (err_stderr error)))) ;;
          console_error (nl ++ "Tip: For private repos, ensure git SSH keys or credentials are configured") ;;
          process_exit 1) ;;
     let repoDir := join sys [tempDir; "repo"] in
     if truthy skillSubpath
     then installSpecificSkill repoDir skillSubpath targetDir isProject options
     else installFromRepo repoDir targetDir options)
    (rmSync sys tempDir true) ;;
  printPostInstallHints isProject.

(** Lines 51-128 *)
Definition installSkill (source : string) (options : InstallOptions) : IO unit :=
  let folder := if universal options then ".agent/skills" else ".claude/skills" in
  let isProject := negb (global options) in
  let targetDir := if isProject then join sys [cwd; folder]
                   else join sys [sys_homedir W sys; folder] in
  let location := if isProject then "project (" ++ folder ++ ")"
                  else "global (~/" ++ folder ++ ")" in
  console_log ("Installing from: " ++ source) ;;
  console_log ("Location: " ++ location ++ nl) ;;
  (* Handle local path installation *)
  if isLocalPath source then
    let localPath := expandPath source in
    installFromLocal localPath targetDir options ;;
    printPostInstallHints isProject
  else
    (* Parse git source *)
    parsed <-
      (if isGitUrl source then ret (source, EmptyString)
       else
         let parts := split_on "/" source in
         if (List.length parts =? 2)%nat then
           ret ("https://github.com/" ++ source, EmptyString)
         else if (2 <? List.length parts)%nat then
           ret ("https://github.com/" ++ interpolated (nth_error parts 0) ++ "/"
                  ++ interpolated (nth_error parts 1),
                JsString.join "/" (skipn 2 parts))
         else
           console_error "Error: Invalid source format" ;;
           console_error "Expected: owner/repo, owner/repo/skill-name, git URL, or local path" ;;
           process_exit 1) ;;
    let (repoUrl, skillSubpath) := parsed : string * string in
    (* Clone and install from git *)
    installFromGit repoUrl skillSubpath targetDir isProject options.

End Installer.

End Install.

(** *** Vocabulary for these *)

(** The alphabet [[a-zA-Z0-9._/-]], letter by letter. *)
Definition branch_alphabet : list ascii :=
  list_ascii_of_string
    "ABCDEFGHIJKLMNOPQRSTUVWXYZabcdefghijklmnopqrstuvwxyz0123456789._/-".

(** The characters [isValidGitUrl] refuses, one by one. *)
Definition dangerous_characters : list ascii :=
  ["`"; "$"; ";"; "&"; "|"; "<"; ">"; LF; CR]%char.

(** A repository stored under a name. *)
Definition has_name (name : string) (r : json) : bool :=
  match json_field "name" r with
  | Some (JStr x) => String.eqb x name
  | _ => false
  end.

(** A command made of a fixed text and a branch name that passes
    [isValidBranchName]. *)
Definition on_valid_branch (fixed cmd : string) : Prop :=
  exists b, cmd = fixed ++ b /\ isValidBranchName b = true.

Section Outcomes.

Context {W : Type}.

(** [never_throws m]: no exception escapes [m]. *)
Definition never_throws {A} (m : M W A) : Prop :=
  forall s e s', m s <> (Throw e, s').

(** [exits_where P m]: if [m] ends the process, it is with a status that
    satisfies [P]. *)
Definition exits_where {A} (P : Z -> Prop) (m : M W A) : Prop :=
  forall s c s', m s = (Exit c, s') -> P c.

(** [settles c m]: [m] returns, or ends the process with status [c]. *)
Definition settles {A} (c0 : Z) (m : M W A) : Prop :=
  forall s, (exists a s', m s = (Ret a, s')) \/ (exists s', m s = (Exit c0, s')).

End Outcomes.


(** What [prepareRepository] may run. *)
Definition prepare_command (repoUrl localRepoDir : string) (e : event) : Prop :=
  match e with
  | EvExec cmd _ =>
      cmd = "git clone " ++ dq repoUrl ++ " " ++ dq localRepoDir
      \/ cmd = "git fetch origin"
      \/ cmd = "git rev-parse --abbrev-ref HEAD"
      \/ on_valid_branch "git pull origin " cmd
  | _ => True
  end.

(** What [pushToRemote] may run. *)
Definition push_to_remote_command (e : event) : Prop :=
  match e with
  | EvExec cmd _ =>
      cmd = "git remote get-url origin"
      \/ cmd = "git rev-parse --abbrev-ref HEAD"
      \/ on_valid_branch "git push -u origin " cmd
      \/ on_valid_branch "git push origin " cmd
  | _ => True
  end.

(** A commit whose message is one literal argument for the shell. *)
Definition quoted_commit (e : event) : Prop :=
  match e with
  | EvExec cmd _ =>
      exists text, cmd = "git commit -m " ++ dq text
                   /\ dq_scan shell_special false text = true
  | _ => True
  end.

Definition is_prompt (e : event) : bool :=
  match e with EvConfirm _ => true | _ => false end.

(** No question is put to the operator. *)
Definition unprompted (e : event) : Prop := is_prompt e = false.

Definition json_is_null (v : json) : bool :=
  match v with JNull => true | _ => false end.

(** The entry [addRepository] makes. *)
Definition new_entry (name url addedAt : string) : json :=
  JObj [("name", JStr name); ("url", JStr url); ("addedAt", JStr addedAt)].

Section Config_vocabulary.

Context {W : Type} (sys : Sys W).
Variable sortByName : list json -> reply (list json).
Variable stringify : json -> string.

(** The repositories the configuration file stores, as they are read. *)
Definition stored (w : W) : list json :=
  match config_array sys w with Some items => items | None => [] end.

(** What saving a list may do: look for the configuration directory, make
    it, and write the configuration file with the list, sorted. *)
Definition save_event (repositories : list json) (e : event) : Prop :=
  match e with
  | EvExists p _ | EvMkdir p => p = join sys [sys_homedir W sys; ".openskills"]
  | EvWriteFile p content =>
      p = getConfigPath sys /\
      exists sorted, sortByName repositories = Done sorted /\
                     content = stringify (JObj [("repositories", JArr sorted)]) ++ nl
  | _ => False
  end.

End Config_vocabulary.

(** An engine for the examples: the list is kept in the order given, the
    text written is left out, and the clock stands still. *)
Definition keep_order (l : list json) : reply (list json) := Done l.
Definition no_text (v : json) : string := "{}".
Definition fixed_clock (w : Sim.t) : string := "2025-06-01T00:00:00.000Z".

Section Install_vocabulary.

Context {W : Type} (sys : Sys W).

(** What a search that only reads may end in, from a world [w]: a raise or
    an answer, the world as it was; the directories answered hold a
    [SKILL.md]. *)
Definition search_result (w : W) (r : outcome (list string) * state W) : Prop :=
  match r with
  | (Ret found, s') =>
      world s' = w /\
      Forall (fun p => sys_exists W sys (join sys [p; "SKILL.md"]) w = true) found
  | (Throw _, s') => world s' = w
  | (Exit _, _) => False
  end.

End Install_vocabulary.

(** A cloned repository of skills: one at the top with a skill nested in
    it, one further down, and a directory that holds none. *)
Definition world_skills : Sim.t :=
  Sim.mk [("/repo", Sim.Dir); ("/repo/README.md", Sim.File);
          ("/repo/pdf", Sim.Dir); ("/repo/pdf/SKILL.md", Sim.File);
          ("/repo/pdf/extra", Sim.Dir); ("/repo/pdf/extra/SKILL.md", Sim.File);
          ("/repo/office", Sim.Dir); ("/repo/office/docx", Sim.Dir);
          ("/repo/office/docx/SKILL.md", Sim.File);
          ("/repo/docs", Sim.Dir); ("/repo/docs/guide.md", Sim.File)]
         [] [] [].

Section Mirror_vocabulary.

Context {W : Type} (sys : Sys W).

(** A path made by joining names onto [root], any number of times. *)
Inductive within (root : string) : string -> Prop :=
| within_root : within root root
| within_join (d : string) (names : list string) :
    within root d -> within root (join sys (d :: names)).

(** What the upload may change, for a mirror [root] kept in [reposDir]:
    it removes, writes and copies to paths within the mirror only, makes
    directories there and [reposDir] itself, and runs its commands in the
    mirror, the clone apart. *)
Definition mirror_event (repoUrl reposDir root : string) (e : event) : Prop :=
  match e with
  | EvRm p _ | EvWriteFile p _ | EvCopyFile _ p => within root p
  | EvMkdir p => p = reposDir \/ within root p
  | EvExec cmd opts =>
      opt_cwd opts = Some root
      \/ (cmd = "git clone " ++ dq repoUrl ++ " " ++ dq root /\ opt_cwd opts = None)
  | _ => True
  end.

End Mirror_vocabulary.

Section Inventory.

Context {W : Type} (sys : Sys W).

(** The path of a skill in the mirror, as it is put into a command. *)
Definition skill_path (sk : skill) : string :=
  escapeGitPath (join sys ["skills"; name sk]).

(** The command lines of the upload of [skills] to the mirror [root] of
    [repoUrl]. *)
Inductive upload_command (skills : list skill) (options : UploadOptions)
    (repoUrl root : string) : string -> Prop :=
| cmd_clone :
    upload_command skills options repoUrl root
      ("git clone " ++ dq repoUrl ++ " " ++ dq root)
| cmd_fetch : upload_command skills options repoUrl root "git fetch origin"
| cmd_branch :
    upload_command skills options repoUrl root "git rev-parse --abbrev-ref HEAD"
| cmd_pull (b : string) :
    isValidBranchName b = true ->
    upload_command skills options repoUrl root ("git pull origin " ++ b)
| cmd_ls_stage (sk : skill) :
    In sk skills ->
    upload_command skills options repoUrl root
      ("git ls-files --stage " ++ dq (skill_path sk))
| cmd_rm_cached_force (sk : skill) :
    In sk skills ->
    upload_command skills options repoUrl root
      ("git rm --cached --force " ++ dq (skill_path sk))
| cmd_rm_cached (sk : skill) :
    In sk skills ->
    upload_command skills options repoUrl root
      ("git rm -r --cached " ++ dq (skill_path sk))
| cmd_add_gitmodules : upload_command skills options repoUrl root "git add .gitmodules"
| cmd_rm_gitmodules : upload_command skills options repoUrl root "git rm .gitmodules"
| cmd_commit_removal :
    upload_command skills options repoUrl root
      ("git commit -m " ++ dq "Remove submodule before uploading as regular files")
| cmd_status : upload_command skills options repoUrl root "git status --porcelain"
| cmd_add (sk : skill) :
    In sk skills ->
    upload_command skills options repoUrl root ("git add -f " ++ dq (skill_path sk))
| cmd_add_dir (sk : skill) :
    In sk skills ->
    upload_command skills options repoUrl root
      ("git add -f " ++ dq (skill_path sk ++ "/"))
| cmd_add_all : upload_command skills options repoUrl root "git add -A"
| cmd_ls : upload_command skills options repoUrl root "git ls-files skills/"
| cmd_commit :
    upload_command skills options repoUrl root
      ("git commit -m " ++ dq (escapeCommitMessage (commitMessageOf options skills)))
| cmd_remote : upload_command skills options repoUrl root "git remote get-url origin"
| cmd_push (b : string) :
    isValidBranchName b = true ->
    upload_command skills options repoUrl root ("git push origin " ++ b)
| cmd_push_upstream (b : string) :
    isValidBranchName b = true ->
    upload_command skills options repoUrl root ("git push -u origin " ++ b).

(** Every command run is one of the upload's. *)
Definition command_event (skills : list skill) (options : UploadOptions)
    (repoUrl root : string) (e : event) : Prop :=
  match e with
  | EvExec cmd _ => upload_command skills options repoUrl root cmd
  | _ => True
  end.

End Inventory.

(** *** Quoting, the backtick apart *)


(** *** The polling removal, as the specification words it *)

Section Polling_vocabulary.

Context {W : Type} (sys : Sys W).

(** One pass over [p], from a world to a world: the removal, then a wait
    of 300 ms; unless the removal raised, the path is looked for again
    after the wait. *)
Inductive polling_pass (p : string) : W -> attempt -> W -> Prop :=
| pass_raised (w w1 : W) (e : js_error) :
    sys_rm W sys p true w = (Raised e, w1) ->
    polling_pass p w AttemptRaised (sys_sleep W sys 300 w1)
| pass_still_there (w w1 : W) :
    sys_rm W sys p true w = (Done tt, w1) ->
    sys_exists W sys p (sys_sleep W sys 300 w1) = true ->
    polling_pass p w AttemptStillThere (sys_sleep W sys 300 w1)
| pass_gone (w w1 : W) :
    sys_rm W sys p true w = (Done tt, w1) ->
    sys_exists W sys p (sys_sleep W sys 300 w1) = false ->
    polling_pass p w AttemptGone (sys_sleep W sys 300 w1).

(** The passes of a polling that may make [left] more passes: none is left,
    or a pass finds the path gone and is the last, or a pass does not and
    the polling goes on from where that pass left the world. *)
Inductive polling (p : string) : nat -> W -> list attempt -> W -> Prop :=
| polling_over (w : W) : polling p 0 w [] w
| polling_gone (left : nat) (w w' : W) :
    polling_pass p w AttemptGone w' ->
    polling p (S left) w [AttemptGone] w'
| polling_again (left : nat) (w w1 w' : W) (a : attempt) (rest : list attempt) :
    polling_pass p w a w1 ->
    a <> AttemptGone ->
    polling p left w1 rest w' ->
    polling p (S left) w (a :: rest) w'.

(** What one pass shows. *)
Definition pass_events (p : string) (a : attempt) : list event :=
  match a with
  | AttemptRaised => [EvRm p true; EvSleep 300]
  | AttemptStillThere => [EvRm p true; EvSleep 300; EvExists p true]
  | AttemptGone => [EvRm p true; EvSleep 300; EvExists p false]
  end.

(** A pass found the path gone. *)
Definition found_gone (passes : list attempt) : bool :=
  existsb (fun a => match a with AttemptGone => true | _ => false end) passes.

(** What follows the passes: the word of success; or, none having found
    the path gone, one more look at the path, and the report if it is
    there. *)
Definition polling_end (p context : string) (passes : list attempt) (w : W) : list event :=
  if found_gone passes then [EvLog "✓ Removed .git directory"]
  else if sys_exists W sys p w
       then EvExists p true :: removal_report (sys_platform W sys) p context
       else [EvExists p false].

End Polling_vocabulary.

(** *** The push, with its last error *)

Section Push_vocabulary.

Context {W : Type} (sys : Sys W).

(** The current branch, as git reports it: the trimmed answer of
    [git rev-parse --abbrev-ref HEAD]; [main] when the command fails or
    answers what is no branch name. *)
Definition current_branch (repoDir : string) (w : W) : string :=
  match fst (sys_exec W sys "git rev-parse --abbrev-ref HEAD"
               (mkExecOptions (Some repoDir) true None) w) with
  | Done out => if isValidBranchName (trim out) then trim out else "main"
  | Raised _ => "main"
  end.

(** What asking for the current branch shows: the command, and a warning
    when the answer is no branch name. *)
Definition current_branch_events (repoDir : string) (w : W) : list event :=
  EvExec "git rev-parse --abbrev-ref HEAD" (mkExecOptions (Some repoDir) true None)
  :: match fst (sys_exec W sys "git rev-parse --abbrev-ref HEAD"
                  (mkExecOptions (Some repoDir) true None) w) with
     | Done out =>
         if isValidBranchName (trim out) then []
         else [EvWarn ("Warning: Invalid branch name '" ++ trim out
                       ++ "', using 'main' as fallback")]
     | Raised _ => []
     end.

(** Pushing to the candidates in order, from a world and a last error to a
    world and a last error: the commands run, and whether one succeeded.  A
    success ends the sequence and keeps the last error; a failure becomes
    the last error, and moves on to the next candidate only when it says
    that the branch is missing. *)
Inductive push_sequence (repoDir currentBranch : string)
  : list string -> option js_error -> W -> list event -> bool -> option js_error -> W -> Prop :=
| sequence_exhausted (lastError : option js_error) (w : W) :
    push_sequence repoDir currentBranch [] lastError w [] false lastError w
| sequence_succeeds (b : string) (rest : list string) (lastError : option js_error)
    (w w' : W) (out : string) :
    sys_exec W sys (push_command currentBranch b)
      (mkExecOptions (Some repoDir) true None) w = (Done out, w') ->
    push_sequence repoDir currentBranch (b :: rest) lastError w
      [EvExec (push_command currentBranch b) (mkExecOptions (Some repoDir) true None)]
      true lastError w'
| sequence_advances (b : string) (rest : list string) (lastError : option js_error)
    (w w1 w' : W) (e : js_error) (evs : list event) (r : bool) (final : option js_error) :
    sys_exec W sys (push_command currentBranch b)
      (mkExecOptions (Some repoDir) true None) w = (Raised e, w1) ->
    says_branch_missing b e = true ->
    push_sequence repoDir currentBranch rest (Some e) w1 evs r final w' ->
    push_sequence repoDir currentBranch (b :: rest) lastError w
      (EvExec (push_command currentBranch b) (mkExecOptions (Some repoDir) true None) :: evs)
      r final w'
| sequence_stops (b : string) (rest : list string) (lastError : option js_error)
    (w w1 : W) (e : js_error) :
    sys_exec W sys (push_command currentBranch b)
      (mkExecOptions (Some repoDir) true None) w = (Raised e, w1) ->
    says_branch_missing b e = false ->
    push_sequence repoDir currentBranch (b :: rest) lastError w
      [EvExec (push_command currentBranch b) (mkExecOptions (Some repoDir) true None)]
      false (Some e) w1.

End Push_vocabulary.

(** A mirror whose remote has no [main] yet and refuses [master]: the first
    two pushes say that the branch is missing, the third is rejected. *)
Definition world_push_rejected : Sim.t :=
  Sim.mk [("/home/u/.openskills/repos/origin", Sim.Dir)] []
         [("git rev-parse --abbrev-ref HEAD", Done ("topic" ++ nl));
          ("git push -u origin topic",
           Raised (Sim.exec_failed "error: src refspec refs/heads/topic does not match any"));
          ("git push origin main",
           Raised (Sim.exec_failed "fatal: Could not read from remote repository."));
          ("git push origin master",
           Raised (Sim.exec_failed "! [rejected] master -> master (non-fast-forward)"))] [].

(** *** The recursive copy, as the specification words it *)

(** The names that are never copied. *)
Definition version_control_names : list string := [".git"; ".gitignore"; ".gitattributes"].

Section Copy_vocabulary.

Context {W : Type} (sys : Sys W).

(** A name that a listing of some directory holds. *)
Definition listed_name (n : string) : Prop :=
  exists (p : string) (w : W) (entries : list dirent) (entry : dirent),
    sys_readdir W sys p w = Done entries /\ In entry entries /\ d_name entry = n.

(** A path under [dest] that the copy may make: [dest] followed by names of
    directory entries, none of them a version-control name. *)
Inductive copied_path (dest : string) : string -> Prop :=
| copied_child (n : string) :
    listed_name n -> ~ In n version_control_names ->
    copied_path dest (sys_join W sys [dest; n])
| copied_deeper (d n : string) :
    copied_path dest d -> listed_name n -> ~ In n version_control_names ->
    copied_path dest (sys_join W sys [d; n]).

(** What the copy into [dest] may do: list directories and examine links,
    and make directories and files at such paths; it makes no link. *)
Definition copies_into (dest : string) (e : event) : Prop :=
  match e with
  | EvReaddir _ | EvStat _ => True
  | EvMkdir p | EvCopyFile _ p => copied_path dest p
  | _ => False
  end.

(** An error inside a followed link is swallowed: the link is passed over
    and the copy goes on. *)
Definition swallowed (o : outcome unit) : outcome unit :=
  match o with
  | Exit c => Exit c
  | _ => Ret tt
  end.

Section Entries.

(** The copy of the directory [src] into the directory [dest], from a world:
    what it does, how it ends, and the world it leaves. *)
Variable tree : string -> string -> W -> list event -> outcome unit -> W -> Prop.

(** A directory is made at the destination and filled from the source. *)
Inductive copied_directory (srcPath destPath : string)
  : W -> list event -> outcome unit -> W -> Prop :=
| directory_not_made (w w1 : W) (e : js_error) :
    sys_mkdir W sys destPath w = (Raised e, w1) ->
    copied_directory srcPath destPath w [EvMkdir destPath] (Throw e) w1
| directory_filled (w w1 w' : W) (evs : list event) (o : outcome unit) :
    sys_mkdir W sys destPath w = (Done tt, w1) ->
    tree srcPath destPath w1 evs o w' ->
    copied_directory srcPath destPath w (EvMkdir destPath :: evs) o w'.

(** One entry of [src]: passed over when it bears a version-control name;
    otherwise a file is copied, a directory is made and filled, and a link
    is examined: to a file, the file it leads to is copied under the name of
    the link; to a directory, a directory is made under the name of the
    link and filled from what the link leads to; a link that leads nowhere,
    or elsewhere, or that cannot be examined, is passed over; and whatever
    goes wrong while a link is followed is passed over as well. *)
Inductive copied_entry (src dest : string) (entry : dirent)
  : W -> list event -> outcome unit -> W -> Prop :=
| entry_excluded (w : W) :
    In (d_name entry) version_control_names ->
    copied_entry src dest entry w [] (Ret tt) w
| entry_file (w w' : W) (r : reply unit) :
    ~ In (d_name entry) version_control_names ->
    d_kind entry = KFile ->
    sys_copyFile W sys (sys_join W sys [src; d_name entry])
      (sys_join W sys [dest; d_name entry]) w = (r, w') ->
    copied_entry src dest entry w
      [EvCopyFile (sys_join W sys [src; d_name entry]) (sys_join W sys [dest; d_name entry])]
      (of_reply r) w'
| entry_directory (w w' : W) (evs : list event) (o : outcome unit) :
    ~ In (d_name entry) version_control_names ->
    d_kind entry = KDirectory ->
    copied_directory (sys_join W sys [src; d_name entry])
      (sys_join W sys [dest; d_name entry]) w evs o w' ->
    copied_entry src dest entry w evs o w'
| entry_link_to_file (w w' : W) (r : reply unit) :
    ~ In (d_name entry) version_control_names ->
    d_kind entry = KSymbolicLink ->
    sys_stat W sys (sys_join W sys [src; d_name entry]) w = Done (Some SFile) ->
    sys_copyFile W sys (sys_join W sys [src; d_name entry])
      (sys_join W sys [dest; d_name entry]) w = (r, w') ->
    copied_entry src dest entry w
      [EvStat (sys_join W sys [src; d_name entry]);
       EvCopyFile (sys_join W sys [src; d_name entry]) (sys_join W sys [dest; d_name entry])]
      (Ret tt) w'
| entry_link_to_directory (w w' : W) (evs : list event) (o : outcome unit) :
    ~ In (d_name entry) version_control_names ->
    d_kind entry = KSymbolicLink ->
    sys_stat W sys (sys_join W sys [src; d_name entry]) w = Done (Some SDirectory) ->
    copied_directory (sys_join W sys [src; d_name entry])
      (sys_join W sys [dest; d_name entry]) w evs o w' ->
    copied_entry src dest entry w
      (EvStat (sys_join W sys [src; d_name entry]) :: evs) (swallowed o) w'
| entry_link_skipped (w : W) :
    ~ In (d_name entry) version_control_names ->
    d_kind entry = KSymbolicLink ->
    sys_stat W sys (sys_join W sys [src; d_name entry]) w <> Done (Some SFile) ->
    sys_stat W sys (sys_join W sys [src; d_name entry]) w <> Done (Some SDirectory) ->
    copied_entry src dest entry w [EvStat (sys_join W sys [src; d_name entry])] (Ret tt) w
| entry_other (w : W) :
    ~ In (d_name entry) version_control_names ->
    d_kind entry = KOther ->
    copied_entry src dest entry w [] (Ret tt) w.

(** The entries in order, up to the first that does not return. *)
Inductive copied_entries (src dest : string)
  : list dirent -> W -> list event -> outcome unit -> W -> Prop :=
| entries_done (w : W) : copied_entries src dest [] w [] (Ret tt) w
| entries_next (entry : dirent) (rest : list dirent) (w w1 w' : W)
    (evs1 evs2 : list event) (o : outcome unit) :
    copied_entry src dest entry w evs1 (Ret tt) w1 ->
    copied_entries src dest rest w1 evs2 o w' ->
    copied_entries src dest (entry :: rest) w (evs1 ++ evs2) o w'
| entries_stopped (entry : dirent) (rest : list dirent) (w w' : W)
    (evs : list event) (o : outcome unit) :
    copied_entry src dest entry w evs o w' ->
    o <> Ret tt ->
    copied_entries src dest (entry :: rest) w evs o w'.

End Entries.

(** The copy of a tree, [depth] being the depth of nesting the engine
    allows: the directory is listed and its entries are copied in order. *)
Fixpoint copied_tree (depth : nat) (src dest : string) (w : W) (evs : list event)
    (o : outcome unit) (w' : W) : Prop :=
  match depth with
  | O => evs = [] /\ o = Throw RangeError /\ w' = w
  | S depth' =>
      match sys_readdir W sys src w with
      | Raised e => evs = [EvReaddir src] /\ o = Throw e /\ w' = w
      | Done entries =>
          exists rest,
            evs = EvReaddir src :: rest /\
            copied_entries (copied_tree depth') src dest entries w rest o w'
      end
  end.

End Copy_vocabulary.

(** *** Worlds where the checks after the copy meet a [.git] *)

(** A mirror whose [skills/demo] holds a [.git] that the removals made
    before the copy leave where it is; the operator agrees to overwrite. *)
Definition world_git_survives : Sim.t :=
  Sim.mk [("/home/u/.openskills/repos/origin", Sim.Dir);
          ("/home/u/.openskills/repos/origin/skills", Sim.Dir);
          ("/home/u/.openskills/repos/origin/skills/demo", Sim.Dir);
          ("/home/u/.openskills/repos/origin/skills/demo/.git", Sim.Dir);
          ("/src/demo", Sim.Dir); ("/src/demo/SKILL.md", Sim.File)]
         [Sim.RmLeaves; Sim.RmLeaves]
         [("git status --porcelain", Done ("M  skills/demo/SKILL.md" ++ nl))]
         [Done true].

(** [path.join] normalises its result: a segment [.] is dropped. *)
Definition join_dropping_dots (parts : list string) : string :=
  JsString.join "/" (filter (fun p => negb (String.eqb p ".")) parts).

Definition sys_dropping_dots : Sys Sim.t :=
  mkSys Sim.t Posix None None "/home/u"
    join_dropping_dots
    Sim.exists_ Sim.rm Sim.mkdir Sim.readdir Sim.stat Sim.copyFile Sim.readFile
    Sim.writeFile Sim.exec Sim.confirm
    (fun _ w => w)
    64
    (fun _ content => content)
    (fun _ content => content)
    (fun _ => Raised Sim.SyntaxError).

(** Two skills to publish, the second under the name [.]. *)
Definition world_two_skills : Sim.t :=
  Sim.mk [("/home/u/.openskills/repos/origin", Sim.Dir);
          ("/src/demo", Sim.Dir); ("/src/demo/SKILL.md", Sim.File);
          ("/src/other", Sim.Dir); ("/src/other/SKILL.md", Sim.File)]
         []
         [("git status --porcelain", Done ("A  skills/SKILL.md" ++ nl))]
         [].

Definition dot : skill := mkSkill "." "/src/other".
Definition yes_to_all : UploadOptions := mkOptions None None true.

(** An installer whose three hand-overs only say what they were given. *)
Definition install_example : string -> Install.InstallOptions -> M Sim.t unit :=
  Install.installSkill (Sim.sys Posix) "/work" (fun p => "/work/" ++ p) "0"
    (fun localPath _ _ => emit (EvLog ("installFromLocal " ++ localPath)))
    (fun _ skillSubpath _ _ _ => emit (EvLog ("installSpecificSkill " ++ skillSubpath)))
    (fun _ _ _ => ret tt).

(** * Properties *)

(** ** Strings *)

Lemma startsWith_spec (p s : string) :
  startsWith p s = true <-> exists b, s = p ++ b.
Proof.
  revert s; induction p as [|c p IH]; intros s; simpl.
  - split; [intros _; exists s; reflexivity | reflexivity].
  - destruct s as [|d s]; [split; [discriminate | intros [b Hb]; discriminate]|].
    rewrite andb_true_iff, IH, Ascii.eqb_eq. split.
    + intros [-> [b ->]]. exists b. reflexivity.
    + intros [b Hb]. injection Hb as -> ->. split; [reflexivity | exists b; reflexivity].
Qed.

Lemma includes_spec (sub s : string) :
  includes sub s = true <-> contains sub s.
Proof.
  unfold contains. induction s as [|d s IH].
  - simpl. rewrite orb_false_r, startsWith_spec. split.
    + intros [b Hb]. exists EmptyString, b. exact Hb.
    + intros [a [b Hb]]. destruct a; [exists b; exact Hb | discriminate].
  - cbn [includes]. rewrite orb_true_iff, startsWith_spec, IH. split.
    + intros [[b Hb] | [a [b Hb]]].
      * exists EmptyString, b. exact Hb.
      * exists (String d a), b. simpl. now rewrite Hb.
    + intros [a [b Hb]]. destruct a as [|d' a].
      * left. exists b. exact Hb.
      * right. injection Hb as _ Hb. exists a, b. exact Hb.
Qed.

Lemma forallb_spec (p : ascii -> bool) (s : string) :
  forallb p s = true <-> forall c, In c (list_ascii_of_string s) -> p c = true.
Proof.
  induction s as [|d s IH]; simpl.
  - split; [intros _ c [] | reflexivity].
  - rewrite andb_true_iff, IH. split.
    + intros [Hd Hs] c [<- | Hc]; auto.
    + intros H. split; [apply H; now left | intros c Hc; apply H; now right].
Qed.

Lemma name_class_alphabet (c : ascii) :
  name_class c = existsb (Ascii.eqb c) name_alphabet.
Proof.
  destruct c as [[] [] [] [] [] [] [] []]; reflexivity.
Qed.

Lemma name_class_spec (c : ascii) :
  name_class c = true <-> In c name_alphabet.
Proof.
  rewrite name_class_alphabet, existsb_exists. split.
  - intros [x [Hin Heq]]. apply Ascii.eqb_eq in Heq. now subst.
  - intros Hin. exists c. split; [exact Hin | apply Ascii.eqb_refl].
Qed.

Lemma test_class_plus_spec (cls : ascii -> bool) (s : string) :
  test_class_plus cls s = true <->
  (1 <= String.length s)%nat /\
  forall c, In c (list_ascii_of_string s) -> cls c = true.
Proof.
  destruct s as [|d s].
  - simpl. split; [discriminate | intros [H _]; lia].
  - change (test_class_plus cls (String d s)) with (forallb cls (String d s)).
    rewrite forallb_spec. simpl. split; [intros H; split; [lia | exact H] | tauto].
Qed.

Lemma isValidSkillName_spec (s : string) :
  isValidSkillName s = true <-> valid_name_spec s.
Proof.
  unfold isValidSkillName, valid_name_spec.
  rewrite !andb_true_iff, test_class_plus_spec, Nat.ltb_lt, Nat.leb_le.
  split.
  - intros [[[H1 Hc] H0] H255]. split; [lia|].
    intros c Hin. apply name_class_spec. auto.
  - intros [Hlen Hc]. repeat split; try lia.
    intros c Hin. apply name_class_spec. auto.
Qed.

Lemma includes_char_In (c : ascii) (s : string) :
  includes (str c) s = true -> In c (list_ascii_of_string s).
Proof.
  rewrite includes_spec. intros [a [b ->]].
  induction a as [|d a IH]; simpl; [now left | now right].
Qed.

(** ** The name validators *)

(** C4, as written, fails at ["a..b"]: the string is 4 characters of the
    alphabet and the skill-name validator accepts it, yet the
    repository-name validator rejects it. *)
Lemma repo_name_rejects_double_dot :
  valid_name_spec "a..b" /\
  isValidSkillName "a..b" = true /\
  isValidRepoName "a..b" = false.
Proof.
  split; [apply isValidSkillName_spec|split]; reflexivity.
Qed.

(** C4, amended: the skill-name validator accepts exactly the strings of 1
    to 255 characters drawn from [[A-Za-z0-9._-]]; the repository-name
    validator accepts exactly those among them that hold no two consecutive
    dots. *)
Theorem name_validators_spec (s : string) :
  (isValidSkillName s = true <-> valid_name_spec s) /\
  (isValidRepoName s = true <-> valid_name_spec s /\ ~ contains ".." s).
Proof.
  split; [apply isValidSkillName_spec|].
  unfold isValidRepoName.
  destruct (includes ".." s) eqn:Hdd; simpl.
  { apply includes_spec in Hdd. split; [discriminate | tauto]. }
  assert (Hnodd : ~ contains ".." s).
  { intros H. apply includes_spec in H. congruence. }
  destruct (includes "/" s) eqn:Hs; simpl.
  { split; [discriminate|]. intros [[_ Hc] _].
    apply (includes_char_In "/") in Hs. apply Hc, name_class_spec in Hs. discriminate. }
  destruct (includes "\" s) eqn:Hb; simpl.
  { split; [discriminate|]. intros [[_ Hc] _].
    apply (includes_char_In "\") in Hb. apply Hc, name_class_spec in Hb. discriminate. }
  fold (isValidSkillName s). rewrite isValidSkillName_spec. tauto.
Qed.

(** ** Escaping *)

Lemma append_assoc (a b c : string) : (a ++ b) ++ c = a ++ (b ++ c).
Proof. induction a as [|x a IH]; simpl; [reflexivity | now rewrite IH]. Qed.

Lemma append_nil_r (a : string) : a ++ EmptyString = a.
Proof. induction a as [|x a IH]; simpl; [reflexivity | now rewrite IH]. Qed.

Lemma map_chars_app (f : ascii -> string) (a b : string) :
  map_chars f (a ++ b) = map_chars f a ++ map_chars f b.
Proof.
  induction a as [|c a IH]; simpl; [reflexivity|].
  now rewrite IH, append_assoc.
Qed.

Lemma map_chars_ext (f g : ascii -> string) (s : string) :
  (forall c, f c = g c) -> map_chars f s = map_chars g s.
Proof.
  intros H. induction s as [|c s IH]; simpl; [reflexivity | now rewrite H, IH].
Qed.

Lemma map_chars_compose (f g : ascii -> string) (s : string) :
  map_chars g (map_chars f s) = map_chars (fun c => map_chars g (f c)) s.
Proof.
  induction s as [|c s IH]; simpl; [reflexivity|].
  now rewrite map_chars_app, IH.
Qed.

(** A global one-character replacement rewrites character by character. *)
Lemma replaceAll_map_chars (c : ascii) (by_ s : string) :
  replaceAll c by_ s = map_chars (fun d => if Ascii.eqb d c then by_ else str d) s.
Proof.
  induction s as [|d s IH]; simpl; [reflexivity|].
  rewrite IH. destruct (Ascii.eqb d c); reflexivity.
Qed.

Ltac all_chars c := destruct c as [[] [] [] [] [] [] [] []]; reflexivity.

(** The six passes of [escapeGitPath] amount to one pass. *)
Lemma escapeGitPath_chars (s : string) :
  escapeGitPath s = map_chars git_path_char s.
Proof.
  unfold escapeGitPath.
  rewrite !replaceAll_map_chars, !map_chars_compose.
  apply map_chars_ext. intros c. all_chars c.
Qed.

(** The seven passes of [escapeCommitMessage] amount to one pass. *)
Lemma escapeCommitMessage_chars (s : string) :
  escapeCommitMessage s = map_chars commit_message_char s.
Proof.
  unfold escapeCommitMessage.
  rewrite !replaceAll_map_chars, !map_chars_compose.
  apply map_chars_ext. intros c. all_chars c.
Qed.

(** Whatever follows, the image of a character other than the backtick is
    read by the shell as literal text. *)
Lemma dq_scan_git_path_char (c : ascii) (rest : string) :
  Ascii.eqb c BACKTICK = false ->
  dq_scan listed_special false (git_path_char c ++ rest)
  = dq_scan listed_special false rest.
Proof.
  destruct c as [[] [] [] [] [] [] [] []]; intros H;
    solve [reflexivity | discriminate H].
Qed.

Lemma dq_scan_commit_message_char (c : ascii) (rest : string) :
  dq_scan shell_special false (commit_message_char c ++ rest)
  = dq_scan shell_special false rest.
Proof.
  destruct c as [[] [] [] [] [] [] [] []]; reflexivity.
Qed.

(** X3: The output of [escapeGitPath] is literal text between double quotes
    whenever the input holds no backtick. *)
Lemma escapeGitPath_inert (s : string) :
  includes (str BACKTICK) s = false -> dq_inert (escapeGitPath s) = true.
Proof.
  rewrite escapeGitPath_chars. unfold dq_inert.
  induction s as [|c s IH]; [reflexivity|].
  cbn [includes map_chars]. intros H.
  apply orb_false_iff in H. destruct H as [Hc Hs].
  rewrite dq_scan_git_path_char; [auto|].
  cbn in Hc. destruct (Ascii.eqb_spec c BACKTICK) as [->|Hne]; [discriminate Hc|].
  reflexivity.
Qed.

(** The output of [escapeCommitMessage] is always literal text between
    double quotes, the dollar sign counted among the special characters. *)
Lemma escapeCommitMessage_inert (s : string) :
  dq_scan shell_special false (escapeCommitMessage s) = true.
Proof.
  rewrite escapeCommitMessage_chars.
  induction s as [|c s IH]; [reflexivity|].
  cbn [map_chars]. now rewrite dq_scan_commit_message_char.
Qed.

(** X4: The characters [escapeGitPath] removes or replaces are absent from its
    output: no newline, carriage return, NUL or tab is left. *)
Lemma escapeGitPath_strips (s : string) (c : ascii) :
  In c [LF; CR; NUL; TAB] -> ~ In c (list_ascii_of_string (escapeGitPath s)).
Proof.
  rewrite escapeGitPath_chars. intros Hc.
  induction s as [|d s IH]; simpl; [tauto|].
  intros Hin. apply IH. clear IH.
  destruct d as [[] [] [] [] [] [] [] []]; cbn in Hin; try exact Hin;
    repeat (destruct Hin as [Heq | Hin]; [subst c; cbn in Hc;
      repeat (destruct Hc as [Hc | Hc]; [discriminate Hc|]); destruct Hc|]);
    exact Hin.
Qed.







(** ** Laws of the effect monad *)

Section Laws.

Context {W : Type}.

Lemma bind_run {A B} (m : M W A) (f : A -> M W B) (s : state W) :
  bind m f s =
  match m s with
  | (Ret a, s') => f a s'
  | (Throw e, s') => (Throw e, s')
  | (Exit c, s') => (Exit c, s')
  end.
Proof. reflexivity. Qed.

Lemma bind_of_Ret {A B} (m : M W A) (f : A -> M W B) s a s' :
  m s = (Ret a, s') -> bind m f s = f a s'.
Proof. intros H. unfold bind. now rewrite H. Qed.

Lemma bind_of_Exit {A B} (m : M W A) (f : A -> M W B) s c s' :
  m s = (Exit c, s') -> bind m f s = (Exit c, s').
Proof. intros H. unfold bind. now rewrite H. Qed.

Lemma bind_of_Throw {A B} (m : M W A) (f : A -> M W B) s e s' :
  m s = (Throw e, s') -> bind m f s = (Throw e, s').
Proof. intros H. unfold bind. now rewrite H. Qed.

(** A sequence that returns went through a returning first half. *)
Lemma bind_Ret_inv {A B} (m : M W A) (f : A -> M W B) s b s' :
  bind m f s = (Ret b, s') ->
  exists a s1, m s = (Ret a, s1) /\ f a s1 = (Ret b, s').
Proof.
  unfold bind. destruct (m s) as [[a|e|c] s1]; intros H; try discriminate.
  exists a, s1. split; [reflexivity | exact H].
Qed.

Lemma try_catch_Ret_inv {A} (m : M W A) (h : js_error -> M W A) s a s' :
  try_catch m h s = (Ret a, s') ->
  m s = (Ret a, s') \/ exists e s1, m s = (Throw e, s1) /\ h e s1 = (Ret a, s').
Proof.
  unfold try_catch. destruct (m s) as [[a'|e|c] s1]; intros H.
  - now left.
  - right. exists e, s1. split; [reflexivity | exact H].
  - discriminate.
Qed.

Lemma for_of_app {A} (xs ys : list A) (body : A -> M W unit) (s : state W) :
  for_of (xs ++ ys) body s = bind (for_of xs body) (fun _ => for_of ys body) s.
Proof.
  revert s. induction xs as [|x xs IH]; intros s; simpl; [reflexivity|].
  rewrite !bind_run. destruct (body x s) as [[[]|e|c] s1]; [apply IH| |]; reflexivity.
Qed.

(** When a loop over a list returns, every pass returned, one state after
    the other. *)
Lemma for_of_Ret_inv {A} (xs : list A) (body : A -> M W unit) (s s' : state W)
    (P : A -> state W -> state W -> Prop) :
  (forall x s1 s2, body x s1 = (Ret tt, s2) -> P x s1 s2) ->
  for_of xs body s = (Ret tt, s') ->
  Forall (fun x => exists s1 s2, body x s1 = (Ret tt, s2) /\ P x s1 s2) xs.
Proof.
  intros HP. revert s. induction xs as [|x xs IH]; intros s H; [constructor|].
  simpl in H. apply bind_Ret_inv in H. destruct H as [[] [s1 [Hx Hrest]]].
  constructor; [exists s, s1; auto | eapply IH; eauto].
Qed.

Lemma for_of_Ret_passes {A} (xs : list A) (body : A -> M W unit) (s s' : state W)
    (P : A -> state W -> state W -> Prop) :
  (forall x s1 s2, body x s1 = (Ret tt, s2) -> P x s1 s2) ->
  for_of xs body s = (Ret tt, s') -> passes body P xs s s'.
Proof.
  intros HP. revert s. induction xs as [|x xs IH]; intros s H.
  - cbn in H. injection H as ->. reflexivity.
  - cbn [for_of] in H. apply bind_Ret_inv in H. destruct H as [[] [s1 [Hx Hrest]]].
    exists s1. auto.
Qed.

(** A pass that does not return ends the loop there. *)
Lemma for_of_stops {A} (pre post : list A) (x : A) (body : A -> M W unit) s s1 :
  for_of pre body s = (Ret tt, s1) ->
  for_of (pre ++ x :: post) body s =
  match body x s1 with
  | (Ret _, s2) => for_of post body s2
  | r => r
  end.
Proof.
  intros Hpre. rewrite for_of_app, (bind_of_Ret _ _ _ _ _ Hpre). simpl.
  rewrite bind_run. destruct (body x s1) as [[[]|e|c] s2]; reflexivity.
Qed.

Lemma emits_ret {A} P (a : A) : emits P (@ret W A a).
Proof. intros s. exists []. cbn. now rewrite app_nil_r. Qed.

Lemma emits_throw {A} P e : emits P (@throw W A e).
Proof. intros s. exists []. cbn. now rewrite app_nil_r. Qed.

Lemma emits_exit {A} P c : emits P (@process_exit W A c).
Proof. intros s. exists []. cbn. now rewrite app_nil_r. Qed.

Lemma emits_emit (P : event -> Prop) e : P e -> emits P (@emit W e).
Proof. intros H s. exists [e]. cbn. auto. Qed.

Lemma emits_call {A} (P : event -> Prop) e (op : W -> reply A * W) :
  P e -> emits P (call e op).
Proof.
  intros H s. exists [e]. unfold call. destruct (op (world s)). cbn. auto.
Qed.

Lemma emits_query {A} (P : event -> Prop) e (op : W -> reply A) :
  P e -> emits P (query e op).
Proof. intros H s. exists [e]. cbn. auto. Qed.

Lemma emits_bind {A B} P (m : M W A) (f : A -> M W B) :
  emits P m -> (forall a, emits P (f a)) -> emits P (bind m f).
Proof.
  intros Hm Hf s. destruct (Hm s) as [evs [Ht Hp]]. rewrite bind_run.
  destruct (m s) as [[a|e|c] s1]; cbn in Ht; try solve [exists evs; auto].
  destruct (Hf a s1) as [evs' [Ht' Hp']].
  exists (evs ++ evs')%list. rewrite Ht', Ht, app_assoc. split; [reflexivity|].
  apply Forall_app. auto.
Qed.

Lemma emits_try_catch {A} P (m : M W A) (h : js_error -> M W A) :
  emits P m -> (forall e, emits P (h e)) -> emits P (try_catch m h).
Proof.
  intros Hm Hh s. destruct (Hm s) as [evs [Ht Hp]]. unfold try_catch.
  destruct (m s) as [[a|e|c] s1]; cbn in Ht; try solve [exists evs; auto].
  destruct (Hh e s1) as [evs' [Ht' Hp']].
  exists (evs ++ evs')%list. rewrite Ht', Ht, app_assoc. split; [reflexivity|].
  apply Forall_app. auto.
Qed.

Lemma emits_when P (c : bool) (m : M W unit) : emits P m -> emits P (when c m).
Proof. intros H. destruct c; [exact H | apply emits_ret]. Qed.

Lemma emits_for_of {A} P (xs : list A) (body : A -> M W unit) :
  (forall x, emits P (body x)) -> emits P (for_of xs body).
Proof.
  intros H. induction xs as [|x xs IH]; [apply emits_ret|].
  cbn [for_of]. apply emits_bind; auto.
Qed.

Lemma emits_mono {A} (P Q : event -> Prop) (m : M W A) :
  (forall e, P e -> Q e) -> emits P m -> emits Q m.
Proof.
  intros HPQ Hm s. destruct (Hm s) as [evs [Ht Hp]]. exists evs. split; [exact Ht|].
  eapply Forall_impl; eauto.
Qed.

Lemma exits_only_ret {A} c0 (a : A) : exits_only c0 (@ret W A a).
Proof. intros s c s' H. discriminate H. Qed.

Lemma exits_only_throw {A} c0 e : exits_only c0 (@throw W A e).
Proof. intros s c s' H. discriminate H. Qed.

Lemma exits_only_exit {A} c0 : exits_only c0 (@process_exit W A c0).
Proof. intros s c s' H. now injection H as <- _. Qed.

Lemma exits_only_emit c0 e : exits_only c0 (@emit W e).
Proof. intros s c s' H. discriminate H. Qed.

Lemma exits_only_call {A} c0 e (op : W -> reply A * W) : exits_only c0 (call e op).
Proof.
  intros s c s'. unfold call. destruct (op (world s)) as [[a|x] w]; discriminate.
Qed.

Lemma exits_only_query {A} c0 e (op : W -> reply A) : exits_only c0 (query e op).
Proof.
  intros s c s'. unfold query. destruct (op (world s)) as [a|x]; discriminate.
Qed.

Lemma exits_only_bind {A B} c0 (m : M W A) (f : A -> M W B) :
  exits_only c0 m -> (forall a, exits_only c0 (f a)) -> exits_only c0 (bind m f).
Proof.
  intros Hm Hf s c s'. rewrite bind_run.
  destruct (m s) as [[a|e|c1] s1] eqn:Hms; intros H.
  - eapply Hf; eauto.
  - discriminate H.
  - injection H as <- <-. eapply Hm; eauto.
Qed.

Lemma exits_only_try_catch {A} c0 (m : M W A) (h : js_error -> M W A) :
  exits_only c0 m -> (forall e, exits_only c0 (h e)) -> exits_only c0 (try_catch m h).
Proof.
  intros Hm Hh s c s'. unfold try_catch.
  destruct (m s) as [[a|e|c1] s1] eqn:Hms; intros H.
  - discriminate H.
  - eapply Hh; eauto.
  - injection H as <- <-. eapply Hm; eauto.
Qed.

Lemma exits_only_when c0 (b : bool) (m : M W unit) :
  exits_only c0 m -> exits_only c0 (when b m).
Proof. intros H. destruct b; [exact H | apply exits_only_ret]. Qed.

Lemma exits_only_for_of {A} c0 (xs : list A) (body : A -> M W unit) :
  (forall x, exits_only c0 (body x)) -> exits_only c0 (for_of xs body).
Proof.
  intros H. induction xs as [|x xs IH]; [apply exits_only_ret|].
  cbn [for_of]. apply exits_only_bind; auto.
Qed.

Lemma logs_only_ret : logs_only (@ret W unit tt).
Proof. intros s. exists []. rewrite app_nil_r. destruct s. auto. Qed.

Lemma logs_only_emit e : is_exec e = false -> logs_only (@emit W e).
Proof. intros H s. exists [e]. auto. Qed.

Lemma logs_only_bind (m k : M W unit) :
  logs_only m -> logs_only k -> logs_only (bind m (fun _ => k)).
Proof.
  intros Hm Hk s. destruct (Hm s) as [evs [Hr Hf]].
  rewrite (bind_of_Ret _ _ _ _ _ Hr).
  destruct (Hk (mkState (world s) (trace s ++ evs))) as [evs' [Hr' Hf']].
  exists (evs ++ evs')%list. rewrite Hr'. cbn [world trace]. rewrite app_assoc.
  split; [reflexivity | apply Forall_app; auto].
Qed.



End Laws.

(** Walk through a computation, one construct at a time. *)
Ltac walk_exits :=
  repeat first
    [ apply exits_only_ret | apply exits_only_throw | apply exits_only_exit
    | apply exits_only_emit | apply exits_only_call | apply exits_only_query
    | apply exits_only_when
    | apply exits_only_bind; [|intros ?]
    | apply exits_only_try_catch; [|intros ?]
    | apply exits_only_for_of; intros ?
    | progress cbv zeta
    | match goal with
      | |- exits_only _ (if ?b then _ else _) => destruct b
      | |- exits_only _ (match ?x with _ => _ end) => destruct x
      | |- exits_only _ (let (_, _) := ?x in _) => destruct x
      end ].

(** ** The repository configuration *)

Section Config.

Context {W : Type} (sys : Sys W).

(** The run of [loadRepositories], whatever the world holds. *)
Lemma loadRepositories_run (s : state W) :
  exists s',
    loadRepositories sys s
    = (Ret (match config_array sys (world s) with Some items => items | None => [] end), s')
    /\ world s' = world s.
Proof.
  unfold loadRepositories, config_array, bind, existsSync, try_catch, readFileSync, query,
    JSON_parse, get_property.
  cbn [world trace].
  destruct (sys_exists W sys (getConfigPath sys) (world s)); cbn;
    [|eexists; split; reflexivity].
  destruct (sys_readFile W sys (getConfigPath sys) (world s)) as [c|e]; cbn;
    [|eexists; split; reflexivity].
  destruct (sys_JSON_parse W sys c) as [v|e]; cbn; [|eexists; split; reflexivity].
  destruct v as [|b|m x|t|items|fields]; cbn; try (eexists; split; reflexivity).
  destruct (last_binding "repositories" fields) as [[|b|m x|t|items|fields']|]; cbn;
    try (destruct b); try (destruct (m =? 0)%Z); try (destruct t); cbn;
    eexists; split; reflexivity.
Qed.

(** C10: [loadRepositories] always returns a list and never raises; the list
    is empty when the file is absent, cannot be read, is not JSON, or stores
    no array under [repositories]; otherwise it is the stored array. *)
Theorem loadRepositories_total (s : state W) :
  exists (l : list json) (s' : state W),
    loadRepositories sys s = (Ret l, s') /\ world s' = world s /\
    let path := getConfigPath sys in
    (sys_exists W sys path (world s) = false -> l = []) /\
    (forall e, sys_readFile W sys path (world s) = Raised e -> l = []) /\
    (forall c e, sys_readFile W sys path (world s) = Done c ->
                 sys_JSON_parse W sys c = Raised e -> l = []) /\
    (forall c v, sys_readFile W sys path (world s) = Done c ->
                 sys_JSON_parse W sys c = Done v ->
                 (forall items, json_field "repositories" v <> Some (JArr items)) ->
                 l = []) /\
    (forall c v items,
        sys_exists W sys path (world s) = true ->
        sys_readFile W sys path (world s) = Done c ->
        sys_JSON_parse W sys c = Done v ->
        json_field "repositories" v = Some (JArr items) ->
        l = items).
Proof.
  destruct (loadRepositories_run s) as [s' [Hrun Hw]].
  exists (match config_array sys (world s) with Some items => items | None => [] end), s'.
  split; [exact Hrun|]. split; [exact Hw|].
  unfold config_array. cbn zeta.
  repeat split.
  - intros ->. reflexivity.
  - intros e ->. now destruct (sys_exists W sys _ _).
  - intros c e -> ->. now destruct (sys_exists W sys _ _).
  - intros c v -> -> Hno. destruct (sys_exists W sys _ _); [|reflexivity].
    destruct (json_field "repositories" v) as [[| | | |items|]|]; try reflexivity.
    now destruct (Hno items).
  - intros c v items -> -> -> ->. reflexivity.
Qed.

End Config.

(** On a file that stores one repository the list is that repository. *)
Lemma loadRepositories_total_witness :
  fst (loadRepositories sys_with_config (Sim.start world_with_config))
  = Ret [stored_repository].
Proof.
  destruct (loadRepositories_total sys_with_config (Sim.start world_with_config))
    as [l [s' [Hrun [_ [_ [_ [_ [_ Hstored]]]]]]]].
  rewrite Hrun. cbn [fst]. f_equal.
  eapply Hstored; reflexivity.
Defined.

(** ** The removal of nested [.git] directories *)

Section Removal.

Context {W : Type} (sys : Sys W).

(** One pass: what it returns, the events it adds, and where it leaves the
    world. *)
Lemma removeAttempt_run (p : string) (s : state W) :
  exists (a : attempt) (s' : state W),
    removeAttempt sys p s = (Ret (match a with AttemptGone => true | _ => false end), s') /\
    trace s' = (trace s ++ attempt_events p a)%list /\
    (a = AttemptGone -> sys_exists W sys p (world s') = false).
Proof.
  unfold removeAttempt, try_catch, bind, rmSync, call, sleep, existsSync.
  cbn [world trace].
  destruct (sys_rm W sys p true (world s)) as [[[]|e] w1]; cbn.
  - destruct (sys_exists W sys p (sys_sleep W sys FILE_SYSTEM_WAIT_MS w1)) eqn:Hex.
    + exists AttemptStillThere. eexists. split; [reflexivity|]. cbn.
      rewrite <- !app_assoc. split; [reflexivity | discriminate].
    + exists AttemptGone. eexists. split; [reflexivity|]. cbn.
      rewrite <- !app_assoc. split; [reflexivity | intros _; exact Hex].
  - exists AttemptRaised. eexists. split; [reflexivity|]. cbn.
    rewrite <- !app_assoc. split; [reflexivity | discriminate].
Qed.

(** The loop: at most [left] passes, none after a pass that found the path
    gone; success exactly when the last pass found it gone. *)
Lemma removeLoop_run (left : nat) (p : string) (s : state W) :
  exists (removed : bool) (s' : state W) (attempts : list attempt),
    removeLoop sys left p s = (Ret removed, s') /\
    trace s' = (trace s ++ flat_map (attempt_events p) attempts)%list /\
    (length attempts <= left)%nat /\
    (removed = true ->
       exists before, attempts = (before ++ [AttemptGone])%list
                      /\ ~ In AttemptGone before
                      /\ sys_exists W sys p (world s') = false) /\
    (removed = false -> length attempts = left /\ ~ In AttemptGone attempts).
Proof.
  revert s. induction left as [|left IH]; intros s.
  - exists false, s, []. cbn. rewrite app_nil_r. repeat split; auto; discriminate.
  - cbn [removeLoop]. destruct (removeAttempt_run p s) as [a [s1 [Hrun [Htr Hgone]]]].
    rewrite (bind_of_Ret _ _ _ _ _ Hrun).
    destruct a.
    + destruct (IH s1) as [r [s' [atts [Hl [Ht [Hlen [Hok Hko]]]]]]].
      exists r, s', (AttemptRaised :: atts). split; [exact Hl|].
      split; [rewrite Ht, Htr, <- app_assoc; reflexivity|].
      split; [cbn; lia|]. split.
      * intros Hr. destruct (Hok Hr) as [before [-> [Hnot Hex]]].
        exists (AttemptRaised :: before). repeat split; auto.
        intros [Hh|Hh]; [discriminate | auto].
      * intros Hr. destruct (Hko Hr) as [Hn Hnot]. split; [cbn; lia|].
        intros [Hh|Hh]; [discriminate | auto].
    + destruct (IH s1) as [r [s' [atts [Hl [Ht [Hlen [Hok Hko]]]]]]].
      exists r, s', (AttemptStillThere :: atts). split; [exact Hl|].
      split; [rewrite Ht, Htr, <- app_assoc; reflexivity|].
      split; [cbn; lia|]. split.
      * intros Hr. destruct (Hok Hr) as [before [-> [Hnot Hex]]].
        exists (AttemptStillThere :: before). repeat split; auto.
        intros [Hh|Hh]; [discriminate | auto].
      * intros Hr. destruct (Hko Hr) as [Hn Hnot]. split; [cbn; lia|].
        intros [Hh|Hh]; [discriminate | auto].
    + exists true, s1, [AttemptGone]. split; [reflexivity|].
      split; [rewrite Htr; cbn; reflexivity|]. split; [cbn; lia|]. split.
      * intros _. exists []. repeat split; auto.
      * discriminate.
Qed.

(** The run of [removeGitDirectory], pass by pass. *)
Lemma removeGitDirectory_run (gitPath skillName context : string) (s : state W) :
  (sys_exists W sys gitPath (world s) = false ->
   removeGitDirectory sys gitPath skillName context s
   = (Ret true, mkState (world s) (trace s ++ [EvExists gitPath false]))) /\
  (sys_exists W sys gitPath (world s) = true ->
   exists (removed : bool) (s' : state W) (attempts : list attempt) (report : list event),
     removeGitDirectory sys gitPath skillName context s = (Ret removed, s') /\
     trace s' =
       (trace s
        ++ [EvExists gitPath true;
            EvLog ("Warning: Found .git directory in " ++ context
                   ++ ", removing to prevent submodule issue...")]
        ++ flat_map (attempt_events gitPath) attempts ++ report)%list /\
     (length attempts <= MAX_RETRY_ATTEMPTS)%nat /\
     (removed = true ->
        (exists before, attempts = (before ++ [AttemptGone])%list
                        /\ ~ In AttemptGone before) /\
        sys_exists W sys gitPath (world s') = false) /\
     (removed = false ->
        length attempts = MAX_RETRY_ATTEMPTS /\ ~ In AttemptGone attempts) /\
     (sys_exists W sys gitPath (world s') = true ->
        removed = false /\
        report = EvExists gitPath true
                 :: removal_report (sys_platform W sys) gitPath context)).
Proof.
  split; intros Hex.
  - unfold removeGitDirectory, bind, existsSync. cbn [world trace]. now rewrite Hex.
  - unfold removeGitDirectory. rewrite bind_run. unfold existsSync at 1. cbn [world trace].
    rewrite Hex. cbn [negb]. rewrite bind_run. unfold console_log at 1, emit. cbn [world trace].
    set (s0 := mkState (world s) _).
    destruct (removeLoop_run MAX_RETRY_ATTEMPTS gitPath s0)
      as [removed [s1 [attempts [Hrun [Htr [Hlen [Hok Hko]]]]]]].
    rewrite (bind_of_Ret _ _ _ _ _ Hrun).
    destruct removed.
    + destruct (Hok eq_refl) as [before [Hatt [Hnot Hgone]]].
      exists true. eexists. exists attempts, [EvLog "✓ Removed .git directory"].
      split; [reflexivity|]. cbn [world trace].
      split; [rewrite Htr; subst s0; cbn [trace]; rewrite <- !app_assoc; reflexivity|].
      split; [exact Hlen|]. split; [intros _; split; [exists before; auto | exact Hgone]|].
      split; [discriminate|]. intros Hstill. congruence.
    + destruct (Hko eq_refl) as [Hn Hnot]. cbn [negb].
      rewrite bind_run. unfold existsSync at 1. cbn [world trace andb].
      destruct (sys_exists W sys gitPath (world s1)) eqn:Hstill.
      * exists false. eexists. exists attempts. eexists.
        split; [reflexivity|]. cbn [world trace].
        split; [rewrite Htr; subst s0; cbn [trace]; rewrite <- !app_assoc; reflexivity|].
        split; [exact Hlen|]. split; [discriminate|].
        split; [intros _; split; assumption|]. intros _. split; reflexivity.
      * exists false. eexists. exists attempts, [EvExists gitPath false].
        split; [reflexivity|]. cbn [world trace].
        split; [rewrite Htr; subst s0; cbn [trace]; rewrite <- !app_assoc; reflexivity|].
        split; [exact Hlen|]. split; [discriminate|].
        split; [intros _; split; assumption|]. intros Hc. congruence.
Qed.

(** [removeGitDirectory] never raises and never exits: it answers. *)
Lemma removeGitDirectory_answers (gitPath skillName context : string) (s : state W) :
  exists (removed : bool) (s' : state W),
    removeGitDirectory sys gitPath skillName context s = (Ret removed, s') /\
    (removed = true -> sys_exists W sys gitPath (world s') = false).
Proof.
  destruct (removeGitDirectory_run gitPath skillName context s) as [Habsent Hthere].
  destruct (sys_exists W sys gitPath (world s)) eqn:Hex.
  - destruct (Hthere eq_refl) as [removed [s' [atts [rep [Hrun [_ [_ [Hok _]]]]]]]].
    exists removed, s'. split; [exact Hrun|]. intros Hr. now apply Hok.
  - eexists. eexists. split; [apply Habsent; reflexivity|]. intros _. exact Hex.
Qed.

(** A failed removal is fatal at each of the three places that ask for it. *)
Lemma removal_failure_is_fatal (localRepoDir targetSkillDir : string) (sk : skill)
    (rest : list skill) (s s1 : state W) :
  (ensureGitDirectoryRemoved sys targetSkillDir (name sk) "target" s = (Ret false, s1) ->
   fst (verifyCopied sys targetSkillDir sk s) = Exit 1) /\
  (ensureGitDirectoryRemoved sys (join sys [localRepoDir; "skills"; name sk]) (name sk)
     (name sk ++ " before adding to Git") s = (Ret false, s1) ->
   ensureCleanBeforeAdd sys localRepoDir (sk :: rest) s = (Exit 1, s1)) /\
  (ensureGitDirectoryRemoved sys (join sys [localRepoDir; join sys ["skills"; name sk]])
     (name sk) "before git add" s = (Ret false, s1) ->
   fst (stageSkill sys localRepoDir sk s) = Exit 1).
Proof.
  repeat split; intros H.
  - unfold verifyCopied. now rewrite (bind_of_Ret _ _ _ _ _ H).
  - unfold ensureCleanBeforeAdd. cbn [for_of]. rewrite bind_run, (bind_of_Ret _ _ _ _ _ H).
    reflexivity.
  - unfold stageSkill. now rewrite (bind_of_Ret _ _ _ _ _ H).
Qed.

End Removal.

Section Polling.

Context {W : Type} (sys : Sys W).

Lemma polling_pass_deterministic (p : string) (w : W) (a a' : attempt) (w1 w1' : W) :
  polling_pass sys p w a w1 -> polling_pass sys p w a' w1' -> a = a' /\ w1 = w1'.
Proof.
  intros H H'. destruct H as [w w1 e Hrm | w w1 Hrm Hex | w w1 Hrm Hex];
    inversion H' as [v v1 e' Hrm' | v v1 Hrm' Hex' | v v1 Hrm' Hex']; subst;
    rewrite Hrm in Hrm'; inversion Hrm'; subst; try (split; reflexivity);
    rewrite Hex in Hex'; discriminate Hex'.
Qed.

Lemma polling_deterministic (p : string) (left : nat) (w : W)
    (passes passes' : list attempt) (w' w'' : W) :
  polling sys p left w passes w' -> polling sys p left w passes' w'' ->
  passes = passes' /\ w' = w''.
Proof.
  intros H. revert passes' w''.
  induction H as [w | left w w' Hp | left w w1 w' a rest Hp Ha Hrest IH];
    intros passes' w'' H'.
  - inversion H'; subst. split; reflexivity.
  - inversion H' as [| left' v v' Hp' | left' v v1 v' a' rest' Hp' Ha' Hrest']; subst.
    + destruct (polling_pass_deterministic _ _ _ _ _ _ Hp Hp') as [_ ->].
      split; reflexivity.
    + destruct (polling_pass_deterministic _ _ _ _ _ _ Hp Hp') as [<- _].
      now contradiction Ha'.
  - inversion H' as [| left' v v' Hp' | left' v v1 v' a' rest' Hp' Ha' Hrest']; subst.
    + destruct (polling_pass_deterministic _ _ _ _ _ _ Hp Hp') as [-> _].
      now contradiction Ha.
    + destruct (polling_pass_deterministic _ _ _ _ _ _ Hp Hp') as [<- <-].
      destruct (IH _ _ Hrest') as [<- <-]. split; reflexivity.
Qed.

Lemma polling_length (p : string) (left : nat) (w : W) (passes : list attempt) (w' : W) :
  polling sys p left w passes w' ->
  (length passes <= left)%nat /\
  (found_gone passes = false -> length passes = left) /\
  (found_gone passes = true -> sys_exists W sys p w' = false).
Proof.
  induction 1 as [w | left w w' Hp | left w w1 w' a rest Hp Ha Hrest [IH1 [IH2 IH3]]].
  - cbn. repeat split; auto; discriminate.
  - cbn. repeat split; try lia; try discriminate.
    intros _. inversion Hp; subst. assumption.
  - cbn [length found_gone existsb].
    destruct a; try (now contradiction Ha); cbn [orb];
      (split; [lia|]; split; [intros Hf; rewrite (IH2 Hf); reflexivity | exact IH3]).
Qed.

(** One pass of the loop is one pass of the polling. *)
Lemma removeAttempt_pass (p : string) (s : state W) :
  exists (a : attempt) (w1 : W),
    polling_pass sys p (world s) a w1 /\
    removeAttempt sys p s
    = (Ret (match a with AttemptGone => true | _ => false end),
       mkState w1 (trace s ++ pass_events p a)).
Proof.
  unfold removeAttempt, try_catch, bind, rmSync, call, sleep, existsSync.
  cbn [world trace]. change FILE_SYSTEM_WAIT_MS with 300%Z.
  destruct (sys_rm W sys p true (world s)) as [[[]|e] w1] eqn:Hrm; cbn.
  - destruct (sys_exists W sys p (sys_sleep W sys 300 w1)) eqn:Hex.
    + exists AttemptStillThere, (sys_sleep W sys 300 w1).
      split; [now apply pass_still_there|]. cbn. rewrite <- !app_assoc. reflexivity.
    + exists AttemptGone, (sys_sleep W sys 300 w1).
      split; [now apply pass_gone|]. cbn. rewrite <- !app_assoc. reflexivity.
  - exists AttemptRaised, (sys_sleep W sys 300 w1).
    split; [now apply (pass_raised sys p _ _ e)|]. cbn. rewrite <- !app_assoc. reflexivity.
Qed.

(** The loop is the polling. *)
Lemma removeLoop_polling (left : nat) (p : string) (s : state W) :
  exists (passes : list attempt) (w1 : W),
    polling sys p left (world s) passes w1 /\
    removeLoop sys left p s
    = (Ret (found_gone passes), mkState w1 (trace s ++ flat_map (pass_events p) passes)).
Proof.
  revert s. induction left as [|left IH]; intros s.
  - exists [], (world s). split; [constructor|]. cbn. rewrite app_nil_r. now destruct s.
  - cbn [removeLoop]. destruct (removeAttempt_pass p s) as [a [w1 [Hp Hrun]]].
    rewrite (bind_of_Ret _ _ _ _ _ Hrun).
    destruct a.
    + destruct (IH (mkState w1 (trace s ++ pass_events p AttemptRaised)))
        as [rest [w' [Hrest Hl]]].
      exists (AttemptRaised :: rest), w'.
      split; [apply (polling_again sys p _ _ w1 _ _ _ Hp); [discriminate | exact Hrest]|].
      rewrite Hl. cbn [world trace flat_map found_gone existsb orb].
      rewrite <- !app_assoc. reflexivity.
    + destruct (IH (mkState w1 (trace s ++ pass_events p AttemptStillThere)))
        as [rest [w' [Hrest Hl]]].
      exists (AttemptStillThere :: rest), w'.
      split; [apply (polling_again sys p _ _ w1 _ _ _ Hp); [discriminate | exact Hrest]|].
      rewrite Hl. cbn [world trace flat_map found_gone existsb orb].
      rewrite <- !app_assoc. reflexivity.
    + exists [AttemptGone], w1. split; [now apply polling_gone|].
      cbn [flat_map found_gone existsb orb]. rewrite app_nil_r. reflexivity.
Qed.

(** The run of [removeGitDirectory] on a path that is there. *)
Lemma removeGitDirectory_polling (gitPath skillName context : string) (s : state W) :
  sys_exists W sys gitPath (world s) = true ->
  exists (passes : list attempt) (w1 : W),
    polling sys gitPath 10 (world s) passes w1 /\
    removeGitDirectory sys gitPath skillName context s
    = (Ret (found_gone passes),
       mkState w1
         (trace s
          ++ [EvExists gitPath true;
              EvLog ("Warning: Found .git directory in " ++ context
                     ++ ", removing to prevent submodule issue...")]
          ++ flat_map (pass_events gitPath) passes
          ++ polling_end sys gitPath context passes w1)).
Proof.
  intros Hex.
  unfold removeGitDirectory. rewrite bind_run. unfold existsSync at 1. cbn [world trace].
  rewrite Hex. cbn [negb]. rewrite bind_run. unfold console_log at 1, emit. cbn [world trace].
  set (s0 := mkState (world s) _).
  destruct (removeLoop_polling MAX_RETRY_ATTEMPTS gitPath s0) as [passes [w1 [Hpoll Hrun]]].
  exists passes, w1. split; [exact Hpoll|].
  rewrite (bind_of_Ret _ _ _ _ _ Hrun). unfold polling_end.
  destruct (found_gone passes).
  - cbn. subst s0. cbn [trace]. rewrite <- !app_assoc. reflexivity.
  - cbn [negb]. rewrite bind_run. unfold existsSync at 1. cbn [world trace andb].
    destruct (sys_exists W sys gitPath w1).
    + cbn. subst s0. cbn [trace]. rewrite <- !app_assoc. reflexivity.
    + cbn. subst s0. cbn [trace]. rewrite <- !app_assoc. reflexivity.
Qed.

(** C9, amended: the path absent at the start, nothing is tried and the
    result is success.  Otherwise the loop is a polling of at most 10
    passes, each a removal followed by a wait of 300 ms and, unless the
    removal raised, a re-check; no pass follows a re-check that found the
    path gone, and the result is then success; when no pass found it gone
    all 10 passes were made and the result is failure, after one more look
    at the path and, if it is still there, after the report that prints the
    path and the command to delete it by hand on this platform.  The passes
    are those the world dictates, and no others.  A failure ends the publish
    with exit status 1 at each of the three places that ask for the
    removal. *)
Theorem removeGitDirectory_polls (gitPath skillName context : string) (s : state W)
    (localRepoDir targetSkillDir : string) (sk : skill) (rest : list skill)
    (t t1 : state W) :
  ((sys_exists W sys gitPath (world s) = false ->
    removeGitDirectory sys gitPath skillName context s
    = (Ret true, mkState (world s) (trace s ++ [EvExists gitPath false]))) /\
   (sys_exists W sys gitPath (world s) = true ->
    exists (passes : list attempt) (w1 : W),
      polling sys gitPath 10 (world s) passes w1 /\
      (forall passes' w1', polling sys gitPath 10 (world s) passes' w1' ->
                           passes' = passes /\ w1' = w1) /\
      (length passes <= 10)%nat /\
      (found_gone passes = false -> length passes = 10%nat) /\
      (found_gone passes = true -> sys_exists W sys gitPath w1 = false) /\
      removeGitDirectory sys gitPath skillName context s
      = (Ret (found_gone passes),
         mkState w1
           (trace s
            ++ [EvExists gitPath true;
                EvLog ("Warning: Found .git directory in " ++ context
                       ++ ", removing to prevent submodule issue...")]
            ++ flat_map (pass_events gitPath) passes
            ++ (if found_gone passes then [EvLog "✓ Removed .git directory"]
                else if sys_exists W sys gitPath w1
                     then EvExists gitPath true
                          :: removal_report (sys_platform W sys) gitPath context
                     else [EvExists gitPath false]))))) /\
  (ensureGitDirectoryRemoved sys targetSkillDir (name sk) "target" t = (Ret false, t1) ->
   fst (verifyCopied sys targetSkillDir sk t) = Exit 1) /\
  (ensureGitDirectoryRemoved sys (join sys [localRepoDir; "skills"; name sk]) (name sk)
     (name sk ++ " before adding to Git") t = (Ret false, t1) ->
   ensureCleanBeforeAdd sys localRepoDir (sk :: rest) t = (Exit 1, t1)) /\
  (ensureGitDirectoryRemoved sys (join sys [localRepoDir; join sys ["skills"; name sk]])
     (name sk) "before git add" t = (Ret false, t1) ->
   fst (stageSkill sys localRepoDir sk t) = Exit 1).
Proof.
  split; [split | apply removal_failure_is_fatal].
  - apply removeGitDirectory_run.
  - intros Hex.
    destruct (removeGitDirectory_polling gitPath skillName context s Hex)
      as [passes [w1 [Hpoll Hrun]]].
    exists passes, w1. split; [exact Hpoll|].
    split; [intros passes' w1' H';
            destruct (polling_deterministic _ _ _ _ _ _ _ Hpoll H') as [<- <-];
            split; reflexivity|].
    destruct (polling_length _ _ _ _ _ Hpoll) as [Hlen [Hall Hgone]].
    repeat (split; [assumption|]). exact Hrun.
Qed.

End Polling.

(** C9, as written, fails when a removal raises: the first pass below is a
    removal and a wait with no re-check, and the second pass follows at
    once. *)
Lemma removal_error_skips_recheck :
  trace (snd (removeGitDirectory (Sim.sys Posix) "/r/skills/demo/.git" "demo" "target"
                (Sim.start world_rm_raises_once)))
  = [EvExists "/r/skills/demo/.git" true;
     EvLog "Warning: Found .git directory in target, removing to prevent submodule issue...";
     EvRm "/r/skills/demo/.git" true; EvSleep 300;
     EvRm "/r/skills/demo/.git" true; EvSleep 300; EvExists "/r/skills/demo/.git" false;
     EvLog "✓ Removed .git directory"]
  /\ ~ polls_in_full_passes "/r/skills/demo/.git"
         [EvRm "/r/skills/demo/.git" true; EvSleep 300;
          EvRm "/r/skills/demo/.git" true; EvSleep 300; EvExists "/r/skills/demo/.git" false].
Proof.
  split; [reflexivity|].
  intros [rechecks H]. destruct rechecks as [|r rest]; discriminate H.
Qed.

(** A directory that stays after ten removals: ten full passes, one more
    look, the report with the command of the platform, and failure; the
    publish ends there. *)
Lemma removeGitDirectory_polls_witness :
  exists w1,
    polling (Sim.sys Win32) "/r/skills/demo/.git" 10 world_rm_never_removes
      (repeat AttemptStillThere 10) w1 /\
    removeGitDirectory (Sim.sys Win32) "/r/skills/demo/.git" "demo" "target"
      (Sim.start world_rm_never_removes)
    = (Ret false,
       mkState w1
         ([EvExists "/r/skills/demo/.git" true;
           EvLog "Warning: Found .git directory in target, removing to prevent submodule issue..."]
          ++ flat_map (pass_events "/r/skills/demo/.git") (repeat AttemptStillThere 10)
          ++ [EvExists "/r/skills/demo/.git" true;
              EvError (nl ++ "Error: .git directory still exists in target");
              EvError "Path: /r/skills/demo/.git";
              EvError "Git will treat this as a submodule, causing upload to fail.";
              EvError (nl ++ "Please manually delete the .git directory:");
              EvError ("  Remove-Item -Recurse -Force " ++ dq "/r/skills/demo/.git");
              EvError (nl ++ "Then try uploading again.")])) /\
    fst (verifyCopied (Sim.sys Win32) "/r/skills/demo" (mkSkill "demo" "/src/demo")
           (Sim.start world_rm_never_removes)) = Exit 1.
Proof.
  destruct (removeGitDirectory_polls (Sim.sys Win32) "/r/skills/demo/.git" "demo" "target"
              (Sim.start world_rm_never_removes) "/r" "/r/skills/demo"
              (mkSkill "demo" "/src/demo") []
              (Sim.start world_rm_never_removes)
              (snd (removeGitDirectory (Sim.sys Win32) "/r/skills/demo/.git" "demo" "target"
                      (Sim.start world_rm_never_removes))))
    as [[_ Hthere] [Hfatal _]].
  destruct (Hthere eq_refl) as [passes [w1 [Hpoll [Honly [_ [_ [_ Hrun]]]]]]].
  assert (Hten : exists w', polling (Sim.sys Win32) "/r/skills/demo/.git" 10
                              world_rm_never_removes (repeat AttemptStillThere 10) w').
  { eexists. cbn [repeat].
    repeat (eapply polling_again;
            [eapply pass_still_there; reflexivity | discriminate |]).
    apply polling_over. }
  destruct Hten as [w' Hten].
  destruct (Honly _ _ Hten) as [Hpasses Hw]. subst passes w'.
  exists w1. split; [exact Hten|]. split.
  - rewrite Hrun. vm_compute in Hrun. injection Hrun as <-. reflexivity.
  - apply Hfatal. vm_compute. reflexivity.
Defined.

(** ** The recursive copy *)

Section Copy.

Context {W : Type} (sys : Sys W).

Lemma below_trans (dest n p : string) :
  isGitRelatedFile n = false -> below sys (join sys [dest; n]) p -> below sys dest p.
Proof.
  intros Hn H. induction H as [m Hm | d m Hd IH Hm].
  - apply below_deeper; [now apply below_child | exact Hm].
  - now apply below_deeper.
Qed.

Lemma copy_event_trans (dest n : string) (e : event) :
  isGitRelatedFile n = false ->
  copy_event sys (join sys [dest; n]) e -> copy_event sys dest e.
Proof.
  intros Hn. destruct e; cbn; auto; apply below_trans; exact Hn.
Qed.

Lemma copyEntry_emits (recurse : string -> string -> M W unit) (src dest : string)
    (entry : dirent) :
  (forall n, isGitRelatedFile n = false ->
             emits (copy_event sys (join sys [dest; n]))
                   (recurse (join sys [src; n]) (join sys [dest; n]))) ->
  emits (copy_event sys dest) (copyEntry sys recurse src dest entry).
Proof.
  intros Hrec. unfold copyEntry.
  destruct (isGitRelatedFile (d_name entry)) eqn:Hgit; [apply emits_ret|].
  assert (Hdest : below sys dest (join sys [dest; d_name entry]))
    by (now apply below_child).
  assert (Hdeep : emits (copy_event sys dest)
                    (recurse (join sys [src; d_name entry]) (join sys [dest; d_name entry]))).
  { eapply emits_mono; [|apply Hrec; exact Hgit].
    intros e. now apply copy_event_trans. }
  destruct (d_kind entry).
  - apply emits_bind; [apply emits_call; exact Hdest | intros _; exact Hdeep].
  - apply emits_call. exact Hdest.
  - apply emits_try_catch; [|intros _; apply emits_ret].
    apply emits_bind; [apply emits_query; exact I|].
    intros [[| |]|]; try apply emits_ret.
    + apply emits_call. exact Hdest.
    + apply emits_bind; [apply emits_call; exact Hdest | intros _; exact Hdeep].
  - apply emits_ret.
Qed.

Lemma copyRecursive_emits (stack : nat) (src dest : string) :
  emits (copy_event sys dest) (copyRecursive sys stack src dest).
Proof.
  revert src dest. induction stack as [|stack IH]; intros src dest; cbn [copyRecursive].
  - apply emits_throw.
  - apply emits_bind; [apply emits_query; exact I|].
    intros entries. apply emits_for_of. intros entry.
    apply copyEntry_emits. intros n _. apply IH.
Qed.

End Copy.

Section Copy_refines.

Context {W : Type} (sys : Sys W).

Lemma isGitRelatedFile_names (n : string) :
  isGitRelatedFile n = true <-> In n version_control_names.
Proof.
  unfold isGitRelatedFile, version_control_names. cbn [In].
  rewrite !orb_true_iff, !String.eqb_eq.
  split.
  - intros [[H|H]|H]; subst; auto.
  - intros [H|[H|[H|[]]]]; subst; auto.
Qed.

Lemma isGitRelatedFile_other (n : string) :
  isGitRelatedFile n = false <-> ~ In n version_control_names.
Proof.
  rewrite <- isGitRelatedFile_names. destruct (isGitRelatedFile n); split; congruence.
Qed.

Section Entry.

Variable tree : string -> string -> W -> list event -> outcome unit -> W -> Prop.
Variable recurse : string -> string -> M W unit.

Hypothesis recurse_tree : forall src dest s,
  exists evs o w',
    tree src dest (world s) evs o w' /\
    recurse src dest s = (o, mkState w' (trace s ++ evs)).

Lemma mkdir_recurse_refines (srcPath destPath : string) (s : state W) :
  exists evs o w',
    copied_directory sys tree srcPath destPath (world s) evs o w' /\
    bind (mkdirSync sys destPath) (fun _ => recurse srcPath destPath) s
    = (o, mkState w' (trace s ++ evs)).
Proof.
  rewrite bind_run. unfold mkdirSync, call.
  destruct (sys_mkdir W sys destPath (world s)) as [[[]|e] w1] eqn:Hmk; cbn [of_reply].
  - destruct (recurse_tree srcPath destPath (mkState w1 (trace s ++ [EvMkdir destPath])))
      as [evs [o [w' [Ht Hr]]]].
    cbn [world trace] in Ht, Hr.
    exists (EvMkdir destPath :: evs), o, w'.
    split; [eapply directory_filled; eauto|].
    rewrite Hr, <- app_assoc. reflexivity.
  - exists [EvMkdir destPath], (Throw e), w1.
    split; [now apply directory_not_made | reflexivity].
Qed.

Lemma copyEntry_refines (src dest : string) (entry : dirent) (s : state W) :
  exists evs o w',
    copied_entry sys tree src dest entry (world s) evs o w' /\
    copyEntry sys recurse src dest entry s = (o, mkState w' (trace s ++ evs)).
Proof.
  unfold copyEntry, join.
  destruct (isGitRelatedFile (d_name entry)) eqn:Hgit.
  - exists [], (Ret tt), (world s).
    split; [apply entry_excluded; now apply isGitRelatedFile_names|].
    rewrite app_nil_r. now destruct s.
  - assert (Hn : ~ In (d_name entry) version_control_names)
      by now apply isGitRelatedFile_other.
    destruct (d_kind entry) eqn:Hkind.
    + destruct (mkdir_recurse_refines (sys_join W sys [src; d_name entry])
                  (sys_join W sys [dest; d_name entry]) s) as [evs [o [w' [Hd Hr]]]].
      exists evs, o, w'. split; [now apply entry_directory | exact Hr].
    + unfold copyFileSync, call.
      destruct (sys_copyFile W sys _ _ (world s)) as [r w'] eqn:Hcp.
      eexists. exists (of_reply r), w'.
      split; [now apply entry_file | reflexivity].
    + unfold try_catch. rewrite bind_run. unfold statSync, query. cbn [world trace].
      destruct (sys_stat W sys (sys_join W sys [src; d_name entry]) (world s))
        as [[[| |]|]|e] eqn:Hst; cbn [of_reply].
      * unfold copyFileSync, call. cbn [world trace].
        destruct (sys_copyFile W sys _ _ (world s)) as [r w'] eqn:Hcp.
        eexists. exists (Ret tt), w'.
        split; [eapply entry_link_to_file; eauto|].
        destruct r as [[]|e]; cbn [of_reply ret]; rewrite <- app_assoc; reflexivity.
      * destruct (mkdir_recurse_refines (sys_join W sys [src; d_name entry])
                    (sys_join W sys [dest; d_name entry])
                    (mkState (world s)
                       (trace s ++ [EvStat (sys_join W sys [src; d_name entry])])))
          as [evs [o [w' [Hd Hr]]]].
        cbn [world trace] in Hd, Hr.
        eexists. exists (swallowed o), w'.
        split; [eapply entry_link_to_directory; eauto|].
        rewrite Hr. destruct o as [[]|e|c]; cbn [swallowed ret];
          rewrite <- app_assoc; reflexivity.
      * eexists. exists (Ret tt), (world s).
        split; [apply entry_link_skipped; auto; rewrite Hst; discriminate | reflexivity].
      * eexists. exists (Ret tt), (world s).
        split; [apply entry_link_skipped; auto; rewrite Hst; discriminate | reflexivity].
      * eexists. exists (Ret tt), (world s).
        split; [apply entry_link_skipped; auto; rewrite Hst; discriminate | reflexivity].
    + exists [], (Ret tt), (world s).
      split; [now apply entry_other|].
      rewrite app_nil_r. now destruct s.
Qed.

Lemma for_of_copyEntry_refines (src dest : string) (entries : list dirent) (s : state W) :
  exists evs o w',
    copied_entries sys tree src dest entries (world s) evs o w' /\
    for_of entries (copyEntry sys recurse src dest) s = (o, mkState w' (trace s ++ evs)).
Proof.
  revert s. induction entries as [|entry rest IH]; intros s.
  - exists [], (Ret tt), (world s). split; [constructor|].
    cbn. rewrite app_nil_r. now destruct s.
  - cbn [for_of]. rewrite bind_run.
    destruct (copyEntry_refines src dest entry s) as [evs1 [o1 [w1 [He Hr]]]].
    rewrite Hr. destruct o1 as [[]|e|c].
    + destruct (IH (mkState w1 (trace s ++ evs1))) as [evs2 [o [w' [Hrest Hr2]]]].
      cbn [world trace] in Hrest, Hr2.
      exists (evs1 ++ evs2)%list, o, w'.
      split; [eapply entries_next; eauto|].
      rewrite Hr2, app_assoc. reflexivity.
    + exists evs1, (Throw e), w1.
      split; [apply entries_stopped; [exact He | discriminate] | reflexivity].
    + exists evs1, (Exit c), w1.
      split; [apply entries_stopped; [exact He | discriminate] | reflexivity].
Qed.

End Entry.

(** The code copies a tree as the specification says. *)
Lemma copyRecursive_refines (stack : nat) (src dest : string) (s : state W) :
  exists evs o w',
    copied_tree sys stack src dest (world s) evs o w' /\
    copyRecursive sys stack src dest s = (o, mkState w' (trace s ++ evs)).
Proof.
  revert src dest s. induction stack as [|stack IH]; intros src dest s.
  - exists [], (Throw RangeError), (world s). cbn. rewrite app_nil_r.
    split; [auto | now destruct s].
  - cbn [copyRecursive copied_tree]. rewrite bind_run. unfold readdirSync, query.
    destruct (sys_readdir W sys src (world s)) as [entries|e]; cbn [of_reply].
    + destruct (for_of_copyEntry_refines (copied_tree sys stack) (copyRecursive sys stack) IH
                  src dest entries (mkState (world s) (trace s ++ [EvReaddir src])))
        as [evs [o [w' [He Hr]]]].
      cbn [world trace] in He, Hr.
      exists (EvReaddir src :: evs), o, w'.
      split; [exists evs; auto|].
      rewrite Hr, <- app_assoc. reflexivity.
    + exists [EvReaddir src], (Throw e), (world s). split; [auto | reflexivity].
Qed.

(** What the specification's copy makes is under the destination, and bears
    no version-control name at any depth. *)
Lemma copied_path_trans (dest n p : string) :
  listed_name sys n -> ~ In n version_control_names ->
  copied_path sys (sys_join W sys [dest; n]) p -> copied_path sys dest p.
Proof.
  intros Hl Hn H. induction H as [m Hlm Hm | d m Hd IH Hlm Hm].
  - apply copied_deeper; [now apply copied_child | exact Hlm | exact Hm].
  - now apply copied_deeper.
Qed.

Lemma copies_into_trans (dest n : string) (e : event) :
  listed_name sys n -> ~ In n version_control_names ->
  copies_into sys (sys_join W sys [dest; n]) e -> copies_into sys dest e.
Proof.
  intros Hl Hn. destruct e; cbn; auto; apply copied_path_trans; assumption.
Qed.

Lemma copied_tree_clean (depth : nat) (src dest : string) (w : W) (evs : list event)
    (o : outcome unit) (w' : W) :
  copied_tree sys depth src dest w evs o w' -> Forall (copies_into sys dest) evs.
Proof.
  revert src dest w evs o w'.
  induction depth as [|depth IH]; intros src dest w evs o w'; cbn [copied_tree].
  - intros [-> _]. constructor.
  - destruct (sys_readdir W sys src w) as [entries|e] eqn:Hls.
    2:{ intros [-> _]. repeat constructor. }
    intros [rest [-> Hrest]]. constructor; [exact I|].
    assert (Hall : forall entry, In entry entries -> listed_name sys (d_name entry)).
    { intros entry Hin. exists src, w, entries, entry. auto. }
    clear Hls. revert Hall.
    assert (Hdir : forall entry srcPath v l r v',
               listed_name sys (d_name entry) ->
               ~ In (d_name entry) version_control_names ->
               copied_directory sys (copied_tree sys depth) srcPath
                 (sys_join W sys [dest; d_name entry]) v l r v' ->
               Forall (copies_into sys dest) l).
    { intros entry srcPath v l r v' Hl Hn Hd.
      destruct Hd as [v v1 e Hmk | v v1 v' l r Hmk Ht].
      - apply Forall_cons; [now apply copied_child | apply Forall_nil].
      - constructor; [now apply copied_child|].
        eapply Forall_impl; [|eapply IH; exact Ht].
        intros e. now apply copies_into_trans. }
    induction Hrest as [v | entry more v v1 v' evs1 evs2 r He Hmore IHmore
                       | entry more v v' l r He Hr]; intros Hall.
    + constructor.
    + apply Forall_app. split.
      * assert (Hl : listed_name sys (d_name entry)) by (apply Hall; now left).
        inversion He; subst;
          repeat (apply Forall_cons; [first [exact I | now apply copied_child]|]);
          try apply Forall_nil; eapply Hdir; eassumption.
      * apply IHmore. intros e Hin. apply Hall. now right.
    + assert (Hl : listed_name sys (d_name entry)) by (apply Hall; now left).
      inversion He; subst;
        repeat (apply Forall_cons; [first [exact I | now apply copied_child]|]);
        try apply Forall_nil; eapply Hdir; eassumption.
Qed.

Section Entry_deterministic.

Variable tree : string -> string -> W -> list event -> outcome unit -> W -> Prop.

Hypothesis tree_deterministic : forall src dest w evs o w' evs2 o2 w2,
  tree src dest w evs o w' -> tree src dest w evs2 o2 w2 ->
  evs2 = evs /\ o2 = o /\ w2 = w'.

Lemma copied_directory_deterministic srcPath destPath w evs o w' evs2 o2 w2 :
  copied_directory sys tree srcPath destPath w evs o w' ->
  copied_directory sys tree srcPath destPath w evs2 o2 w2 ->
  evs2 = evs /\ o2 = o /\ w2 = w'.
Proof.
  intros H H2.
  destruct H as [w w1 e Hmk | w w1 w' evs o Hmk Ht];
    inversion H2 as [v v1 e2 Hmk2 | v v1 v' l r Hmk2 Ht2]; subst;
    rewrite Hmk in Hmk2; inversion Hmk2; subst.
  - repeat split; reflexivity.
  - destruct (tree_deterministic _ _ _ _ _ _ _ _ _ Ht Ht2) as [-> [-> ->]].
    repeat split; reflexivity.
Qed.

Lemma copied_entry_deterministic src dest entry w evs o w' evs2 o2 w2 :
  copied_entry sys tree src dest entry w evs o w' ->
  copied_entry sys tree src dest entry w evs2 o2 w2 ->
  evs2 = evs /\ o2 = o /\ w2 = w'.
Proof.
  intros H H2.
  destruct H; inversion H2; subst; try contradiction; try congruence;
    try (repeat split; reflexivity);
    try match goal with
        | Ha : sys_copyFile W sys ?a ?b ?w = _, Hb : sys_copyFile W sys ?a ?b ?w = _ |- _ =>
            rewrite Ha in Hb; inversion Hb; subst; repeat split; reflexivity
        | Ha : copied_directory _ _ _ _ _ _ _ _, Hb : copied_directory _ _ _ _ _ _ _ _ |- _ =>
            destruct (copied_directory_deterministic _ _ _ _ _ _ _ _ _ Ha Hb) as [-> [-> ->]];
            repeat split; reflexivity
        end.
Qed.

Lemma copied_entries_deterministic src dest entries w evs o w' evs2 o2 w2 :
  copied_entries sys tree src dest entries w evs o w' ->
  copied_entries sys tree src dest entries w evs2 o2 w2 ->
  evs2 = evs /\ o2 = o /\ w2 = w'.
Proof.
  intros H. revert evs2 o2 w2.
  induction H as [w | entry rest w w1 w' evs1 evs2' o He Hrest IH | entry rest w w' evs o He Ho];
    intros evs2 o2 w2 H2; inversion H2; subst.
  - repeat split; reflexivity.
  - match goal with
    | Hb : copied_entry _ _ _ _ entry w _ _ _ |- _ =>
        destruct (copied_entry_deterministic _ _ _ _ _ _ _ _ _ _ He Hb) as [-> [_ ->]]
    end.
    match goal with
    | Hb : copied_entries _ _ _ _ rest _ _ _ _ |- _ =>
        destruct (IH _ _ _ Hb) as [-> [-> ->]]
    end.
    repeat split; reflexivity.
  - match goal with
    | Hb : copied_entry _ _ _ _ entry w _ _ _ |- _ =>
        destruct (copied_entry_deterministic _ _ _ _ _ _ _ _ _ _ He Hb) as [_ [Ho2 _]]
    end.
    congruence.
  - match goal with
    | Hb : copied_entry _ _ _ _ entry w _ _ _ |- _ =>
        destruct (copied_entry_deterministic _ _ _ _ _ _ _ _ _ _ He Hb) as [_ [Ho2 _]]
    end.
    congruence.
  - match goal with
    | Hb : copied_entry _ _ _ _ entry w _ _ _ |- _ =>
        destruct (copied_entry_deterministic _ _ _ _ _ _ _ _ _ _ He Hb) as [-> [-> ->]]
    end.
    repeat split; reflexivity.
Qed.

End Entry_deterministic.

(** The specification's copy of a tree is a function of the world. *)
Lemma copied_tree_deterministic (depth : nat) src dest w evs o w' evs2 o2 w2 :
  copied_tree sys depth src dest w evs o w' ->
  copied_tree sys depth src dest w evs2 o2 w2 ->
  evs2 = evs /\ o2 = o /\ w2 = w'.
Proof.
  revert src dest w evs o w' evs2 o2 w2.
  induction depth as [|depth IH]; intros src dest w evs o w' evs2 o2 w2; cbn [copied_tree].
  - intros [-> [-> ->]] [-> [-> ->]]. repeat split; reflexivity.
  - destruct (sys_readdir W sys src w) as [entries|e].
    + intros [rest [-> H]] [rest2 [-> H2]].
      destruct (copied_entries_deterministic (copied_tree sys depth) IH _ _ _ _ _ _ _ _ _ _ H H2)
        as [-> [-> ->]].
      repeat split; reflexivity.
    + intros [-> [-> ->]] [-> [-> ->]]. repeat split; reflexivity.
Qed.

(** C7: the recursive copy does what the specification says of the copy of
    a tree: it lists the source and goes through the entries in order; an
    entry named [.git], [.gitignore] or [.gitattributes] is passed over, at
    every depth; a file is copied; a directory is made and filled; a link to
    a file is copied as the file it leads to; a link to a directory becomes
    a directory, filled by copying what the link leads to; a broken link, or
    one that cannot be examined or followed, is passed over; and that copy
    is a function of the world.  So the copy only lists and examines, and
    makes directories and files at paths under the destination whose names
    are names of directory entries, none of them [.git], [.gitignore] or
    [.gitattributes]; it makes no link. *)
Theorem copyRecursive_excludes_git (stack : nat) (src dest : string) (s : state W) :
  exists (evs : list event) (o : outcome unit) (w' : W),
    copied_tree sys stack src dest (world s) evs o w' /\
    (forall evs2 o2 w2,
       copied_tree sys stack src dest (world s) evs2 o2 w2 ->
       evs2 = evs /\ o2 = o /\ w2 = w') /\
    copyRecursive sys stack src dest s = (o, mkState w' (trace s ++ evs)) /\
    Forall (copies_into sys dest) evs.
Proof.
  destruct (copyRecursive_refines stack src dest s) as [evs [o [w' [Ht Hr]]]].
  exists evs, o, w'. split; [exact Ht|].
  split; [intros evs2 o2 w2 H2; exact (copied_tree_deterministic _ _ _ _ _ _ _ _ _ _ Ht H2)|].
  split; [exact Hr|].
  eapply copied_tree_clean; exact Ht.
Qed.

End Copy_refines.

(** ** The publish pipeline *)

Section Pipeline.

Context {W : Type} (sys : Sys W).

Lemma bind_assoc {A B C} (m : M W A) (f : A -> M W B) (g : B -> M W C) (s : state W) :
  bind (bind m f) g s = bind m (fun a => bind (f a) g) s.
Proof.
  rewrite !bind_run. destruct (m s) as [[a|e|c] s1]; reflexivity.
Qed.

(** With a valid repository name and URL, the publish is its stages in
    sequence. *)
Lemma upload_stages (skills : list skill) (repoUrl repoName : string)
    (options : UploadOptions) (s : state W) :
  isValidRepoName repoName = true -> isValidGitUrl repoUrl = true ->
  uploadToRepository sys skills repoUrl repoName options s
  = bind (prepared sys repoUrl repoName) (fun _ =>
    bind (for_of skills (pass sys options repoName)) (fun _ =>
    publishStaged sys options (mirrorDir sys repoName) skills)) s.
Proof.
  intros Hn Hu. unfold uploadToRepository, prepared. rewrite Hn, Hu. cbn [negb].
  rewrite bind_assoc. reflexivity.
Qed.

(** The run from the pass of one skill on, the passes before it done. *)
Lemma upload_from_pass (pre post : list skill) (sk : skill) (repoUrl repoName : string)
    (options : UploadOptions) (s s0 s1 : state W) :
  isValidRepoName repoName = true -> isValidGitUrl repoUrl = true ->
  prepared sys repoUrl repoName s = (Ret tt, s0) ->
  for_of pre (pass sys options repoName) s0 = (Ret tt, s1) ->
  uploadToRepository sys (pre ++ sk :: post) repoUrl repoName options s
  = match pass sys options repoName sk s1 with
    | (Ret _, s2) =>
        bind (for_of post (pass sys options repoName)) (fun _ =>
          publishStaged sys options (mirrorDir sys repoName) (pre ++ sk :: post)) s2
    | (Throw e, s2) => (Throw e, s2)
    | (Exit c, s2) => (Exit c, s2)
    end.
Proof.
  intros Hn Hu Hprep Hpre. rewrite upload_stages by assumption.
  rewrite (bind_of_Ret _ _ _ _ _ Hprep). rewrite bind_run.
  rewrite (for_of_stops _ _ _ _ _ _ Hpre).
  destruct (pass sys options repoName sk s1) as [[[]|e|c] s2]; reflexivity.
Qed.

(** The pass of a skill whose target is there, asked about and declined or
    interrupted. *)
Lemma pass_asked (options : UploadOptions) (repoName : string) (sk : skill) (s : state W) :
  isValidSkillName (name sk) = true ->
  sys_exists W sys (targetOf sys repoName sk) (world s) = true ->
  yes options = false ->
  let asked := (trace s ++ [EvExists (targetOf sys repoName sk) true;
                            EvConfirm (overwrite_question sk)])%list in
  (forall w2, sys_confirm W sys (overwrite_question sk) (world s) = (Done false, w2) ->
     pass sys options repoName sk s
     = (Ret tt, mkState w2 (asked ++ [EvLog ("Skipped: " ++ name sk)]))) /\
  (forall e w2, sys_confirm W sys (overwrite_question sk) (world s) = (Raised e, w2) ->
     is_ExitPromptError e = true ->
     pass sys options repoName sk s
     = (Exit 0, mkState w2 (asked ++ [EvLog (nl ++ "Cancelled by user")]))).
Proof.
  intros Hv Hex Hyes. cbn zeta.
  unfold pass, processSkill. rewrite Hv. cbn [negb].
  unfold confirmOverwrite, bind, existsSync, try_catch, confirm, call, console_log, emit,
    process_exit, ret.
  fold (skillsDirOf sys repoName). fold (targetOf sys repoName sk).
  cbn [world trace]. rewrite Hex, Hyes. cbn [negb andb].
  unfold overwrite_question.
  split.
  - intros w2 Hc. cbn in Hc |- *. rewrite Hc. cbn. rewrite <- !app_assoc. reflexivity.
  - intros e w2 Hc He. cbn in Hc |- *. rewrite Hc. cbn. rewrite He. cbn.
    rewrite <- !app_assoc. reflexivity.
Qed.

(** C8: the run having reached the pass of a skill whose target holds
    content, confirmations not skipped: a declined overwrite adds only the
    question and the line [Skipped], and the run goes on with the passes of
    the remaining skills; an interrupted prompt ends the whole publish there
    (exit status 0), the world being as the earlier passes and the prompt
    left it. *)
Theorem overwrite_prompt_outcomes (pre post : list skill) (sk : skill)
    (repoUrl repoName : string) (options : UploadOptions) (s s0 s1 : state W) :
  isValidRepoName repoName = true -> isValidGitUrl repoUrl = true ->
  prepared sys repoUrl repoName s = (Ret tt, s0) ->
  for_of pre (pass sys options repoName) s0 = (Ret tt, s1) ->
  isValidSkillName (name sk) = true ->
  sys_exists W sys (targetOf sys repoName sk) (world s1) = true ->
  yes options = false ->
  let asked := (trace s1 ++ [EvExists (targetOf sys repoName sk) true;
                             EvConfirm (overwrite_question sk)])%list in
  (forall w2, sys_confirm W sys (overwrite_question sk) (world s1) = (Done false, w2) ->
     uploadToRepository sys (pre ++ sk :: post) repoUrl repoName options s
     = bind (for_of post (pass sys options repoName)) (fun _ =>
         publishStaged sys options (mirrorDir sys repoName) (pre ++ sk :: post))
         (mkState w2 (asked ++ [EvLog ("Skipped: " ++ name sk)]))) /\
  (forall e w2, sys_confirm W sys (overwrite_question sk) (world s1) = (Raised e, w2) ->
     is_ExitPromptError e = true ->
     uploadToRepository sys (pre ++ sk :: post) repoUrl repoName options s
     = (Exit 0, mkState w2 (asked ++ [EvLog (nl ++ "Cancelled by user")]))).
Proof.
  intros Hn Hu Hprep Hpre Hv Hex Hyes. cbn zeta.
  destruct (pass_asked options repoName sk s1 Hv Hex Hyes) as [Hdecl Hint].
  split.
  - intros w2 Hc. rewrite (upload_from_pass _ _ _ _ _ _ _ _ _ Hn Hu Hprep Hpre).
    now rewrite (Hdecl w2 Hc).
  - intros e w2 Hc He. rewrite (upload_from_pass _ _ _ _ _ _ _ _ _ Hn Hu Hprep Hpre).
    now rewrite (Hint e w2 Hc He).
Qed.

(** *** The pass of a skill that is copied *)

Lemma exits_only_existsSync c0 p : exits_only c0 (existsSync sys p).
Proof. intros s c s' H. discriminate H. Qed.

Lemma exits_only_sleep c0 ms : exits_only c0 (sleep sys ms).
Proof. intros s c s' H. discriminate H. Qed.

Ltac walk :=
  repeat first
    [ apply exits_only_existsSync | apply exits_only_sleep | progress walk_exits ].

Lemma exits_only_removeGitDirectory c0 gitPath skillName context :
  exits_only c0 (removeGitDirectory sys gitPath skillName context).
Proof.
  intros s c s' H.
  destruct (removeGitDirectory_answers sys gitPath skillName context s) as [r [s1 [Hr _]]].
  congruence.
Qed.

Lemma exits_only_cleanupSubmodule c0 localRepoDir skillName :
  exits_only c0 (cleanupSubmodule sys localRepoDir skillName).
Proof.
  unfold cleanupSubmodule, console_log, rmSync, readFileSync, writeFileSync, execSync,
    readdirSync.
  walk.
Qed.

Lemma exits_only_copyRecursive c0 stack src dest :
  exits_only c0 (copyRecursive sys stack src dest).
Proof.
  revert src dest. induction stack as [|stack IH]; intros src dest; cbn [copyRecursive].
  - apply exits_only_throw.
  - unfold readdirSync. apply exits_only_bind; [apply exits_only_query|].
    intros entries. apply exits_only_for_of. intros entry.
    unfold copyEntry, mkdirSync, copyFileSync, statSync. walk; apply IH.
Qed.

Lemma exits_only_removeExisting c0 localRepoDir targetSkillDir sk :
  exits_only c0 (removeExisting sys localRepoDir targetSkillDir sk).
Proof.
  unfold removeExisting, noteUnlessUnmatched, console_log, rmSync, execSync.
  walk.
Qed.

Lemma exits_only_commitSubmoduleRemoval c0 localRepoDir :
  exits_only c0 (commitSubmoduleRemoval sys localRepoDir).
Proof.
  unfold commitSubmoduleRemoval, console_log, execSync. walk.
Qed.

(** The checks after the copy: they pass and the target is clean, or the
    process exits with status 1, the failure reported. *)
Lemma verifyCopied_run (targetSkillDir : string) (sk : skill) (s : state W) :
  (exists s', verifyCopied sys targetSkillDir sk s = (Ret tt, s')
              /\ target_clean sys targetSkillDir (world s')) \/
  (exists s' report,
      verifyCopied sys targetSkillDir sk s = (Exit 1, s') /\
      (report = EvSpinner SpinFail ("CRITICAL: Failed to remove .git directory from " ++ name sk)
       \/ report = EvError ("Error: SKILL.md was not copied to " ++ targetSkillDir)) /\
      exists evs, trace s' = (trace s ++ evs ++ [report])%list).
Proof.
  unfold verifyCopied, ensureGitDirectoryRemoved.
  destruct (removeGitDirectory_run sys (join sys [targetSkillDir; ".git"]) (name sk) "target" s)
    as [Habsent Hthere].
  assert (Hans : exists removed s1 evs,
             removeGitDirectory sys (join sys [targetSkillDir; ".git"]) (name sk) "target" s
             = (Ret removed, s1)
             /\ trace s1 = (trace s ++ evs)%list
             /\ (removed = true ->
                 sys_exists W sys (join sys [targetSkillDir; ".git"]) (world s1) = false)).
  { destruct (sys_exists W sys (join sys [targetSkillDir; ".git"]) (world s)) eqn:Hex.
    - destruct (Hthere eq_refl) as [r [s1 [atts [rep [Hrun [Htr [_ [Hok _]]]]]]]].
      exists r, s1. eexists. split; [exact Hrun|]. split; [exact Htr|].
      intros Hr. now apply Hok.
    - exists true. eexists. eexists. split; [apply Habsent; reflexivity|].
      split; [reflexivity | intros _; exact Hex]. }
  destruct Hans as [removed [s1 [evs [Hrun [Htr Hgone]]]]].
  rewrite (bind_of_Ret _ _ _ _ _ Hrun).
  unfold bind, existsSync, when, spinner, console_error, emit, process_exit, ret.
  cbn [world trace].
  destruct removed; cbn [negb].
  - destruct (sys_exists W sys (join sys [targetSkillDir; "SKILL.md"]) (world s1)) eqn:Hmd;
      cbn [negb].
    + left. eexists. split; [reflexivity|]. split; [now apply Hgone | exact Hmd].
    + right. eexists. eexists. split; [reflexivity|]. split; [right; reflexivity|].
      cbn [trace]. rewrite Htr.
      exists (evs ++ [EvExists (join sys [targetSkillDir; "SKILL.md"]) false;
                      EvSpinner SpinFail ("Failed to copy " ++ name sk
                                          ++ ": SKILL.md not found")])%list.
      rewrite <- !app_assoc. reflexivity.
  - right. eexists. eexists.
    split; [reflexivity|]. split; [left; reflexivity|].
    cbn [trace]. rewrite Htr. exists evs. rewrite <- app_assoc. reflexivity.
Qed.

Lemma exits_only_verifyCopied targetSkillDir sk :
  exits_only 1 (verifyCopied sys targetSkillDir sk).
Proof.
  intros s c s' H.
  destruct (verifyCopied_run targetSkillDir sk s)
    as [[s1 [Hr _]] | [s1 [rep [Hr _]]]]; congruence.
Qed.

(** The copy of a skill: it returns and the target is clean, or the process
    exits with status 1; it never raises. *)
Lemma copySkill_run (localRepoDir targetSkillDir : string) (sk : skill) (s : state W) :
  (exists s', copySkill sys localRepoDir targetSkillDir sk s = (Ret tt, s')
              /\ target_clean sys targetSkillDir (world s')) \/
  (exists s', copySkill sys localRepoDir targetSkillDir sk s = (Exit 1, s')).
Proof.
  assert (Hexit : exits_only 1 (copySkill sys localRepoDir targetSkillDir sk)).
  { unfold copySkill.
    apply exits_only_bind; [apply exits_only_emit|]. intros _.
    apply exits_only_try_catch.
    - apply exits_only_bind; [apply exits_only_removeExisting|]. intros [isSub isReg].
      apply exits_only_bind;
        [apply exits_only_when, exits_only_commitSubmoduleRemoval|]. intros _.
      apply exits_only_bind; [apply exits_only_call|]. intros _.
      apply exits_only_bind; [apply exits_only_copyRecursive|]. intros _.
      apply exits_only_bind; [apply exits_only_verifyCopied|]. intros _.
      apply exits_only_emit.
    - intros e. unfold spinner, console_error. walk_exits. }
  destruct (copySkill sys localRepoDir targetSkillDir sk s) as [[[]|e|c] s'] eqn:Hrun.
  - left. exists s'. split; [reflexivity|].
    unfold copySkill in Hrun.
    apply bind_Ret_inv in Hrun. destruct Hrun as [[] [s0 [_ Hrun]]].
    apply try_catch_Ret_inv in Hrun. destruct Hrun as [Hin | [e [s1 [_ Hh]]]].
    + apply bind_Ret_inv in Hin. destruct Hin as [[isSub isReg] [sa [_ Hin]]].
      apply bind_Ret_inv in Hin. destruct Hin as [[] [sb [_ Hin]]].
      apply bind_Ret_inv in Hin. destruct Hin as [[] [sc [_ Hin]]].
      apply bind_Ret_inv in Hin. destruct Hin as [[] [sd [_ Hin]]].
      apply bind_Ret_inv in Hin. destruct Hin as [[] [se [Hver Hin]]].
      destruct (verifyCopied_run targetSkillDir sk sd)
        as [[s2 [Hr Hclean]] | [s2 [rep [Hr _]]]]; [|congruence].
      assert (s2 = se) by congruence. subst s2.
      unfold spinner, emit in Hin. injection Hin as <-. exact Hclean.
    + cbv beta iota zeta delta [bind spinner console_error emit process_exit] in Hh.
      discriminate Hh.
  - exfalso. unfold copySkill in Hrun. rewrite bind_run in Hrun.
    unfold spinner at 1, emit in Hrun. unfold try_catch in Hrun.
    match type of Hrun with
    | context [match ?m ?st with _ => _ end] => destruct (m st) as [[[]|e'|c'] s1]
    end; discriminate Hrun.
  - right. rewrite (Hexit _ _ _ Hrun). exists s'. reflexivity.
Qed.

(** A pass that returns either declined the overwrite or left the target
    clean; and the name of its skill is valid. *)
Lemma pass_returns (options : UploadOptions) (repoName : string) (sk : skill)
    (s1 s2 : state W) :
  pass sys options repoName sk s1 = (Ret tt, s2) ->
  isValidSkillName (name sk) = true /\
  (confirmOverwrite sys options sk (targetOf sys repoName sk) s1 = (Ret false, s2)
   \/ target_clean sys (targetOf sys repoName sk) (world s2)).
Proof.
  unfold pass, processSkill.
  destruct (isValidSkillName (name sk)); cbn [negb]; [|discriminate].
  fold (skillsDirOf sys repoName). fold (targetOf sys repoName sk).
  intros H. split; [reflexivity|].
  apply bind_Ret_inv in H. destruct H as [proceed [sa [Hc H]]].
  destruct proceed.
  - right.
    destruct (copySkill_run (mirrorDir sys repoName) (targetOf sys repoName sk) sk sa)
      as [[s' [Hr Hclean]] | [s' Hr]]; [|congruence].
    assert (s' = s2) by congruence. now subst.
  - left. injection H as <-. exact Hc.
Qed.

(** What a publish that returns went through. *)
Lemma upload_returns (skills : list skill) (repoUrl repoName : string)
    (options : UploadOptions) (s s' : state W) :
  uploadToRepository sys skills repoUrl repoName options s = (Ret tt, s') ->
  Forall (fun sk => isValidSkillName (name sk) = true) skills /\
  Forall (fun sk =>
            exists s1 s2,
              pass sys options repoName sk s1 = (Ret tt, s2) /\
              (confirmOverwrite sys options sk (targetOf sys repoName sk) s1 = (Ret false, s2)
               \/ target_clean sys (targetOf sys repoName sk) (world s2)))
         skills.
Proof.
  intros H.
  destruct (isValidRepoName repoName) eqn:Hn;
    [|unfold uploadToRepository in H; rewrite Hn in H; discriminate H].
  destruct (isValidGitUrl repoUrl) eqn:Hu;
    [|unfold uploadToRepository in H; rewrite Hn, Hu in H; discriminate H].
  rewrite upload_stages in H by assumption.
  apply bind_Ret_inv in H. destruct H as [[] [s0 [_ H]]].
  apply bind_Ret_inv in H. destruct H as [[] [s1 [Hloop _]]].
  split.
  - eapply Forall_impl;
      [|eapply (for_of_Ret_inv _ _ _ _
                  (fun sk _ _ => isValidSkillName (name sk) = true)); [|exact Hloop]].
    + intros sk [sa [sb [_ Hv]]]. exact Hv.
    + intros sk sa sb Hpass. now apply pass_returns in Hpass.
  - eapply for_of_Ret_inv; [|exact Hloop].
    intros sk sa sb Hpass. now apply pass_returns in Hpass.
Qed.

(** A publish that returns is the preparation, the passes one after the
    other, each declined or leaving its target clean, and what follows the
    loop. *)
Lemma upload_returns_through (skills : list skill) (repoUrl repoName : string)
    (options : UploadOptions) (s s' : state W) :
  uploadToRepository sys skills repoUrl repoName options s = (Ret tt, s') ->
  exists s0 s1,
    prepared sys repoUrl repoName s = (Ret tt, s0) /\
    passes (pass sys options repoName)
      (fun sk a b =>
         confirmOverwrite sys options sk (targetOf sys repoName sk) a = (Ret false, b)
         \/ target_clean sys (targetOf sys repoName sk) (world b))
      skills s0 s1 /\
    publishStaged sys options (mirrorDir sys repoName) skills s1 = (Ret tt, s').
Proof.
  intros H.
  destruct (isValidRepoName repoName) eqn:Hn;
    [|unfold uploadToRepository in H; rewrite Hn in H; discriminate H].
  destruct (isValidGitUrl repoUrl) eqn:Hu;
    [|unfold uploadToRepository in H; rewrite Hn, Hu in H; discriminate H].
  rewrite upload_stages in H by assumption.
  apply bind_Ret_inv in H. destruct H as [[] [s0 [Hprep H]]].
  apply bind_Ret_inv in H. destruct H as [[] [s1 [Hloop Hrest]]].
  exists s0, s1. split; [exact Hprep|]. split; [|exact Hrest].
  eapply for_of_Ret_passes; [|exact Hloop].
  intros sk a b Hpass. now apply pass_returns in Hpass.
Qed.

(** C3, amended: an invalid repository name or URL ends the publish with a
    reported error and status 1 before anything else happens; an invalid
    skill name ends it the same way when the loop reaches that skill, after
    the mirror was cloned or updated and the skills before it were copied,
    nothing being staged, committed or pushed; and a publish given an
    invalid skill name never returns. *)
Theorem validation_aborts (skills : list skill) (repoUrl repoName : string)
    (options : UploadOptions) (s : state W) :
  (isValidRepoName repoName = false ->
   uploadToRepository sys skills repoUrl repoName options s
   = (Exit 1, mkState (world s)
        (trace s ++ [EvError ("Error: Invalid repository name '" ++ repoName
            ++ "'. Repository names can only contain letters, numbers, dots, hyphens, and underscores, and cannot contain path traversal characters.")]))) /\
  (isValidRepoName repoName = true -> isValidGitUrl repoUrl = false ->
   uploadToRepository sys skills repoUrl repoName options s
   = (Exit 1, mkState (world s)
        (trace s ++ [EvError ("Error: Invalid Git URL '" ++ repoUrl
            ++ "'. URL must start with http://, https://, git://, or git@, and cannot contain command injection characters.")]))) /\
  (forall pre sk post s0 s1,
     skills = (pre ++ sk :: post)%list ->
     isValidRepoName repoName = true -> isValidGitUrl repoUrl = true ->
     prepared sys repoUrl repoName s = (Ret tt, s0) ->
     for_of pre (pass sys options repoName) s0 = (Ret tt, s1) ->
     isValidSkillName (name sk) = false ->
     uploadToRepository sys skills repoUrl repoName options s
     = (Exit 1, mkState (world s1)
          (trace s1 ++ [EvError ("Error: Invalid skill name '" ++ name sk
              ++ "'. Skill names can only contain letters, numbers, dots, hyphens, and underscores.")]))) /\
  (forall sk s',
     In sk skills -> isValidSkillName (name sk) = false ->
     uploadToRepository sys skills repoUrl repoName options s <> (Ret tt, s')).
Proof.
  repeat split.
  - intros Hn. unfold uploadToRepository. now rewrite Hn.
  - intros Hn Hu. unfold uploadToRepository. now rewrite Hn, Hu.
  - intros pre sk post s0 s1 -> Hn Hu Hprep Hpre Hv.
    rewrite (upload_from_pass _ _ _ _ _ _ _ _ _ Hn Hu Hprep Hpre).
    unfold pass, processSkill. now rewrite Hv.
  - intros sk s' Hin Hv H.
    destruct (upload_returns skills repoUrl repoName options s s' H) as [Hall _].
    rewrite Forall_forall in Hall. specialize (Hall sk Hin). congruence.
Qed.

End Pipeline.

Section Checks.

Context {W : Type} (sys : Sys W).

(** The checks after the copy, step by step: the removal of a [.git] at
    the target, then the look for [SKILL.md]. *)
Lemma verifyCopied_steps (targetSkillDir : string) (sk : skill) (t : state W) :
  exists (removed : bool) (t1 : state W),
    removeGitDirectory sys (join sys [targetSkillDir; ".git"]) (name sk) "target" t
    = (Ret removed, t1) /\
    (removed = true ->
     sys_exists W sys (join sys [targetSkillDir; ".git"]) (world t1) = false) /\
    verifyCopied sys targetSkillDir sk t
    = if removed then
        if sys_exists W sys (join sys [targetSkillDir; "SKILL.md"]) (world t1)
        then (Ret tt,
              mkState (world t1)
                (trace t1 ++ [EvExists (join sys [targetSkillDir; "SKILL.md"]) true]))
        else (Exit 1,
              mkState (world t1)
                (trace t1
                 ++ [EvExists (join sys [targetSkillDir; "SKILL.md"]) false;
                     EvSpinner SpinFail ("Failed to copy " ++ name sk ++ ": SKILL.md not found");
                     EvError ("Error: SKILL.md was not copied to " ++ targetSkillDir)]))
      else (Exit 1,
            mkState (world t1)
              (trace t1
               ++ [EvSpinner SpinFail
                     ("CRITICAL: Failed to remove .git directory from " ++ name sk)])).
Proof.
  destruct (removeGitDirectory_answers sys (join sys [targetSkillDir; ".git"]) (name sk)
              "target" t) as [removed [t1 [Hrun Hgone]]].
  exists removed, t1. split; [exact Hrun|]. split; [exact Hgone|].
  unfold verifyCopied, ensureGitDirectoryRemoved.
  rewrite (bind_of_Ret _ _ _ _ _ Hrun).
  unfold bind, existsSync, when, spinner, console_error, emit, process_exit, ret.
  cbn [world trace].
  destruct removed; cbn [negb]; [|reflexivity].
  destruct (sys_exists W sys (join sys [targetSkillDir; "SKILL.md"]) (world t1));
    cbn [negb world trace]; [reflexivity|].
  rewrite <- !app_assoc. reflexivity.
Qed.

(** C2, amended: after the copy, a [.git] at the target is removed by the
    polling removal, and then [SKILL.md] is looked for at the target; if
    the removal fails, or if [SKILL.md] is not there, the process ends with
    status 1 after the report, and otherwise the checks return, the target
    then holding [SKILL.md] and no [.git]; a [.git] that was found and
    removed does not end anything.  A skill that is copied is either
    verified, the run going on with the next skill, or the whole publish
    exits 1 right there.  And a publish that returns went through the passes
    of all its skills, each pass either declining the overwrite or leaving
    its target, when the pass ended, with [SKILL.md] present and no
    [.git]. *)
Theorem post_copy_checks_are_fatal (skills : list skill) (repoUrl repoName : string)
    (options : UploadOptions) (s : state W) :
  (forall targetSkillDir sk t,
     exists (removed : bool) (t1 : state W),
       removeGitDirectory sys (join sys [targetSkillDir; ".git"]) (name sk) "target" t
       = (Ret removed, t1) /\
       (removed = true ->
        sys_exists W sys (join sys [targetSkillDir; ".git"]) (world t1) = false) /\
       verifyCopied sys targetSkillDir sk t
       = if removed then
           if sys_exists W sys (join sys [targetSkillDir; "SKILL.md"]) (world t1)
           then (Ret tt,
                 mkState (world t1)
                   (trace t1 ++ [EvExists (join sys [targetSkillDir; "SKILL.md"]) true]))
           else (Exit 1,
                 mkState (world t1)
                   (trace t1
                    ++ [EvExists (join sys [targetSkillDir; "SKILL.md"]) false;
                        EvSpinner SpinFail
                          ("Failed to copy " ++ name sk ++ ": SKILL.md not found");
                        EvError ("Error: SKILL.md was not copied to " ++ targetSkillDir)]))
         else (Exit 1,
               mkState (world t1)
                 (trace t1
                  ++ [EvSpinner SpinFail
                        ("CRITICAL: Failed to remove .git directory from " ++ name sk)]))) /\
  (forall pre sk post s0 s1 s2,
     skills = (pre ++ sk :: post)%list ->
     isValidRepoName repoName = true -> isValidGitUrl repoUrl = true ->
     prepared sys repoUrl repoName s = (Ret tt, s0) ->
     for_of pre (pass sys options repoName) s0 = (Ret tt, s1) ->
     isValidSkillName (name sk) = true ->
     confirmOverwrite sys options sk (targetOf sys repoName sk) s1 = (Ret true, s2) ->
     (exists s3,
         copySkill sys (mirrorDir sys repoName) (targetOf sys repoName sk) sk s2 = (Ret tt, s3)
         /\ target_clean sys (targetOf sys repoName sk) (world s3)
         /\ uploadToRepository sys skills repoUrl repoName options s
            = bind (for_of post (pass sys options repoName)) (fun _ =>
                publishStaged sys options (mirrorDir sys repoName) skills) s3) \/
     (exists s3,
         copySkill sys (mirrorDir sys repoName) (targetOf sys repoName sk) sk s2 = (Exit 1, s3)
         /\ uploadToRepository sys skills repoUrl repoName options s = (Exit 1, s3))) /\
  (forall s',
     uploadToRepository sys skills repoUrl repoName options s = (Ret tt, s') ->
     exists s0 s1,
       prepared sys repoUrl repoName s = (Ret tt, s0) /\
       passes (pass sys options repoName)
         (fun sk a b =>
            confirmOverwrite sys options sk (targetOf sys repoName sk) a = (Ret false, b)
            \/ target_clean sys (targetOf sys repoName sk) (world b))
         skills s0 s1 /\
       publishStaged sys options (mirrorDir sys repoName) skills s1 = (Ret tt, s')).
Proof.
  split; [intros; apply verifyCopied_steps|]. split.
  - intros pre sk post s0 s1 s2 -> Hn Hu Hprep Hpre Hv Hc.
    rewrite (upload_from_pass _ _ _ _ _ _ _ _ _ _ Hn Hu Hprep Hpre).
    assert (Hpass : pass sys options repoName sk s1
                    = copySkill sys (mirrorDir sys repoName) (targetOf sys repoName sk) sk s2).
    { unfold pass, processSkill. rewrite Hv. cbn [negb].
      fold (skillsDirOf sys repoName). fold (targetOf sys repoName sk).
      now rewrite (bind_of_Ret _ _ _ _ _ Hc). }
    rewrite Hpass.
    destruct (copySkill_run sys (mirrorDir sys repoName) (targetOf sys repoName sk) sk s2)
      as [[s3 [Hr Hclean]] | [s3 Hr]]; rewrite Hr.
    + left. exists s3. auto.
    + right. exists s3. auto.
  - intros s' H. now apply upload_returns_through in H.
Qed.

End Checks.

(** ** Nothing to commit *)

Section NoChanges.

Context {W : Type} (sys : Sys W).





End NoChanges.

(** ** The push *)

Section Push.

Context {W : Type} (sys : Sys W).

Lemma sanitizeBranchName_valid (b : string) (s : state W) :
  isValidBranchName b = true -> sanitizeBranchName b s = (Ret b, s).
Proof. intros H. unfold sanitizeBranchName. now rewrite H. Qed.

(** One push, to a candidate with a valid name. *)
Lemma pushAttempt_run (repoDir cur b : string) (s : state W) :
  isValidBranchName b = true ->
  pushAttempt sys repoDir cur b s
  = (Ret (match fst (sys_exec W sys (push_command cur b) (piped_utf8 repoDir) (world s)) with
          | Done _ => PushOk
          | Raised e => if says_branch_missing b e then PushNext e else PushStop e
          end),
     mkState (snd (sys_exec W sys (push_command cur b) (piped_utf8 repoDir) (world s)))
             (trace s ++ [EvExec (push_command cur b) (piped_utf8 repoDir)])).
Proof.
  intros Hb. unfold pushAttempt, try_catch, push_command, says_branch_missing.
  rewrite bind_run, (sanitizeBranchName_valid _ _ Hb).
  destruct (String.eqb b cur); rewrite bind_run; unfold execSync, call;
    destruct (sys_exec W sys _ _ (world s)) as [[out|e] w1]; cbn [of_reply fst snd];
    try reflexivity;
    destruct (isExecError e); cbn [andb]; try reflexivity;
    destruct (includes _ _ || includes _ _); reflexivity.
Qed.

Lemma trimEnd_head (s : string) :
  match s with
  | EmptyString => trimEnd s = EmptyString
  | String c t => is_space c = false -> exists t', trimEnd s = String c t'
  end.
Proof.
  destruct s as [|c t]; [reflexivity|]. intros Hc. cbn [trimEnd].
  destruct (trimEnd t); [rewrite Hc|]; eexists; reflexivity.
Qed.

(** A trimmed text never opens with a line feed, so it is no hint line. *)
Lemma trim_is_no_tip (s : string) : is_tip (EvError (trim s)) = false.
Proof.
  unfold trim, is_tip.
  assert (H : trimStart s = EmptyString \/
              exists c t, trimStart s = String c t /\ is_space c = false).
  { induction s as [|c s IH]; [now left|]. cbn [trimStart].
    destruct (is_space c) eqn:Hc; [exact IH | right; eauto]. }
  destruct H as [-> | [c [t [-> Hc]]]]; [reflexivity|].
  destruct (trimEnd_head (String c t) Hc) as [t' ->].
  change (nl ++ "Tip:") with (String LF "Tip:"). cbn [startsWith].
  destruct (Ascii.eqb LF c) eqn:E; [|reflexivity].
  apply Ascii.eqb_eq in E. subst c. discriminate Hc.
Qed.

End Push.

Section Push_sequence.

Context {W : Type} (sys : Sys W).

Lemma push_sequence_deterministic (repoDir cur : string) (branches : list string)
    (le : option js_error) (w : W) (evs evs' : list event) (r r' : bool)
    (final final' : option js_error) (w' w'' : W) :
  push_sequence sys repoDir cur branches le w evs r final w' ->
  push_sequence sys repoDir cur branches le w evs' r' final' w'' ->
  evs' = evs /\ r' = r /\ final' = final /\ w'' = w'.
Proof.
  intros H. revert evs' r' final' w''.
  induction H as [le w | b rest le w w' out Hex | b rest le w w1 w' e evs r final Hex Hm _ IH
                 | b rest le w w1 e Hex Hm];
    intros evs' r' final' w'' H'; inversion H'; subst;
    try (rewrite Hex in *; congruence);
    try (repeat split; congruence).
  match goal with
  | Hex' : sys_exec W sys _ _ w = (Raised ?e', ?v1) |- _ =>
      rewrite Hex in Hex'; injection Hex' as <- <-
  end.
  match goal with
  | Hs : push_sequence _ _ _ _ _ _ _ _ _ _ |- _ =>
      destruct (IH _ _ _ _ Hs) as [-> [-> [-> ->]]]
  end.
  repeat split; reflexivity.
Qed.

(** The current branch, as the code obtains it, is the one git reports. *)
Lemma getCurrentBranch_run (repoDir : string) (s : state W) :
  getCurrentBranch sys repoDir s
  = (Ret (current_branch sys repoDir (world s)),
     mkState (snd (sys_exec W sys "git rev-parse --abbrev-ref HEAD"
                     (mkExecOptions (Some repoDir) true None) (world s)))
             (trace s ++ current_branch_events sys repoDir (world s))) /\
  isValidBranchName (current_branch sys repoDir (world s)) = true.
Proof.
  unfold getCurrentBranch, try_catch, current_branch, current_branch_events.
  rewrite bind_run. unfold execSync, call, sanitizeBranchName.
  destruct (sys_exec W sys _ _ (world s)) as [[out|e] w1]; cbn [of_reply fst snd].
  - destruct (isValidBranchName (trim out)) eqn:Hb.
    + split; [reflexivity | exact Hb].
    + unfold bind, console_warn, emit, ret. cbn [world trace].
      rewrite <- app_assoc. split; reflexivity.
  - split; reflexivity.
Qed.

(** The loop over the candidates is the sequence of pushes. *)
Lemma pushLoop_run (repoDir cur : string) (branches : list string) :
  Forall (fun b => isValidBranchName b = true) branches ->
  forall (le : option js_error) (t : state W),
  exists (evs : list event) (r : bool) (final : option js_error) (w' : W),
    push_sequence sys repoDir cur branches le (world t) evs r final w' /\
    pushLoop sys repoDir cur branches le t = (Ret (r, final), mkState w' (trace t ++ evs)).
Proof.
  induction 1 as [|b rest Hb _ IH]; intros le t.
  - exists [], false, le, (world t). split; [constructor|]. cbn. rewrite app_nil_r.
    now destruct t.
  - cbn [pushLoop]. rewrite bind_run, (pushAttempt_run _ _ _ _ _ Hb).
    change (piped_utf8 repoDir) with (mkExecOptions (Some repoDir) true None).
    destruct (sys_exec W sys (push_command cur b) (mkExecOptions (Some repoDir) true None)
                (world t)) as [[out|e] w1] eqn:Hex; cbn [fst snd].
    + eexists. exists true, le, w1. split; [eapply sequence_succeeds; eauto | reflexivity].
    + destruct (says_branch_missing b e) eqn:Hmiss.
      * destruct (IH (Some e)
                    (mkState w1 (trace t ++ [EvExec (push_command cur b)
                                               (mkExecOptions (Some repoDir) true None)])))
          as [evs [r [final [w' [Hs Hr]]]]].
        cbn [world trace] in Hs, Hr.
        eexists. exists r, final, w'.
        split; [eapply sequence_advances; eauto|].
        rewrite Hr, <- app_assoc. reflexivity.
      * eexists. exists false, (Some e), w1.
        split; [eapply sequence_stops; eauto | reflexivity].
Qed.

(** The report of a failed push: exit status 1 in the same world, no
    command, and the hint lines in it are the one line of the selected hint,
    if any. *)
Lemma reportPushFailure_report (cur : string) (le : option js_error) (t : state W) :
  exists (evs : list event),
    reportPushFailure cur le t = (Exit 1, mkState (world t) (trace t ++ evs)) /\
    Forall (fun e => is_exec e = false) evs /\
    filter is_tip evs
    = match selected_hint le with Some h => [EvError (tip_line h)] | None => [] end.
Proof.
  unfold reportPushFailure, selected_hint.
  cbv beta iota zeta delta [bind spinner console_error emit process_exit]. cbn [world trace].
  destruct le as [e|]; cbn [world trace].
  2:{ cbv beta iota zeta delta [ret]. rewrite <- !app_assoc. eexists.
      split; [reflexivity|]. split; [repeat constructor | reflexivity]. }
  destruct (isExecError e); cbn [when andb].
  2:{ cbv beta iota zeta delta [ret]. rewrite <- !app_assoc. eexists.
      split; [reflexivity|]. split; [repeat constructor | reflexivity]. }
  destruct (match err_stderr e with Some v => out_truthy v | None => false end); cbn [when].
  - unfold pushHint, hint_of.
    cbv beta iota zeta delta [bind console_error emit ret]. cbn [world trace].
    set (errorMsg := trim (opt_toString (err_stderr e))).
    assert (Hmsg : is_tip (EvError errorMsg) = false) by apply trim_is_no_tip.
    assert (Hout : is_tip (EvError (trim (opt_toString (err_stdout e)))) = false)
      by apply trim_is_no_tip.
    destruct (includes "authentication" errorMsg || includes "permission" errorMsg
              || includes "denied" errorMsg);
      [|destruct (includes "no upstream" errorMsg || includes "no tracking" errorMsg);
        [|destruct (includes "rejected" errorMsg || includes "non-fast-forward" errorMsg)]];
      cbn [world trace]; destruct (has_stdout e); cbn [when world trace];
      cbv beta iota zeta delta [bind console_error emit ret]; cbn [world trace];
      rewrite <- !app_assoc; eexists; (split; [reflexivity|]);
      (split; [repeat constructor|]); cbn [app filter]; rewrite ?Hmsg, ?Hout; reflexivity.
  - cbv beta iota zeta delta [bind ret]. cbn [world trace].
    assert (Hout : is_tip (EvError (trim (opt_toString (err_stdout e)))) = false)
      by apply trim_is_no_tip.
    destruct (has_stdout e); cbn [when world trace];
      cbv beta iota zeta delta [bind console_error emit ret]; cbn [world trace];
      rewrite <- !app_assoc; eexists; (split; [reflexivity|]);
      (split; [repeat constructor|]); cbn [app filter]; rewrite ?Hout; reflexivity.
Qed.

(** The word of success: no command, and the world as it was. *)
Lemma reportPushSuccess_logs (skillNames : list string) :
  logs_only (@reportPushSuccess W skillNames).
Proof.
  unfold reportPushSuccess, spinner, console_log.
  apply logs_only_bind; [apply logs_only_emit; reflexivity|].
  assert (Hfor : forall names : list string,
             logs_only (for_of names (fun n => @emit W (EvLog ("  - " ++ n))))).
  { induction names as [|n names IH]; cbn [for_of].
    - apply logs_only_ret.
    - apply logs_only_bind; [apply logs_only_emit; reflexivity | exact IH]. }
  destruct skillNames as [|n [|m rest]].
  - apply logs_only_bind; [apply logs_only_emit; reflexivity | apply Hfor].
  - apply logs_only_emit; reflexivity.
  - apply logs_only_bind; [apply logs_only_emit; reflexivity | apply Hfor].
Qed.

(** C5, amended: with a remote configured, the current branch is the one
    git reports ([main] when git fails or reports what is no branch name),
    and the push goes through the candidates current branch, [main],
    [master] in that order, starting with no last error; a candidate equal
    to the current branch is pushed with [-u]; the first success ends the
    sequence, and the publish goes on; a failure becomes the last error,
    and moves on to the next candidate when its text mentions
    [refs/heads/<branch>] or [Could not read], while any other failure ends
    the sequence; a failed sequence ends the publish with exit status 1,
    and the stderr of the last error selects at most one hint: for
    credentials, else for setting the upstream, else for pulling with
    rebase, else none.  The sequence is the one the world dictates, and no
    other; nothing but the pushes of the sequence is run after the current
    branch is known. *)
Theorem push_fallback (repoDir : string) (skillNames : list string) (s : state W)
    (url : string) (w1 : W) :
  sys_exec W sys "git remote get-url origin" (mkExecOptions (Some repoDir) true None) (world s)
  = (Done url, w1) ->
  let cur := current_branch sys repoDir w1 in
  let w2 := snd (sys_exec W sys "git rev-parse --abbrev-ref HEAD"
                   (mkExecOptions (Some repoDir) true None) w1) in
  exists (pushes : list event) (pushed : bool) (lastError : option js_error) (w' : W)
         (report : list event),
    push_sequence sys repoDir cur [cur; "main"; "master"] None w2 pushes pushed lastError w' /\
    (forall pushes' pushed' lastError' w'',
       push_sequence sys repoDir cur [cur; "main"; "master"] None w2
         pushes' pushed' lastError' w'' ->
       pushes' = pushes /\ pushed' = pushed /\ lastError' = lastError /\ w'' = w') /\
    pushToRemote sys repoDir skillNames s
    = (if pushed then Ret tt else Exit 1,
       mkState w'
         (trace s
          ++ [EvSpinner SpinStart "Pushing to remote...";
              EvExec "git remote get-url origin" (mkExecOptions (Some repoDir) true None);
              EvLog ("Remote: " ++ trim url)]
          ++ current_branch_events sys repoDir w1
          ++ [EvLog ("Current branch: " ++ cur)]
          ++ pushes ++ report)) /\
    Forall (fun e => is_exec e = false) report /\
    (pushed = false ->
     filter is_tip report
     = match selected_hint lastError with Some h => [EvError (tip_line h)] | None => [] end).
Proof.
  intros Hurl cur w2. unfold pushToRemote.
  rewrite bind_run. unfold spinner at 1, emit. cbn [world trace].
  rewrite bind_run. unfold try_catch, bind at 1, execSync, call. cbn [world trace].
  change (piped_utf8 repoDir) with (mkExecOptions (Some repoDir) true None).
  rewrite Hurl. cbn [of_reply]. unfold console_log at 1, emit. cbn [world trace].
  rewrite bind_run.
  match goal with
  | |- context [getCurrentBranch sys repoDir ?st] =>
      destruct (getCurrentBranch_run repoDir st) as [Hcur Hv]; rewrite Hcur
  end.
  cbn [world trace] in Hv |- *. fold cur w2 in Hv |- *.
  rewrite bind_run. unfold console_log at 1, emit. cbn [world trace].
  assert (Hall : Forall (fun b => isValidBranchName b = true) [cur; "main"; "master"]).
  { repeat constructor. exact Hv. }
  unfold DEFAULT_BRANCHES.
  match goal with
  | |- context [bind (pushLoop sys repoDir cur _ None) _ ?st] =>
      destruct (pushLoop_run repoDir cur _ Hall None st)
        as [pushes [pushed [lastError [w' [Hseq Hloop]]]]];
      rewrite (bind_of_Ret _ _ _ _ _ Hloop)
  end.
  cbn [world trace] in Hseq, Hloop |- *.
  destruct pushed.
  - destruct (reportPushSuccess_logs skillNames (mkState w' ((((((trace s
                 ++ [EvSpinner SpinStart "Pushing to remote..."])
                 ++ [EvExec "git remote get-url origin" (mkExecOptions (Some repoDir) true None)])
                 ++ [EvLog ("Remote: " ++ trim url)])
                 ++ current_branch_events sys repoDir w1)
                 ++ [EvLog ("Current branch: " ++ cur)]) ++ pushes)))
      as [report [Hrep Hquiet]].
    exists pushes, true, lastError, w', report.
    split; [exact Hseq|].
    split; [intros p' r' l' v' H'; exact (push_sequence_deterministic _ _ _ _ _ _ _ _ _ _ _ _ _ Hseq H')|].
    split; [rewrite Hrep; cbn [world trace]; rewrite <- !app_assoc; reflexivity|].
    split; [exact Hquiet | discriminate].
  - destruct (reportPushFailure_report cur lastError (mkState w' ((((((trace s
                 ++ [EvSpinner SpinStart "Pushing to remote..."])
                 ++ [EvExec "git remote get-url origin" (mkExecOptions (Some repoDir) true None)])
                 ++ [EvLog ("Remote: " ++ trim url)])
                 ++ current_branch_events sys repoDir w1)
                 ++ [EvLog ("Current branch: " ++ cur)]) ++ pushes)))
      as [report [Hrep [Hquiet Htip]]].
    exists pushes, false, lastError, w', report.
    split; [exact Hseq|].
    split; [intros p' r' l' v' H'; exact (push_sequence_deterministic _ _ _ _ _ _ _ _ _ _ _ _ _ Hseq H')|].
    split; [rewrite Hrep; cbn [world trace]; rewrite <- !app_assoc; reflexivity|].
    split; [exact Hquiet | intros _; exact Htip].
Qed.

End Push_sequence.

(** ** The pipeline on the simulated world *)

Ltac discharge H := lapply H; [clear H; intros H | vm_compute; reflexivity].

(** The operator interrupts the prompt: exit status 0.  The operator
    declines: the publish goes on, and ends with nothing to commit. *)
Lemma overwrite_prompt_outcomes_witness :
  fst (uploadToRepository (Sim.sys Posix) [demo] example_url "origin" no_options
         (Sim.start world_interrupts)) = Exit 0 /\
  fst (uploadToRepository (Sim.sys Posix) [demo] example_url "origin" no_options
         (Sim.start world_declines)) = Ret tt.
Proof.
  split.
  - pose (s0 := snd (prepared (Sim.sys Posix) example_url "origin"
                       (Sim.start world_interrupts))).
    pose proof (overwrite_prompt_outcomes (Sim.sys Posix) [] [] demo example_url "origin"
                  no_options (Sim.start world_interrupts) s0 s0) as H.
    do 7 discharge H. destruct H as [_ H].
    specialize (H Sim.interrupted
                  (snd (Sim.confirm (overwrite_question demo) (world s0)))).
    discharge H. lapply H; [clear H; intros H | reflexivity].
    change ([] ++ [demo])%list with [demo] in H.
    rewrite H. reflexivity.
  - pose (s0 := snd (prepared (Sim.sys Posix) example_url "origin"
                       (Sim.start world_declines))).
    pose proof (overwrite_prompt_outcomes (Sim.sys Posix) [] [] demo example_url "origin"
                  no_options (Sim.start world_declines) s0 s0) as H.
    do 7 discharge H. destruct H as [H _].
    specialize (H (snd (Sim.confirm (overwrite_question demo) (world s0)))).
    discharge H.
    change ([] ++ [demo])%list with [demo] in H.
    rewrite H. vm_compute. reflexivity.
Defined.

(** C3, as written, fails for an invalid skill name: the mirror is cloned,
    by git, before the name is looked at. *)
Lemma invalid_skill_name_aborts_after_clone :
  isValidSkillName "bad name" = false /\
  fst (uploadToRepository (Sim.sys Posix) [mkSkill "bad name" "/src/demo"] example_url
         "origin" no_options (Sim.start world_fresh)) = Exit 1 /\
  filter is_exec
    (trace (snd (uploadToRepository (Sim.sys Posix) [mkSkill "bad name" "/src/demo"]
                   example_url "origin" no_options (Sim.start world_fresh))))
  = [EvExec ("git clone " ++ dq example_url ++ " " ++ dq "/home/u/.openskills/repos/origin")
            (mkExecOptions None false None)].
Proof. repeat split; vm_compute; reflexivity. Qed.

(** An invalid repository name: nothing but the error line. An invalid
    skill name after a valid one: exit 1 once [demo] is copied. *)
Lemma validation_aborts_witness :
  uploadToRepository (Sim.sys Posix) [demo] example_url "../x" no_options
    (Sim.start world_fresh)
  = (Exit 1, mkState world_fresh
       [EvError "Error: Invalid repository name '../x'. Repository names can only contain letters, numbers, dots, hyphens, and underscores, and cannot contain path traversal characters."]) /\
  fst (uploadToRepository (Sim.sys Posix) [demo; mkSkill "bad name" "/src/demo"]
         example_url "origin" no_options (Sim.start world_fresh)) = Exit 1.
Proof.
  split.
  - destruct (validation_aborts (Sim.sys Posix) [demo] example_url "../x" no_options
                (Sim.start world_fresh)) as [H _].
    discharge H. rewrite H. vm_compute. reflexivity.
  - pose (s0 := snd (prepared (Sim.sys Posix) example_url "origin" (Sim.start world_fresh))).
    pose (s1 := snd (pass (Sim.sys Posix) no_options "origin" demo s0)).
    destruct (validation_aborts (Sim.sys Posix) [demo; mkSkill "bad name" "/src/demo"]
                example_url "origin" no_options (Sim.start world_fresh))
      as [_ [_ [H _]]].
    specialize (H [demo] (mkSkill "bad name" "/src/demo") [] s0 s1).
    do 6 discharge H. rewrite H. reflexivity.
Defined.

(** C2, as written, fails twice.  A [.git] that is at the target after the
    copy is no failure: it is removed and the publish returns.  And the
    target of a skill that was copied and verified need not hold [SKILL.md]
    once the publish has returned: the pass of a later skill, here one named
    [.], whose target is [skills/] itself, removes it. *)
Lemma found_git_is_removed :
  (let run := uploadToRepository (Sim.sys Posix) [demo] example_url "origin" no_options
                (Sim.start world_git_survives) in
   fst run = Ret tt /\
   exists before after,
     trace (snd run)
     = (before
        ++ [EvCopyFile "/src/demo/SKILL.md"
              "/home/u/.openskills/repos/origin/skills/demo/SKILL.md";
            EvExists "/home/u/.openskills/repos/origin/skills/demo/.git" true;
            EvLog "Warning: Found .git directory in target, removing to prevent submodule issue...";
            EvRm "/home/u/.openskills/repos/origin/skills/demo/.git" true;
            EvSleep 300;
            EvExists "/home/u/.openskills/repos/origin/skills/demo/.git" false;
            EvLog "✓ Removed .git directory";
            EvExists "/home/u/.openskills/repos/origin/skills/demo/SKILL.md" true;
            EvSpinner SpinSucceed "Copied demo"]
        ++ after)%list) /\
  (let run := uploadToRepository sys_dropping_dots [demo; dot] example_url "origin" yes_to_all
                (Sim.start world_two_skills) in
   fst run = Ret tt /\
   In (EvSpinner SpinSucceed "Copied demo") (trace (snd run)) /\
   targetOf sys_dropping_dots "origin" demo = "/home/u/.openskills/repos/origin/skills/demo" /\
   sys_exists Sim.t sys_dropping_dots "/home/u/.openskills/repos/origin/skills/demo/SKILL.md"
     (world (snd run)) = false /\
   ~ target_clean sys_dropping_dots (targetOf sys_dropping_dots "origin" demo)
       (world (snd run))).
Proof.
  split.
  - cbv zeta. split; [vm_compute; reflexivity|].
    exists (firstn 26 (trace (snd (uploadToRepository (Sim.sys Posix) [demo] example_url
                                     "origin" no_options (Sim.start world_git_survives))))),
           (skipn 35 (trace (snd (uploadToRepository (Sim.sys Posix) [demo] example_url
                                    "origin" no_options (Sim.start world_git_survives))))).
    vm_compute. reflexivity.
  - cbv zeta. split; [vm_compute; reflexivity|].
    split; [vm_compute; tauto|]. split; [vm_compute; reflexivity|].
    split; [vm_compute; reflexivity|].
    intros [_ Hmd]. vm_compute in Hmd. discriminate Hmd.
Qed.

(** A publish of one skill to a fresh mirror returns, and the pass of the
    skill left its target clean; and where the [.git] at the target cannot
    be removed, the checks end the process with status 1. *)
Lemma post_copy_checks_are_fatal_witness :
  (exists s0 s1,
      prepared (Sim.sys Posix) example_url "origin" (Sim.start world_fresh) = (Ret tt, s0) /\
      passes (pass (Sim.sys Posix) no_options "origin")
        (fun sk a b =>
           confirmOverwrite (Sim.sys Posix) no_options sk
             (targetOf (Sim.sys Posix) "origin" sk) a = (Ret false, b)
           \/ target_clean (Sim.sys Posix) (targetOf (Sim.sys Posix) "origin" sk) (world b))
        [demo] s0 s1 /\
      fst (publishStaged (Sim.sys Posix) no_options (mirrorDir (Sim.sys Posix) "origin")
             [demo] s1) = Ret tt) /\
  target_clean (Sim.sys Posix) (targetOf (Sim.sys Posix) "origin" demo)
    (world (snd (pass (Sim.sys Posix) no_options "origin" demo
                   (snd (prepared (Sim.sys Posix) example_url "origin"
                           (Sim.start world_fresh)))))) /\
  (exists t1,
      removeGitDirectory (Sim.sys Posix) "/r/skills/demo/.git" "demo" "target"
        (Sim.start world_rm_never_removes) = (Ret false, t1) /\
      verifyCopied (Sim.sys Posix) "/r/skills/demo" demo (Sim.start world_rm_never_removes)
      = (Exit 1,
         mkState (world t1)
           (trace t1
            ++ [EvSpinner SpinFail "CRITICAL: Failed to remove .git directory from demo"]))).
Proof.
  destruct (post_copy_checks_are_fatal (Sim.sys Posix) [demo] example_url "origin"
              no_options (Sim.start world_fresh)) as [Hchecks [Hcopy Hall]].
  split; [|split].
  - specialize (Hall (snd (uploadToRepository (Sim.sys Posix) [demo] example_url "origin"
                             no_options (Sim.start world_fresh)))).
    discharge Hall. destruct Hall as [s0 [s1 [Hprep [Hpass Hrest]]]].
    exists s0, s1. split; [exact Hprep|]. split; [exact Hpass|]. now rewrite Hrest.
  - pose (s0 := snd (prepared (Sim.sys Posix) example_url "origin" (Sim.start world_fresh))).
    pose (s2 := snd (confirmOverwrite (Sim.sys Posix) no_options demo
                       (targetOf (Sim.sys Posix) "origin" demo) s0)).
    specialize (Hcopy [] demo [] s0 s0 s2).
    do 7 discharge Hcopy.
    destruct Hcopy as [[s3 [Hr [Hclean _]]] | [s3 [Hr _]]].
    + assert (Hs : snd (pass (Sim.sys Posix) no_options "origin" demo s0) = s3).
      { vm_compute in Hr. injection Hr as <-. vm_compute. reflexivity. }
      fold s0. rewrite Hs. exact Hclean.
    + vm_compute in Hr. discriminate Hr.
  - destruct (Hchecks "/r/skills/demo" demo (Sim.start world_rm_never_removes))
      as [removed [t1 [Hrm [_ Hver]]]].
    assert (Hremoved : removed = false).
    { vm_compute in Hrm. injection Hrm as Hr _. symmetry. exact Hr. }
    subst removed. exists t1. split; [exact Hrm | exact Hver].
Defined.

(** The copy of the example skill, which holds a [.git], a nested
    [.gitignore], a link to a directory that holds a [.git], a link to a
    file and a broken link: what the specification's copy does, and the
    code with it. *)
Lemma copyRecursive_excludes_git_witness :
  exists w',
    copied_tree (Sim.sys Posix) 8 "/src/demo" "/dst" world_fresh
      [EvReaddir "/src/demo";
       EvCopyFile "/src/demo/SKILL.md" "/dst/SKILL.md";
       EvMkdir "/dst/sub"; EvReaddir "/src/demo/sub";
       EvCopyFile "/src/demo/sub/a.txt" "/dst/sub/a.txt";
       EvStat "/src/demo/dirlink"; EvMkdir "/dst/dirlink";
       EvReaddir "/src/demo/dirlink";
       EvCopyFile "/src/demo/dirlink/x" "/dst/dirlink/x";
       EvStat "/src/demo/filelink";
       EvCopyFile "/src/demo/filelink" "/dst/filelink";
       EvStat "/src/demo/broken"]
      (Ret tt) w' /\
    Sim.exists_ "/dst/dirlink/x" w' = true /\
    Sim.exists_ "/dst/dirlink/.git" w' = false /\
    Sim.exists_ "/dst/sub/.gitignore" w' = false /\
    Sim.exists_ "/dst/.git" w' = false /\
    Sim.exists_ "/dst/broken" w' = false.
Proof.
  destruct (copyRecursive_excludes_git (Sim.sys Posix) 8 "/src/demo" "/dst"
              (Sim.start world_fresh)) as [evs [o [w' [Htree [_ [Hrun _]]]]]].
  vm_compute in Hrun. injection Hrun as <- <- <-.
  eexists. split; [exact Htree|]. vm_compute. repeat split.
Defined.

(** The whole copy of the example skill: what is made under the target. *)
Example copyRecursive_example :
  let run := copyRecursive (Sim.sys Posix) 8 "/src/demo" "/dst" (Sim.start world_fresh) in
  fst run = Ret tt /\
  filter (fun e => match e with EvMkdir _ | EvCopyFile _ _ => true | _ => false end)
         (trace (snd run))
  = [EvCopyFile "/src/demo/SKILL.md" "/dst/SKILL.md";
     EvMkdir "/dst/sub"; EvCopyFile "/src/demo/sub/a.txt" "/dst/sub/a.txt";
     EvMkdir "/dst/dirlink"; EvCopyFile "/src/demo/dirlink/x" "/dst/dirlink/x";
     EvCopyFile "/src/demo/filelink" "/dst/filelink"].
Proof. split; vm_compute; reflexivity. Qed.

(** C5, as written, fails when the text of stderr matches no pattern: the
    push to [main] is refused by a remote that hangs up, the sequence stops,
    the publish exits 1, and no hint is printed. *)
Lemma push_failure_without_hint :
  fst (pushToRemote (Sim.sys Posix) "/home/u/.openskills/repos/origin" ["demo"]
         (Sim.start world_push_hangs_up)) = Exit 1 /\
  filter is_exec
    (trace (snd (pushToRemote (Sim.sys Posix) "/home/u/.openskills/repos/origin" ["demo"]
                   (Sim.start world_push_hangs_up))))
  = [EvExec "git remote get-url origin" (piped_utf8 "/home/u/.openskills/repos/origin");
     EvExec "git rev-parse --abbrev-ref HEAD" (piped_utf8 "/home/u/.openskills/repos/origin");
     EvExec "git push -u origin main" (piped_utf8 "/home/u/.openskills/repos/origin")] /\
  filter is_tip
    (trace (snd (pushToRemote (Sim.sys Posix) "/home/u/.openskills/repos/origin" ["demo"]
                   (Sim.start world_push_hangs_up)))) = [].
Proof. repeat split; vm_compute; reflexivity. Qed.

(** On a mirror at [topic] whose remote has neither [topic] nor [main] and
    rejects [master]: three pushes in order, the first with [-u], the last
    error is the rejection, the publish exits 1 and the one hint is the one
    for pulling with rebase. *)
Lemma push_fallback_witness :
  exists w',
    push_sequence (Sim.sys Posix) "/home/u/.openskills/repos/origin" "topic"
      ["topic"; "main"; "master"] None world_push_rejected
      [EvExec "git push -u origin topic" (piped_utf8 "/home/u/.openskills/repos/origin");
       EvExec "git push origin main" (piped_utf8 "/home/u/.openskills/repos/origin");
       EvExec "git push origin master" (piped_utf8 "/home/u/.openskills/repos/origin")]
      false (Some (Sim.exec_failed "! [rejected] master -> master (non-fast-forward)")) w' /\
    fst (pushToRemote (Sim.sys Posix) "/home/u/.openskills/repos/origin" ["demo"]
           (Sim.start world_push_rejected)) = Exit 1 /\
    filter is_tip
      (trace (snd (pushToRemote (Sim.sys Posix) "/home/u/.openskills/repos/origin" ["demo"]
                     (Sim.start world_push_rejected))))
    = [EvError (tip_line HintPullRebase)].
Proof.
  destruct (push_fallback (Sim.sys Posix) "/home/u/.openskills/repos/origin" ["demo"]
              (Sim.start world_push_rejected) EmptyString world_push_rejected eq_refl)
    as [pushes [pushed [lastError [w' [report [Hseq [Honly [Hrun [Hquiet Htip]]]]]]]]].
  assert (Hthree : exists v,
             push_sequence (Sim.sys Posix) "/home/u/.openskills/repos/origin" "topic"
               ["topic"; "main"; "master"] None world_push_rejected
               [EvExec "git push -u origin topic" (piped_utf8 "/home/u/.openskills/repos/origin");
                EvExec "git push origin main" (piped_utf8 "/home/u/.openskills/repos/origin");
                EvExec "git push origin master" (piped_utf8 "/home/u/.openskills/repos/origin")]
               false (Some (Sim.exec_failed "! [rejected] master -> master (non-fast-forward)"))
               v).
  { eexists.
    eapply (sequence_advances (Sim.sys Posix) _ "topic" "topic"); [reflexivity | reflexivity |].
    eapply (sequence_advances (Sim.sys Posix) _ "topic" "main"); [reflexivity | reflexivity |].
    eapply (sequence_stops (Sim.sys Posix) _ "topic" "master"); reflexivity. }
  destruct Hthree as [v Hthree].
  destruct (Honly _ _ _ _ Hthree) as [Hpushes [Hpushed [Hlast Hw]]].
  subst pushes pushed lastError v.
  exists w'. split; [exact Hthree|].
  rewrite Hrun. cbn [fst snd trace]. split; [reflexivity|].
  rewrite !filter_app, (Htip eq_refl). reflexivity.
Defined.


(** * Further properties of the sources *)

(** ** Validators and escaping *)

Lemma branch_class_spec (c : ascii) :
  branch_class c = true <-> In c branch_alphabet.
Proof.
  assert (H : branch_class c = existsb (Ascii.eqb c) branch_alphabet)
    by (destruct c as [[] [] [] [] [] [] [] []]; reflexivity).
  rewrite H, existsb_exists. split.
  - intros [x [Hin Heq]]. apply Ascii.eqb_eq in Heq. now subst.
  - intros Hin. exists c. split; [exact Hin | apply Ascii.eqb_refl].
Qed.

(** X1: The branch-name validator (lines 36-40) accepts exactly the strings of
    1 to 255 characters drawn from [[A-Za-z0-9._/-]]. *)
Theorem isValidBranchName_spec (s : string) :
  isValidBranchName s = true <->
  (1 <= String.length s <= 255)%nat /\
  forall c, In c (list_ascii_of_string s) -> In c branch_alphabet.
Proof.
  unfold isValidBranchName.
  rewrite !andb_true_iff, test_class_plus_spec, Nat.ltb_lt, Nat.leb_le.
  split.
  - intros [[[H1 Hc] H0] H255]. split; [lia|].
    intros c Hin. apply branch_class_spec. auto.
  - intros [Hlen Hc]. repeat split; try lia.
    intros c Hin. apply branch_class_spec. auto.
Qed.

Lemma includes_char_iff (c : ascii) (s : string) :
  includes (str c) s = true <-> In c (list_ascii_of_string s).
Proof.
  split; [apply includes_char_In|].
  induction s as [|d s IH]; [intros []|].
  intros [<- | Hin]; cbn [includes str startsWith].
  - now rewrite Ascii.eqb_refl.
  - rewrite (IH Hin). apply orb_true_r.
Qed.

Lemma startsWith_length (p s : string) :
  startsWith p s = true -> (String.length p <= String.length s)%nat.
Proof.
  revert s; induction p as [|a p IH]; intros s H; simpl; [lia|].
  destruct s as [|b s]; [discriminate H|].
  simpl in H. apply andb_true_iff in H. destruct H as [_ H].
  apply IH in H. simpl. lia.
Qed.

(** X2: The URL validator of the upload (lines 74-90) accepts exactly the
    strings that start with one of the four protocols, hold none of the
    nine refused characters, and are at most 2000 characters long. *)
Theorem isValidGitUrl_spec (url : string) :
  isValidGitUrl url = true <->
  (exists protocol rest, In protocol validProtocols /\ url = protocol ++ rest) /\
  (forall c, In c dangerous_characters -> ~ In c (list_ascii_of_string url)) /\
  (String.length url <= 2000)%nat.
Proof.
  unfold isValidGitUrl. cbv zeta.
  assert (Hproto : existsb (fun protocol => startsWith protocol url) validProtocols = true
                   <-> exists protocol rest, In protocol validProtocols /\ url = protocol ++ rest).
  { rewrite existsb_exists. split.
    - intros [p [Hin Hp]]. apply startsWith_spec in Hp. destruct Hp as [b Hb].
      exists p, b. auto.
    - intros [p [b [Hin Hb]]]. exists p. split; [exact Hin|].
      apply startsWith_spec. exists b. exact Hb. }
  assert (Hdanger : existsb (fun char => includes char url) dangerousChars = false
                    <-> forall c, In c dangerous_characters
                                  -> ~ In c (list_ascii_of_string url)).
  { change dangerousChars with (map str dangerous_characters).
    generalize dangerous_characters as l. induction l as [|d l IH]; cbn [map existsb].
    - split; [intros _ c [] | reflexivity].
    - rewrite orb_false_iff, IH. split.
      + intros [Hd Hl] c [<- | Hc]; [|auto].
        intros Hin. apply includes_char_iff in Hin. congruence.
      + intros H. split; [|intros c Hc; apply H; now right].
        destruct (includes (str d) url) eqn:E; [|reflexivity].
        apply includes_char_iff in E. exfalso. apply (H d); [now left | exact E]. }
  destruct (existsb (fun protocol => startsWith protocol url) validProtocols) eqn:Hp;
    cbn [negb].
  - destruct (existsb (fun char => includes char url) dangerousChars) eqn:Hd.
    + split; [discriminate|]. intros [_ [Hno _]]. apply Hdanger in Hno. discriminate.
    + rewrite andb_true_iff, Nat.ltb_lt, Nat.leb_le. split.
      * intros [_ Hlen]. split; [now apply Hproto|]. split; [now apply Hdanger | exact Hlen].
      * intros [_ [_ Hlen]]. split; [|exact Hlen].
        apply existsb_exists in Hp. destruct Hp as [p [Hin Hsw]].
        apply startsWith_length in Hsw.
        cbn in Hin. destruct Hin as [<-|[<-|[<-|[<-|[]]]]]; cbn in Hsw; lia.
  - split; [discriminate|]. intros [Hex _]. apply Hproto in Hex. discriminate.
Qed.

Lemma escapeGitPath_inert_witness :
  dq_inert (escapeGitPath ("skills/my" ++ str DQUOTE ++ "skill")) = true.
Proof. apply escapeGitPath_inert. reflexivity. Defined.

Lemma escapeGitPath_strips_witness :
  ~ In LF (list_ascii_of_string (escapeGitPath ("skills/my" ++ nl ++ "skill"))).
Proof. apply escapeGitPath_strips. cbn. auto. Defined.

Lemma branch_class_git_path_char (c : ascii) :
  branch_class c = true ->
  git_path_char c = str c /\ shell_special c = false /\ Ascii.eqb c BACKSLASH = false
  /\ (Ascii.eqb c LF || Ascii.eqb c NUL) = false.
Proof.
  destruct c as [[] [] [] [] [] [] [] []]; intros H;
    solve [discriminate H | repeat split].
Qed.

(** X5: A path made of letters, digits, dots, underscores, hyphens and slashes
    only is left as it is by [escapeGitPath] (lines 97-107), and the shell
    reads it between double quotes as literal text. *)
Theorem escapeGitPath_plain (path : string) :
  forallb branch_class path = true ->
  escapeGitPath path = path /\ dq_scan shell_special false path = true.
Proof.
  rewrite escapeGitPath_chars.
  induction path as [|c path IH]; [split; reflexivity|].
  cbn [forallb map_chars dq_scan]. intros H.
  apply andb_true_iff in H. destruct H as [Hc Hs].
  destruct (branch_class_git_path_char c Hc) as [Hg [Hsp [Hb Hn]]].
  destruct (IH Hs) as [IH1 IH2].
  rewrite Hg, IH1, Hn, Hb, Hsp. split; [reflexivity | exact IH2].
Qed.

Lemma escapeGitPath_plain_witness :
  escapeGitPath "skills/my-skill_v1.2" = "skills/my-skill_v1.2"
  /\ dq_scan shell_special false "skills/my-skill_v1.2" = true.
Proof. apply escapeGitPath_plain. reflexivity. Defined.

Lemma last_segment_from_plain (s acc : string) :
  includes "/" s = false -> includes "\" s = false ->
  last_segment_from acc s = acc ++ s.
Proof.
  revert acc. induction s as [|c s IH]; intros acc Hs Hb.
  - cbn. now rewrite append_nil_r.
  - cbn [includes startsWith] in Hs, Hb.
    apply orb_false_iff in Hs. destruct Hs as [Hs1 Hs2].
    apply orb_false_iff in Hb. destruct Hb as [Hb1 Hb2].
    rewrite andb_true_r in Hs1, Hb1.
    cbn [last_segment_from]. rewrite (Ascii.eqb_sym c "/"), Hs1.
    change BACKSLASH with "\"%char. rewrite (Ascii.eqb_sym c "\"), Hb1. cbn [orb].
    rewrite (IH _ Hs2 Hb2), append_assoc. reflexivity.
Qed.

(** X6: The directory of the local mirror (lines 483-486) is named exactly
    after the repository: for every name that passes [isValidRepoName] the
    last path segment taken as a precaution is the name itself. *)
Theorem safeRepoName_is_repoName (repoName : string) :
  isValidRepoName repoName = true ->
  or_else (last_segment repoName) repoName = repoName.
Proof.
  unfold isValidRepoName. intros H.
  destruct (includes ".." repoName); [discriminate H|].
  destruct (includes "/" repoName) eqn:Hs; [discriminate H|].
  destruct (includes "\" repoName) eqn:Hb; [discriminate H|].
  unfold last_segment. rewrite (last_segment_from_plain _ _ Hs Hb). cbn [append].
  unfold or_else. now destruct (truthy repoName).
Qed.

Lemma safeRepoName_is_repoName_witness :
  or_else (last_segment "team.skills") "team.skills" = "team.skills".
Proof. apply safeRepoName_is_repoName. reflexivity. Defined.

(** X7: Every URL the upload accepts (lines 74-90) is one that the
    configuration (config.ts, 117-125) accepts and that the installer
    (install.ts, 28-36) takes for a git URL. *)
Theorem uploadable_url_is_configurable (url : string) :
  isValidGitUrl url = true ->
  Config.isValidGitUrl url = true /\ Install.isGitUrl url = true.
Proof.
  unfold isValidGitUrl, Config.isValidGitUrl, Install.isGitUrl. cbv zeta.
  cbn [existsb validProtocols].
  destruct (startsWith "http://" url), (startsWith "https://" url),
    (startsWith "git://" url), (startsWith "git@" url); cbn; intros H;
    try discriminate H; split; reflexivity.
Qed.

Lemma uploadable_url_is_configurable_witness :
  Config.isValidGitUrl example_url = true /\ Install.isGitUrl example_url = true.
Proof. apply uploadable_url_is_configurable. reflexivity. Defined.

(** ** What escapes a computation *)

Section Outcome_laws.

Context {W : Type} (sys : Sys W).

Lemma never_throws_ret {A} (a : A) : never_throws (@ret W A a).
Proof. intros s e s' H. discriminate H. Qed.

Lemma never_throws_exit {A} c : never_throws (@process_exit W A c).
Proof. intros s e s' H. discriminate H. Qed.

Lemma never_throws_emit e : never_throws (@emit W e).
Proof. intros s e' s' H. discriminate H. Qed.

Lemma never_throws_existsSync p : never_throws (existsSync sys p).
Proof. intros s e s' H. discriminate H. Qed.

Lemma never_throws_sleep ms : never_throws (sleep sys ms).
Proof. intros s e s' H. discriminate H. Qed.

Lemma never_throws_bind {A B} (m : M W A) (f : A -> M W B) :
  never_throws m -> (forall a, never_throws (f a)) -> never_throws (bind m f).
Proof.
  intros Hm Hf s e s'. rewrite bind_run.
  destruct (m s) as [[a|e1|c1] s1] eqn:Hms; intros H.
  - eapply Hf; eauto.
  - eapply Hm; eauto.
  - discriminate H.
Qed.

(** What the block of a [try] raises is the handler's to deal with. *)
Lemma never_throws_try_catch {A} (m : M W A) (h : js_error -> M W A) :
  (forall e, never_throws (h e)) -> never_throws (try_catch m h).
Proof.
  intros Hh s e s'. unfold try_catch.
  destruct (m s) as [[a|e1|c1] s1] eqn:Hms; intros H.
  - discriminate H.
  - eapply Hh; eauto.
  - discriminate H.
Qed.

Lemma never_throws_when (b : bool) (m : M W unit) :
  never_throws m -> never_throws (when b m).
Proof. intros H. destruct b; [exact H | apply never_throws_ret]. Qed.

Lemma never_throws_for_of {A} (xs : list A) (body : A -> M W unit) :
  (forall x, never_throws (body x)) -> never_throws (for_of xs body).
Proof.
  intros H. induction xs as [|x xs IH]; [apply never_throws_ret|].
  cbn [for_of]. apply never_throws_bind; auto.
Qed.

Lemma settles_of {A} c0 (m : M W A) :
  never_throws m -> exits_only c0 m -> settles c0 m.
Proof.
  intros Hn He s. destruct (m s) as [[a|e|c] s'] eqn:Hms.
  - left. eauto.
  - destruct (Hn _ _ _ Hms).
  - right. rewrite (He _ _ _ Hms). eauto.
Qed.

Lemma returns_of {A} (m : M W A) :
  never_throws m -> (forall c0, exits_only c0 m) ->
  forall s, exists a s', m s = (Ret a, s').
Proof.
  intros Hn He s. destruct (m s) as [[a|e|c] s'] eqn:Hms.
  - eauto.
  - destruct (Hn _ _ _ Hms).
  - pose proof (He 0%Z _ _ _ Hms). pose proof (He 1%Z _ _ _ Hms). congruence.
Qed.

End Outcome_laws.

Ltac walk_throws :=
  repeat first
    [ apply never_throws_ret | apply never_throws_exit | apply never_throws_emit
    | apply never_throws_existsSync | apply never_throws_sleep
    | apply never_throws_when
    | apply never_throws_try_catch; intros ?
    | apply never_throws_bind; [|intros ?]
    | apply never_throws_for_of; intros ?
    | progress cbv zeta
    | match goal with
      | |- never_throws (if ?b then _ else _) => destruct b
      | |- never_throws (match ?x with _ => _ end) => destruct x
      | |- never_throws (let (_, _) := ?x in _) => destruct x
      end ].

Ltac walk_exits' :=
  repeat first
    [ apply exits_only_existsSync | apply exits_only_sleep | progress walk_exits ].

(** ** The steps of the upload *)

Section Steps.

Context {W : Type} (sys : Sys W).

(** X8: Whatever fails while the traces of a submodule are removed (lines
    143-223), [cleanupSubmodule] returns: the failure is at most reported
    and the upload goes on. *)
Theorem cleanupSubmodule_returns (localRepoDir skillName : string) (s : state W) :
  exists s', cleanupSubmodule sys localRepoDir skillName s = (Ret tt, s').
Proof.
  destruct (returns_of (cleanupSubmodule sys localRepoDir skillName)) with (s := s)
    as [[] [s' Hr]].
  - unfold cleanupSubmodule, console_log. walk_throws.
  - intros c0. apply exits_only_cleanupSubmodule.
  - exists s'. exact Hr.
Qed.

Lemma never_throws_removeLoop (left : nat) (gitPath : string) :
  never_throws (removeLoop sys left gitPath).
Proof.
  induction left as [|left IH]; cbn [removeLoop]; [apply never_throws_ret|].
  apply never_throws_bind.
  - unfold removeAttempt. walk_throws.
  - intros []; [apply never_throws_ret | exact IH].
Qed.

Lemma never_throws_removeGitDirectory gitPath skillName context :
  never_throws (removeGitDirectory sys gitPath skillName context).
Proof.
  unfold removeGitDirectory, console_log, console_error.
  apply never_throws_bind; [apply never_throws_existsSync|]. intros ex.
  destruct (negb ex); [apply never_throws_ret|].
  apply never_throws_bind; [apply never_throws_emit|]. intros _.
  apply never_throws_bind; [apply never_throws_removeLoop|]. intros removed.
  walk_throws.
Qed.

Lemma never_throws_getCurrentBranch repoDir :
  never_throws (getCurrentBranch sys repoDir).
Proof. unfold getCurrentBranch. walk_throws. Qed.

Lemma exits_only_getCurrentBranch c0 repoDir :
  exits_only c0 (getCurrentBranch sys repoDir).
Proof.
  unfold getCurrentBranch, sanitizeBranchName, console_warn, execSync. walk_exits'.
Qed.

Lemma never_throws_pullLoop localRepoDir branches :
  never_throws (pullLoop sys localRepoDir branches).
Proof.
  induction branches as [|b rest IH]; cbn [pullLoop]; [apply never_throws_ret|].
  apply never_throws_bind; [walk_throws|].
  intros []; [apply never_throws_ret | exact IH].
Qed.

Lemma exits_only_pullLoop c0 localRepoDir branches :
  exits_only c0 (pullLoop sys localRepoDir branches).
Proof.
  induction branches as [|b rest IH]; cbn [pullLoop]; [apply exits_only_ret|].
  apply exits_only_bind.
  - unfold sanitizeBranchName, console_warn, execSync. walk_exits'.
  - intros []; [apply exits_only_ret | exact IH].
Qed.

(** X9: Preparing the local mirror (lines 488-536) never raises.  Where the
    mirror is already there it always returns: a failed fetch or pull is
    not an error.  Only a failed clone ends the process, with status 1. *)
Theorem prepareRepository_outcome (repoUrl reposDir localRepoDir : string) (s : state W) :
  (exists s', prepareRepository sys repoUrl reposDir localRepoDir s = (Ret tt, s')) \/
  (sys_exists W sys localRepoDir (world s) = false /\
   exists s', prepareRepository sys repoUrl reposDir localRepoDir s = (Exit 1, s')).
Proof.
  unfold prepareRepository. rewrite !bind_run. unfold existsSync. cbv zeta.
  destruct (sys_exists W sys localRepoDir (world s)) eqn:Hex; cbn [negb].
  - left.
    match goal with
    | |- exists s', ?m ?st = _ =>
        destruct (returns_of m) with (s := st) as [[] [s' Hr]]
    end.
    + unfold spinner. walk_throws.
    + intros c0. unfold spinner, execSync.
      apply exits_only_bind; [apply exits_only_emit|]. intros _.
      apply exits_only_try_catch; [|intros e; apply exits_only_emit].
      apply exits_only_bind; [apply exits_only_call|]. intros _.
      apply exits_only_bind; [apply exits_only_getCurrentBranch|]. intros cur.
      apply exits_only_bind; [apply exits_only_pullLoop|]. intros [];
        apply exits_only_emit.
    + exists s'. exact Hr.
  - match goal with
    | |- (exists s', ?m ?st = _) \/ _ =>
        destruct (settles_of 1 m) with (s := st) as [[[] [s' Hr]] | [s' Hr]]
    end.
    + unfold spinner, console_error. walk_throws.
    + unfold spinner, console_error, mkdirSync, execSync. walk_exits'.
    + left. exists s'. exact Hr.
    + right. split; [reflexivity|]. exists s'. exact Hr.
Qed.

Lemma never_throws_pushLoop repoDir cur branches le :
  never_throws (pushLoop sys repoDir cur branches le).
Proof.
  revert le. induction branches as [|b rest IH]; intros le; cbn [pushLoop];
    [apply never_throws_ret|].
  apply never_throws_bind; [unfold pushAttempt; walk_throws|].
  intros [|e|e]; [apply never_throws_ret | apply IH | apply never_throws_ret].
Qed.

Lemma exits_only_pushLoop c0 repoDir cur branches le :
  exits_only c0 (pushLoop sys repoDir cur branches le).
Proof.
  revert le. induction branches as [|b rest IH]; intros le; cbn [pushLoop];
    [apply exits_only_ret|].
  apply exits_only_bind.
  - unfold pushAttempt, sanitizeBranchName, console_warn, execSync. walk_exits'.
  - intros [|e|e]; [apply exits_only_ret | apply IH | apply exits_only_ret].
Qed.

Lemma never_throws_pushToRemote repoDir skillNames :
  never_throws (pushToRemote sys repoDir skillNames).
Proof.
  unfold pushToRemote, spinner, console_log, console_error.
  apply never_throws_bind; [apply never_throws_emit|]. intros _.
  apply never_throws_bind; [walk_throws|]. intros _.
  apply never_throws_bind; [apply never_throws_getCurrentBranch|]. intros cur.
  apply never_throws_bind; [apply never_throws_emit|]. intros _.
  apply never_throws_bind; [apply never_throws_pushLoop|]. intros [[] le].
  - unfold reportPushSuccess, spinner, console_log. walk_throws.
  - unfold reportPushFailure, pushHint, spinner, console_error. walk_throws.
Qed.

Lemma exits_only_pushToRemote repoDir skillNames :
  exits_only 1 (pushToRemote sys repoDir skillNames).
Proof.
  unfold pushToRemote, spinner, console_log, console_error, execSync.
  apply exits_only_bind; [apply exits_only_emit|]. intros _.
  apply exits_only_bind; [walk_exits'|]. intros _.
  apply exits_only_bind; [apply exits_only_getCurrentBranch|]. intros cur.
  apply exits_only_bind; [apply exits_only_emit|]. intros _.
  apply exits_only_bind; [apply exits_only_pushLoop|]. intros [[] le].
  - unfold reportPushSuccess, spinner, console_log. walk_exits'.
  - unfold reportPushFailure, pushHint, spinner, console_error. walk_exits'.
Qed.

Lemma never_throws_stageAll localRepoDir skills :
  never_throws (stageAll sys localRepoDir skills).
Proof. unfold stageAll, spinner, console_error. walk_throws. Qed.

Lemma exits_only_stageAll localRepoDir skills :
  exits_only 1 (stageAll sys localRepoDir skills).
Proof.
  unfold stageAll, spinner, console_error.
  apply exits_only_bind; [apply exits_only_emit|]. intros _.
  apply exits_only_try_catch; [|intros e; walk_exits'].
  apply exits_only_bind.
  - apply exits_only_for_of. intros sk. unfold stageSkill. cbv zeta.
    apply exits_only_bind; [apply exits_only_removeGitDirectory|]. intros removed.
    unfold console_error, execSync. walk_exits'.
  - intros _. unfold execSync. walk_exits'.
Qed.

Lemma never_throws_publishStaged (options : UploadOptions) (localRepoDir : string)
    (skills : list skill) :
  never_throws (publishStaged sys options localRepoDir skills).
Proof.
  unfold publishStaged. cbv zeta.
  apply never_throws_bind.
  { unfold ensureCleanBeforeAdd. apply never_throws_for_of. intros sk. cbv zeta.
    apply never_throws_bind; [apply never_throws_removeGitDirectory|].
    intros removed. walk_throws. }
  intros _. apply never_throws_bind; [apply never_throws_stageAll|]. intros _.
  apply never_throws_bind.
  { unfold checkChanges, spinner, console_error. walk_throws. }
  intros changed. destruct (negb changed); [apply never_throws_ret|].
  apply never_throws_bind.
  { unfold commitChanges, spinner, console_error, console_log. walk_throws. }
  intros committed. destruct (negb committed); [apply never_throws_ret|].
  apply never_throws_pushToRemote.
Qed.

Lemma exits_only_publishStaged (options : UploadOptions) (localRepoDir : string)
    (skills : list skill) :
  exits_only 1 (publishStaged sys options localRepoDir skills).
Proof.
  unfold publishStaged. cbv zeta.
  apply exits_only_bind.
  { unfold ensureCleanBeforeAdd. apply exits_only_for_of. intros sk. cbv zeta.
    apply exits_only_bind; [apply exits_only_removeGitDirectory|].
    intros removed. walk_exits'. }
  intros _. apply exits_only_bind; [apply exits_only_stageAll|]. intros _.
  apply exits_only_bind.
  { unfold checkChanges, spinner, console_error, console_log, execSync. walk_exits'. }
  intros changed. destruct (negb changed); [apply exits_only_ret|].
  apply exits_only_bind.
  { unfold commitChanges, commitErrorDetails, spinner, console_error, console_log,
      execSync. walk_exits'. }
  intros committed. destruct (negb committed); [apply exits_only_ret|].
  apply exits_only_pushToRemote.
Qed.

(** X13: Once the skills are copied (lines 757-931 and [pushToRemote], 937-1040)
    no exception escapes the upload: whatever git answers while staging,
    checking, committing and pushing, the run returns or ends the process
    with status 1. *)
Theorem publishStaged_settles (options : UploadOptions) (localRepoDir : string)
    (skills : list skill) :
  settles 1 (publishStaged sys options localRepoDir skills).
Proof.
  apply settles_of;
    [apply never_throws_publishStaged | apply exits_only_publishStaged].
Qed.

Lemma exits_only_prepareRepository (repoUrl reposDir localRepoDir : string) :
  exits_only 1 (prepareRepository sys repoUrl reposDir localRepoDir).
Proof.
  unfold prepareRepository.
  apply exits_only_bind; [apply exits_only_existsSync|]. intros ex.
  destruct (negb ex).
  - unfold spinner, console_error, mkdirSync, execSync. walk_exits'.
  - unfold spinner, execSync.
    apply exits_only_bind; [apply exits_only_emit|]. intros _.
    apply exits_only_try_catch; [|intros e; apply exits_only_emit].
    apply exits_only_bind; [apply exits_only_call|]. intros _.
    apply exits_only_bind; [apply exits_only_getCurrentBranch|]. intros cur.
    apply exits_only_bind; [apply exits_only_pullLoop|]. intros [];
      apply exits_only_emit.
Qed.

Lemma exits_only_copySkill (localRepoDir targetSkillDir : string) (sk : skill) :
  exits_only 1 (copySkill sys localRepoDir targetSkillDir sk).
Proof.
  intros s c s' H.
  destruct (copySkill_run sys localRepoDir targetSkillDir sk s)
    as [[s1 [Hr _]] | [s1 Hr]]; congruence.
Qed.

Lemma exits_where_of_only {A} (P : Z -> Prop) c0 (m : M W A) :
  P c0 -> exits_only c0 m -> exits_where P m.
Proof. intros HP Hm s c s' H. now rewrite (Hm _ _ _ H). Qed.

Lemma exits_where_bind {A B} (P : Z -> Prop) (m : M W A) (f : A -> M W B) :
  exits_where P m -> (forall a, exits_where P (f a)) -> exits_where P (bind m f).
Proof.
  intros Hm Hf s c s'. rewrite bind_run.
  destruct (m s) as [[a|e|c1] s1] eqn:Hms; intros H.
  - eapply Hf; eauto.
  - discriminate H.
  - injection H as <- <-. eapply Hm; eauto.
Qed.

Lemma exits_where_for_of {A} (P : Z -> Prop) (xs : list A) (body : A -> M W unit) :
  (forall x, exits_where P (body x)) -> exits_where P (for_of xs body).
Proof.
  intros H. induction xs as [|x xs IH]; [intros s c s' Hr; discriminate Hr|].
  cbn [for_of]. apply exits_where_bind; auto.
Qed.

(** X28: When the upload (lines 464-932) ends the process, it is with status 1
    or with status 0 and no other; and with [--yes] it is with status 1:
    status 0 is that of the interrupted prompt alone. *)
Theorem upload_exit_status (skills : list skill) (repoUrl repoName : string)
    (options : UploadOptions) (s s' : state W) (c : Z) :
  uploadToRepository sys skills repoUrl repoName options s = (Exit c, s') ->
  c = 1%Z \/ (c = 0%Z /\ yes options = false).
Proof.
  set (P := fun c : Z => c = 1%Z \/ (c = 0%Z /\ yes options = false)).
  assert (H1 : P 1%Z) by (left; reflexivity).
  assert (Hall : exits_where P (uploadToRepository sys skills repoUrl repoName options)).
  { unfold uploadToRepository.
    destruct (negb (isValidRepoName repoName)).
    { apply (exits_where_of_only P 1); [exact H1|]. unfold console_error. walk_exits'. }
    destruct (negb (isValidGitUrl repoUrl)).
    { apply (exits_where_of_only P 1); [exact H1|]. unfold console_error. walk_exits'. }
    cbv zeta.
    apply exits_where_bind;
      [apply (exits_where_of_only P 1 _ H1), exits_only_prepareRepository|]. intros _.
    apply exits_where_bind;
      [apply (exits_where_of_only P 1 _ H1); unfold mkdirSync; walk_exits'|]. intros _.
    apply exits_where_bind;
      [|intros _; apply (exits_where_of_only P 1 _ H1), exits_only_publishStaged].
    apply exits_where_for_of. intros sk. unfold processSkill.
    destruct (negb (isValidSkillName (name sk))).
    { apply (exits_where_of_only P 1); [exact H1|]. unfold console_error. walk_exits'. }
    cbv zeta. apply exits_where_bind.
    - unfold confirmOverwrite.
      apply exits_where_bind;
        [apply (exits_where_of_only P 1 _ H1), exits_only_existsSync|]. intros ex.
      destruct (yes options) eqn:Hyes.
      + rewrite andb_false_r. intros st c0 st' Hr. discriminate Hr.
      + apply (exits_where_of_only P 0); [right; auto|].
        unfold console_log, confirm. walk_exits'.
    - intros []; [|intros st c0 st' Hr; discriminate Hr].
      apply (exits_where_of_only P 1 _ H1), exits_only_copySkill. }
  intros Hrun. exact (Hall _ _ _ Hrun).
Qed.

End Steps.

(** ** What the steps run and ask *)

Section Commands.

Context {W : Type} (sys : Sys W).

Lemma emits_existsSync (P : event -> Prop) p :
  (forall r, P (EvExists p r)) -> emits P (existsSync sys p).
Proof. intros H s. eexists. split; [reflexivity|]. auto. Qed.

Lemma emits_sleep (P : event -> Prop) ms : P (EvSleep ms) -> emits P (sleep sys ms).
Proof. intros H s. eexists. split; [reflexivity|]. auto. Qed.

(** What follows [sanitizeBranchName] is run on a valid name. *)
Lemma emits_sanitized {A} (P : event -> Prop) (branch : string) (k : string -> M W A) :
  (forall w, P (EvWarn w)) ->
  (forall b, isValidBranchName b = true -> emits P (k b)) ->
  emits P (bind (sanitizeBranchName branch) k).
Proof.
  intros Hw Hk s. unfold sanitizeBranchName.
  destruct (isValidBranchName branch) eqn:Hb.
  - rewrite bind_run. cbn. apply Hk. exact Hb.
  - rewrite bind_run. cbn.
    match goal with
    | |- context [k "main" ?st] =>
        destruct (Hk "main" eq_refl st) as [evs [Ht Hp]]; rewrite Ht
    end.
    cbn [trace]. rewrite <- app_assoc. eexists. split; [reflexivity|].
    constructor; [apply Hw | exact Hp].
Qed.

End Commands.

(** Walk through a computation, every event it adds left to [leaf]. *)
Ltac walk_emits leaf :=
  repeat first
    [ apply emits_ret | apply emits_throw | apply emits_exit
    | apply emits_emit; leaf | apply emits_call; leaf | apply emits_query; leaf
    | apply emits_existsSync; intros ?; leaf | apply emits_sleep; leaf
    | apply emits_when
    | apply emits_bind; [|intros ?]
    | apply emits_try_catch; [|intros ?]
    | apply emits_for_of; intros ?
    | progress cbv zeta
    | match goal with
      | |- emits _ (if ?b then _ else _) => destruct b
      | |- emits _ (match ?x with _ => _ end) => destruct x
      | |- emits _ (let (_, _) := ?x in _) => destruct x
      end ].

Ltac valid_branch_leaf :=
  solve [ exact I
        | intros; exact I
        | cbn; auto 6
        | cbn; unfold on_valid_branch; eauto 8 ].

Section Branch_commands.

Context {W : Type} (sys : Sys W).

Lemma getCurrentBranch_emits (P : event -> Prop) repoDir :
  (forall w, P (EvWarn w)) ->
  P (EvExec "git rev-parse --abbrev-ref HEAD" (mkExecOptions (Some repoDir) true None)) ->
  emits P (getCurrentBranch sys repoDir).
Proof.
  intros Hw He. unfold getCurrentBranch.
  apply emits_try_catch; [|intros e; apply emits_ret].
  unfold execSync. apply emits_bind; [apply emits_call; exact He|]. intros branch.
  unfold sanitizeBranchName, console_warn. walk_emits ltac:(apply Hw).
Qed.

Lemma pullLoop_emits repoUrl localRepoDir branches :
  emits (prepare_command repoUrl localRepoDir) (pullLoop sys localRepoDir branches).
Proof.
  induction branches as [|b rest IH]; cbn [pullLoop]; [apply emits_ret|].
  apply emits_bind; [|intros []; [apply emits_ret | exact IH]].
  apply emits_try_catch; [|intros e; apply emits_ret].
  apply emits_sanitized; [intros w; exact I|]. intros safe Hsafe.
  unfold execSync. walk_emits ltac:(idtac).
  cbn. right; right; right. exists safe. auto.
Qed.

(** X10: Preparing the mirror (lines 488-536) runs nothing but the clone of the
    given URL into the given directory, [git fetch origin], the query for
    the current branch, and [git pull origin <branch>] for branches whose
    names pass [isValidBranchName] (lines 114-120): a branch name read from
    git is never put into a command line unchecked. *)
Theorem prepareRepository_commands (repoUrl reposDir localRepoDir : string) :
  emits (prepare_command repoUrl localRepoDir)
        (prepareRepository sys repoUrl reposDir localRepoDir).
Proof.
  unfold prepareRepository.
  apply emits_bind; [apply emits_existsSync; intros r; exact I|]. intros ex.
  destruct (negb ex).
  - unfold spinner, console_error, mkdirSync, execSync.
    walk_emits valid_branch_leaf.
  - unfold spinner.
    apply emits_bind; [apply emits_emit; exact I|]. intros _.
    apply emits_try_catch; [|intros e; apply emits_emit; exact I].
    unfold execSync.
    apply emits_bind; [apply emits_call; cbn; auto|]. intros _.
    apply emits_bind; [apply getCurrentBranch_emits; [intros w; exact I | cbn; auto]|].
    intros cur.
    apply emits_bind; [apply pullLoop_emits|]. intros []; apply emits_emit; exact I.
Qed.

Lemma pushLoop_emits repoDir cur branches le :
  emits push_to_remote_command (pushLoop sys repoDir cur branches le).
Proof.
  revert le. induction branches as [|b rest IH]; intros le; cbn [pushLoop];
    [apply emits_ret|].
  apply emits_bind;
    [|intros [|e|e]; [apply emits_ret | apply IH | apply emits_ret]].
  unfold pushAttempt.
  apply emits_try_catch; [|intros e; walk_emits ltac:(idtac)].
  apply emits_sanitized; [intros w; exact I|]. intros safe Hsafe.
  unfold execSync.
  destruct (String.eqb b cur); walk_emits ltac:(idtac); cbn.
  - right; right; left. exists safe. auto.
  - right; right; right. exists safe. auto.
Qed.

(** X11: The push (lines 937-1040) runs nothing but the query for the remote,
    the query for the current branch, and [git push origin <branch>] or
    [git push -u origin <branch>] for branches whose names pass
    [isValidBranchName]. *)
Theorem pushToRemote_commands (repoDir : string) (skillNames : list string) :
  emits push_to_remote_command (pushToRemote sys repoDir skillNames).
Proof.
  unfold pushToRemote.
  unfold spinner at 1.
  apply emits_bind; [apply emits_emit; exact I|]. intros _.
  apply emits_bind.
  { unfold spinner, console_log, console_error, execSync. walk_emits valid_branch_leaf. }
  intros _.
  apply emits_bind; [apply getCurrentBranch_emits; [intros w; exact I | cbn; auto]|].
  intros cur.
  apply emits_bind; [apply emits_emit; exact I|]. intros _.
  apply emits_bind; [apply pushLoop_emits|]. intros [[] le].
  - unfold reportPushSuccess, spinner, console_log. walk_emits valid_branch_leaf.
  - unfold reportPushFailure, pushHint, spinner, console_error.
    walk_emits valid_branch_leaf.
Qed.

(** X12: The commit (lines 856-928) runs one command, [git commit -m "<text>"],
    and whatever the message the text between the quotes is literal for
    the shell: a POSIX shell reads it as one argument, since every backslash, double
    quote, dollar sign and backtick of the message is escaped and no
    newline or NUL is left. *)
Theorem commitChanges_quotes_message (localRepoDir commitMessage : string) :
  emits quoted_commit (commitChanges sys localRepoDir commitMessage).
Proof.
  unfold commitChanges, commitErrorDetails, spinner, console_log, console_error, execSync.
  walk_emits ltac:(try solve [exact I | intros; exact I]).
  cbn. exists (escapeCommitMessage commitMessage).
  split; [reflexivity | apply escapeCommitMessage_inert].
Qed.

End Branch_commands.

Ltac quiet := solve [ reflexivity | intros; reflexivity ].

Section Unattended.

Context {W : Type} (sys : Sys W).

Lemma removeLoop_unprompted left gitPath :
  emits unprompted (removeLoop sys left gitPath).
Proof.
  induction left as [|left IH]; cbn [removeLoop]; [apply emits_ret|].
  apply emits_bind; [|intros []; [apply emits_ret | exact IH]].
  unfold removeAttempt, rmSync. walk_emits quiet.
Qed.

Lemma removeGitDirectory_unprompted gitPath skillName context :
  emits unprompted (removeGitDirectory sys gitPath skillName context).
Proof.
  unfold removeGitDirectory, console_log, console_error.
  apply emits_bind; [apply emits_existsSync; quiet|]. intros ex.
  destruct (negb ex); [apply emits_ret|].
  apply emits_bind; [apply emits_emit; quiet|]. intros _.
  apply emits_bind; [apply removeLoop_unprompted|]. intros removed.
  walk_emits quiet.
Qed.

Lemma copyRecursive_unprompted stack src dest :
  emits unprompted (copyRecursive sys stack src dest).
Proof.
  eapply emits_mono; [|apply copyRecursive_emits].
  intros [] H; solve [reflexivity | destruct H].
Qed.

Lemma cleanupSubmodule_unprompted localRepoDir skillName :
  emits unprompted (cleanupSubmodule sys localRepoDir skillName).
Proof.
  unfold cleanupSubmodule, console_log, rmSync, readFileSync, writeFileSync, execSync,
    readdirSync.
  walk_emits quiet.
Qed.

Lemma copySkill_unprompted localRepoDir targetSkillDir sk :
  emits unprompted (copySkill sys localRepoDir targetSkillDir sk).
Proof.
  unfold copySkill, spinner, console_error.
  apply emits_bind; [apply emits_emit; quiet|]. intros _.
  apply emits_try_catch; [|intros e; walk_emits quiet].
  apply emits_bind.
  { unfold removeExisting, noteUnlessUnmatched, console_log, rmSync, execSync.
    apply emits_bind; [apply emits_existsSync; quiet|]. intros [|]; [|apply emits_ret].
    cbv zeta.
    apply emits_bind; [apply emits_existsSync; quiet|]. intros isSubmodule.
    apply emits_bind; [walk_emits quiet|]. intros isRegistered.
    apply emits_bind; [walk_emits quiet|]. intros _.
    apply emits_bind; [apply emits_call; quiet|]. intros _.
    apply emits_bind; [apply emits_existsSync; quiet|]. intros ex'.
    apply emits_bind; [apply emits_when, emits_call; quiet|]. intros _.
    apply emits_bind; [apply emits_when, cleanupSubmodule_unprompted|]. intros _.
    apply emits_ret. }
  intros [isSubmodule isRegistered].
  apply emits_bind.
  { apply emits_when. unfold commitSubmoduleRemoval, console_log, execSync.
    walk_emits quiet. }
  intros _.
  apply emits_bind; [apply emits_call; quiet|]. intros _.
  apply emits_bind; [apply copyRecursive_unprompted|]. intros _.
  apply emits_bind; [|intros _; apply emits_emit; quiet].
  unfold verifyCopied, ensureGitDirectoryRemoved, spinner, console_error. cbv zeta.
  apply emits_bind; [apply removeGitDirectory_unprompted|]. intros removed.
  walk_emits quiet.
Qed.

Lemma getCurrentBranch_unprompted repoDir :
  emits unprompted (getCurrentBranch sys repoDir).
Proof. apply getCurrentBranch_emits; quiet. Qed.

Lemma pullLoop_unprompted localRepoDir branches :
  emits unprompted (pullLoop sys localRepoDir branches).
Proof.
  induction branches as [|b rest IH]; cbn [pullLoop]; [apply emits_ret|].
  apply emits_bind; [|intros []; [apply emits_ret | exact IH]].
  unfold sanitizeBranchName, console_warn, execSync. walk_emits quiet.
Qed.

Lemma prepareRepository_unprompted repoUrl reposDir localRepoDir :
  emits unprompted (prepareRepository sys repoUrl reposDir localRepoDir).
Proof.
  unfold prepareRepository.
  apply emits_bind; [apply emits_existsSync; quiet|]. intros ex.
  destruct (negb ex).
  - unfold spinner, console_error, mkdirSync, execSync. walk_emits quiet.
  - unfold spinner.
    apply emits_bind; [apply emits_emit; quiet|]. intros _.
    apply emits_try_catch; [|intros e; apply emits_emit; quiet].
    unfold execSync.
    apply emits_bind; [apply emits_call; quiet|]. intros _.
    apply emits_bind; [apply getCurrentBranch_unprompted|]. intros cur.
    apply emits_bind; [apply pullLoop_unprompted|]. intros []; apply emits_emit; quiet.
Qed.

Lemma pushLoop_unprompted repoDir cur branches le :
  emits unprompted (pushLoop sys repoDir cur branches le).
Proof.
  revert le. induction branches as [|b rest IH]; intros le; cbn [pushLoop];
    [apply emits_ret|].
  apply emits_bind;
    [|intros [|e|e]; [apply emits_ret | apply IH | apply emits_ret]].
  unfold pushAttempt, sanitizeBranchName, console_warn, execSync. walk_emits quiet.
Qed.

Lemma pushToRemote_unprompted repoDir skillNames :
  emits unprompted (pushToRemote sys repoDir skillNames).
Proof.
  unfold pushToRemote.
  unfold spinner at 1.
  apply emits_bind; [apply emits_emit; quiet|]. intros _.
  apply emits_bind.
  { unfold spinner, console_log, console_error, execSync. walk_emits quiet. }
  intros _.
  apply emits_bind; [apply getCurrentBranch_unprompted|]. intros cur.
  apply emits_bind; [apply emits_emit; quiet|]. intros _.
  apply emits_bind; [apply pushLoop_unprompted|]. intros [[] le].
  - unfold reportPushSuccess, spinner, console_log. walk_emits quiet.
  - unfold reportPushFailure, pushHint, spinner, console_error. walk_emits quiet.
Qed.

(** X14: With [--yes] the upload (lines 464-932) never waits for an answer:
    whatever the mirror holds and whatever git does, no question is put to
    the operator. *)
Theorem upload_yes_never_prompts (skills : list skill) (repoUrl repoName : string)
    (options : UploadOptions) :
  yes options = true ->
  emits unprompted (uploadToRepository sys skills repoUrl repoName options).
Proof.
  intros Hyes. unfold uploadToRepository, console_error.
  destruct (negb (isValidRepoName repoName)); [walk_emits quiet|].
  destruct (negb (isValidGitUrl repoUrl)); [walk_emits quiet|].
  cbv zeta.
  apply emits_bind; [apply prepareRepository_unprompted|]. intros _.
  apply emits_bind; [apply emits_call; quiet|]. intros _.
  apply emits_bind.
  { apply emits_for_of. intros sk. unfold processSkill, console_error.
    destruct (negb (isValidSkillName (name sk))); [walk_emits quiet|].
    cbv zeta. apply emits_bind.
    - unfold confirmOverwrite. rewrite Hyes.
      apply emits_bind; [apply emits_existsSync; quiet|]. intros ex.
      rewrite andb_false_r. apply emits_ret.
    - intros []; [apply copySkill_unprompted | apply emits_ret]. }
  intros _. unfold publishStaged. cbv zeta.
  apply emits_bind.
  { unfold ensureCleanBeforeAdd. apply emits_for_of. intros sk. cbv zeta.
    apply emits_bind; [apply removeGitDirectory_unprompted|]. intros removed.
    walk_emits quiet. }
  intros _. apply emits_bind.
  { unfold stageAll, spinner, console_error.
    apply emits_bind; [apply emits_emit; quiet|]. intros _.
    apply emits_try_catch; [|intros e; walk_emits quiet].
    apply emits_bind; [|intros _; unfold execSync; walk_emits quiet].
    apply emits_for_of. intros sk. unfold stageSkill. cbv zeta.
    apply emits_bind; [apply removeGitDirectory_unprompted|]. intros removed.
    unfold console_error, execSync. walk_emits quiet. }
  intros _. apply emits_bind.
  { unfold checkChanges, spinner, console_error, console_log, execSync.
    walk_emits quiet. }
  intros changed. destruct (negb changed); [apply emits_ret|].
  apply emits_bind.
  { unfold commitChanges, commitErrorDetails, spinner, console_error, console_log,
      execSync. walk_emits quiet. }
  intros committed. destruct (negb committed); [apply emits_ret|].
  apply pushToRemote_unprompted.
Qed.

End Unattended.

Lemma upload_yes_never_prompts_witness :
  emits unprompted
    (uploadToRepository (Sim.sys Posix) [demo] example_url "origin"
       (mkOptions None None true)).
Proof. apply upload_yes_never_prompts. reflexivity. Defined.

(** ** The upload stays in the mirror *)

Ltac in_mirror :=
  solve [ exact I
        | intros; exact I
        | cbn; repeat first [ assumption | apply within_root | apply within_join ]
        | cbn; right; repeat first [ assumption | apply within_root | apply within_join ]
        | cbn; left; reflexivity
        | cbn; right; split; reflexivity ].

Section Mirror.

Context {W : Type} (sys : Sys W).
Variables repoUrl reposDir root : string.

Local Notation "'MIRROR'" := (mirror_event sys repoUrl reposDir root).

Lemma below_within (dest p : string) :
  within sys root dest -> below sys dest p -> within sys root p.
Proof.
  intros Hd Hb. induction Hb as [n Hn | d n Hb IH Hn].
  - apply within_join. exact Hd.
  - apply within_join. exact IH.
Qed.

Lemma copyRecursive_mirror stack src dest :
  within sys root dest -> emits MIRROR (copyRecursive sys stack src dest).
Proof.
  intros Hd. eapply emits_mono; [|apply copyRecursive_emits].
  intros e H. destruct e; cbn in H |- *; try exact I; try contradiction.
  - right. eapply below_within; eauto.
  - eapply below_within; eauto.
Qed.

Lemma removeLoop_mirror left gitPath :
  within sys root gitPath -> emits MIRROR (removeLoop sys left gitPath).
Proof.
  intros Hin. induction left as [|left IH]; cbn [removeLoop]; [apply emits_ret|].
  apply emits_bind; [|intros []; [apply emits_ret | exact IH]].
  unfold removeAttempt, rmSync. walk_emits in_mirror.
Qed.

Lemma removeGitDirectory_mirror gitPath skillName context :
  within sys root gitPath ->
  emits MIRROR (removeGitDirectory sys gitPath skillName context).
Proof.
  intros Hin. unfold removeGitDirectory, console_log, console_error.
  apply emits_bind; [apply emits_existsSync; in_mirror|]. intros ex.
  destruct (negb ex); [apply emits_ret|].
  apply emits_bind; [apply emits_emit; in_mirror|]. intros _.
  apply emits_bind; [apply removeLoop_mirror; exact Hin|]. intros removed.
  walk_emits in_mirror.
Qed.

Lemma cleanupSubmodule_mirror skillName :
  emits MIRROR (cleanupSubmodule sys root skillName).
Proof.
  unfold cleanupSubmodule, console_log, rmSync, readFileSync, writeFileSync, execSync,
    readdirSync.
  walk_emits in_mirror.
Qed.

Lemma copySkill_mirror targetSkillDir sk :
  within sys root targetSkillDir ->
  emits MIRROR (copySkill sys root targetSkillDir sk).
Proof.
  intros Hin. unfold copySkill, spinner, console_error.
  apply emits_bind; [apply emits_emit; in_mirror|]. intros _.
  apply emits_try_catch; [|intros e; walk_emits in_mirror].
  apply emits_bind.
  { unfold removeExisting, noteUnlessUnmatched, console_log, rmSync, execSync.
    apply emits_bind; [apply emits_existsSync; in_mirror|]. intros [|]; [|apply emits_ret].
    cbv zeta.
    apply emits_bind; [apply emits_existsSync; in_mirror|]. intros isSubmodule.
    apply emits_bind; [walk_emits in_mirror|]. intros isRegistered.
    apply emits_bind; [walk_emits in_mirror|]. intros _.
    apply emits_bind; [apply emits_call; in_mirror|]. intros _.
    apply emits_bind; [apply emits_existsSync; in_mirror|]. intros ex'.
    apply emits_bind; [apply emits_when, emits_call; in_mirror|]. intros _.
    apply emits_bind; [apply emits_when, cleanupSubmodule_mirror|]. intros _.
    apply emits_ret. }
  intros [isSubmodule isRegistered].
  apply emits_bind.
  { apply emits_when. unfold commitSubmoduleRemoval, console_log, execSync.
    walk_emits in_mirror. }
  intros _.
  apply emits_bind; [apply emits_call; in_mirror|]. intros _.
  apply emits_bind; [apply copyRecursive_mirror; exact Hin|]. intros _.
  apply emits_bind; [|intros _; apply emits_emit; in_mirror].
  unfold verifyCopied, ensureGitDirectoryRemoved, spinner, console_error. cbv zeta.
  apply emits_bind; [apply removeGitDirectory_mirror; in_mirror|]. intros removed.
  walk_emits in_mirror.
Qed.

Lemma getCurrentBranch_mirror : emits MIRROR (getCurrentBranch sys root).
Proof. apply getCurrentBranch_emits; in_mirror. Qed.

Lemma pullLoop_mirror branches : emits MIRROR (pullLoop sys root branches).
Proof.
  induction branches as [|b rest IH]; cbn [pullLoop]; [apply emits_ret|].
  apply emits_bind; [|intros []; [apply emits_ret | exact IH]].
  unfold sanitizeBranchName, console_warn, execSync. walk_emits in_mirror.
Qed.

Lemma prepareRepository_mirror :
  emits MIRROR (prepareRepository sys repoUrl reposDir root).
Proof.
  unfold prepareRepository.
  apply emits_bind; [apply emits_existsSync; in_mirror|]. intros ex.
  destruct (negb ex).
  - unfold spinner, console_error, mkdirSync, execSync. walk_emits in_mirror.
  - unfold spinner.
    apply emits_bind; [apply emits_emit; in_mirror|]. intros _.
    apply emits_try_catch; [|intros e; apply emits_emit; in_mirror].
    unfold execSync.
    apply emits_bind; [apply emits_call; in_mirror|]. intros _.
    apply emits_bind; [apply getCurrentBranch_mirror|]. intros cur.
    apply emits_bind; [apply pullLoop_mirror|]. intros []; apply emits_emit; in_mirror.
Qed.

Lemma pushLoop_mirror cur branches le : emits MIRROR (pushLoop sys root cur branches le).
Proof.
  revert le. induction branches as [|b rest IH]; intros le; cbn [pushLoop];
    [apply emits_ret|].
  apply emits_bind;
    [|intros [|e|e]; [apply emits_ret | apply IH | apply emits_ret]].
  unfold pushAttempt, sanitizeBranchName, console_warn, execSync. walk_emits in_mirror.
Qed.

Lemma pushToRemote_mirror skillNames : emits MIRROR (pushToRemote sys root skillNames).
Proof.
  unfold pushToRemote.
  unfold spinner at 1.
  apply emits_bind; [apply emits_emit; in_mirror|]. intros _.
  apply emits_bind.
  { unfold spinner, console_log, console_error, execSync. walk_emits in_mirror. }
  intros _.
  apply emits_bind; [apply getCurrentBranch_mirror|]. intros cur.
  apply emits_bind; [apply emits_emit; in_mirror|]. intros _.
  apply emits_bind; [apply pushLoop_mirror|]. intros [[] le].
  - unfold reportPushSuccess, spinner, console_log. walk_emits in_mirror.
  - unfold reportPushFailure, pushHint, spinner, console_error. walk_emits in_mirror.
Qed.

Lemma publishStaged_mirror options skills :
  emits MIRROR (publishStaged sys options root skills).
Proof.
  unfold publishStaged. cbv zeta.
  apply emits_bind.
  { unfold ensureCleanBeforeAdd. apply emits_for_of. intros sk. cbv zeta.
    apply emits_bind; [apply removeGitDirectory_mirror; in_mirror|]. intros removed.
    walk_emits in_mirror. }
  intros _. apply emits_bind.
  { unfold stageAll, spinner, console_error.
    apply emits_bind; [apply emits_emit; in_mirror|]. intros _.
    apply emits_try_catch; [|intros e; walk_emits in_mirror].
    apply emits_bind; [|intros _; unfold execSync; walk_emits in_mirror].
    apply emits_for_of. intros sk. unfold stageSkill. cbv zeta.
    apply emits_bind; [apply removeGitDirectory_mirror; in_mirror|]. intros removed.
    unfold console_error, execSync. walk_emits in_mirror. }
  intros _. apply emits_bind.
  { unfold checkChanges, spinner, console_error, console_log, execSync.
    walk_emits in_mirror. }
  intros changed. destruct (negb changed); [apply emits_ret|].
  apply emits_bind.
  { unfold commitChanges, commitErrorDetails, spinner, console_error, console_log,
      execSync. walk_emits in_mirror. }
  intros committed. destruct (negb committed); [apply emits_ret|].
  apply pushToRemote_mirror.
Qed.

End Mirror.

Section Mirror_upload.

Context {W : Type} (sys : Sys W).

(** X29: The upload (lines 464-932) stays in the local mirror of the
    repository: whatever it removes, writes or copies to is at a path
    made by joining names onto the mirror directory; the directories it
    makes are there too, or are the directory that keeps the mirrors; and
    every command it runs, the clone apart, runs with the mirror as its
    working directory.  The directory a skill is copied from is only
    read. *)
Theorem upload_stays_in_mirror (skills : list skill) (repoUrl repoName : string)
    (options : UploadOptions) :
  emits (mirror_event sys repoUrl
           (join sys [sys_homedir W sys; ".openskills"; "repos"])
           (mirrorDir sys repoName))
        (uploadToRepository sys skills repoUrl repoName options).
Proof.
  unfold uploadToRepository, mirrorDir, console_error.
  set (reposDir := join sys [sys_homedir W sys; ".openskills"; "repos"]).
  set (root := join sys [reposDir; or_else (last_segment repoName) repoName]).
  destruct (negb (isValidRepoName repoName)); [walk_emits in_mirror|].
  destruct (negb (isValidGitUrl repoUrl)); [walk_emits in_mirror|].
  cbv zeta.
  apply emits_bind; [apply prepareRepository_mirror|]. intros _.
  apply emits_bind; [apply emits_call; in_mirror|]. intros _.
  apply emits_bind; [|intros _; apply publishStaged_mirror].
  apply emits_for_of. intros sk. unfold processSkill, console_error.
  destruct (negb (isValidSkillName (name sk))); [walk_emits in_mirror|].
  cbv zeta. apply emits_bind.
  - unfold confirmOverwrite, console_log, confirm. walk_emits in_mirror.
  - intros []; [apply copySkill_mirror; in_mirror | apply emits_ret].
Qed.

End Mirror_upload.

(** ** The commands of the upload *)

Ltac listed :=
  solve [ exact I
        | intros; exact I
        | red; econstructor; solve [ eassumption | reflexivity ]
        | red; econstructor ].

Section Inventory_laws.

Context {W : Type}.

Lemma emits_for_of_In {A} (P : event -> Prop) (xs : list A) (body : A -> M W unit) :
  (forall x, In x xs -> emits P (body x)) -> emits P (for_of xs body).
Proof.
  induction xs as [|x xs IH]; intros H; [apply emits_ret|].
  cbn [for_of]. apply emits_bind; [apply H; now left|].
  intros _. apply IH. intros y Hy. apply H. now right.
Qed.

End Inventory_laws.

Section Inventory_proofs.

Context {W : Type} (sys : Sys W).
Variable skills : list skill.
Variable options : UploadOptions.
Variables repoUrl root : string.

Local Notation "'LISTED'" := (command_event sys skills options repoUrl root).

Lemma removeLoop_listed left gitPath : emits LISTED (removeLoop sys left gitPath).
Proof.
  induction left as [|left IH]; cbn [removeLoop]; [apply emits_ret|].
  apply emits_bind; [|intros []; [apply emits_ret | exact IH]].
  unfold removeAttempt, rmSync. walk_emits listed.
Qed.

Lemma removeGitDirectory_listed gitPath skillName context :
  emits LISTED (removeGitDirectory sys gitPath skillName context).
Proof.
  unfold removeGitDirectory, console_log, console_error.
  apply emits_bind; [apply emits_existsSync; listed|]. intros ex.
  destruct (negb ex); [apply emits_ret|].
  apply emits_bind; [apply emits_emit; listed|]. intros _.
  apply emits_bind; [apply removeLoop_listed|]. intros removed.
  walk_emits listed.
Qed.

Lemma copyRecursive_listed stack src dest :
  emits LISTED (copyRecursive sys stack src dest).
Proof.
  eapply emits_mono; [|apply copyRecursive_emits].
  intros e H. destruct e; cbn in H |- *; solve [exact I | contradiction].
Qed.

Lemma cleanupSubmodule_listed skillName :
  emits LISTED (cleanupSubmodule sys root skillName).
Proof.
  unfold cleanupSubmodule, console_log, rmSync, readFileSync, writeFileSync, execSync,
    readdirSync.
  walk_emits listed.
Qed.

Lemma copySkill_listed targetSkillDir sk :
  In sk skills -> emits LISTED (copySkill sys root targetSkillDir sk).
Proof.
  intros Hin. unfold copySkill, spinner, console_error.
  apply emits_bind; [apply emits_emit; listed|]. intros _.
  apply emits_try_catch; [|intros e; walk_emits listed].
  apply emits_bind.
  { unfold removeExisting, noteUnlessUnmatched, console_log, rmSync, execSync.
    fold (skill_path sys sk).
    apply emits_bind; [apply emits_existsSync; listed|]. intros [|]; [|apply emits_ret].
    cbv zeta.
    apply emits_bind; [apply emits_existsSync; listed|]. intros isSubmodule.
    apply emits_bind; [walk_emits listed|]. intros isRegistered.
    apply emits_bind; [walk_emits listed|]. intros _.
    apply emits_bind; [apply emits_call; listed|]. intros _.
    apply emits_bind; [apply emits_existsSync; listed|]. intros ex'.
    apply emits_bind; [apply emits_when, emits_call; listed|]. intros _.
    apply emits_bind; [apply emits_when, cleanupSubmodule_listed|]. intros _.
    apply emits_ret. }
  intros [isSubmodule isRegistered].
  apply emits_bind.
  { apply emits_when. unfold commitSubmoduleRemoval, console_log, execSync.
    walk_emits listed. }
  intros _.
  apply emits_bind; [apply emits_call; listed|]. intros _.
  apply emits_bind; [apply copyRecursive_listed|]. intros _.
  apply emits_bind; [|intros _; apply emits_emit; listed].
  unfold verifyCopied, ensureGitDirectoryRemoved, spinner, console_error. cbv zeta.
  apply emits_bind; [apply removeGitDirectory_listed|]. intros removed.
  walk_emits listed.
Qed.

Lemma getCurrentBranch_listed : emits LISTED (getCurrentBranch sys root).
Proof. apply getCurrentBranch_emits; listed. Qed.

Lemma pullLoop_listed branches : emits LISTED (pullLoop sys root branches).
Proof.
  induction branches as [|b rest IH]; cbn [pullLoop]; [apply emits_ret|].
  apply emits_bind; [|intros []; [apply emits_ret | exact IH]].
  apply emits_try_catch; [|intros e; apply emits_ret].
  apply emits_sanitized; [intros w; exact I|]. intros safe Hsafe.
  unfold execSync. walk_emits listed.
Qed.

Lemma prepareRepository_listed reposDir :
  emits LISTED (prepareRepository sys repoUrl reposDir root).
Proof.
  unfold prepareRepository.
  apply emits_bind; [apply emits_existsSync; listed|]. intros ex.
  destruct (negb ex).
  - unfold spinner, console_error, mkdirSync, execSync. walk_emits listed.
  - unfold spinner.
    apply emits_bind; [apply emits_emit; listed|]. intros _.
    apply emits_try_catch; [|intros e; apply emits_emit; listed].
    unfold execSync.
    apply emits_bind; [apply emits_call; listed|]. intros _.
    apply emits_bind; [apply getCurrentBranch_listed|]. intros cur.
    apply emits_bind; [apply pullLoop_listed|]. intros []; apply emits_emit; listed.
Qed.

Lemma pushLoop_listed cur branches le :
  emits LISTED (pushLoop sys root cur branches le).
Proof.
  revert le. induction branches as [|b rest IH]; intros le; cbn [pushLoop];
    [apply emits_ret|].
  apply emits_bind;
    [|intros [|e|e]; [apply emits_ret | apply IH | apply emits_ret]].
  unfold pushAttempt.
  apply emits_try_catch; [|intros e; walk_emits listed].
  apply emits_sanitized; [intros w; exact I|]. intros safe Hsafe.
  unfold execSync. destruct (String.eqb b cur); walk_emits listed.
Qed.

Lemma pushToRemote_listed skillNames :
  emits LISTED (pushToRemote sys root skillNames).
Proof.
  unfold pushToRemote.
  unfold spinner at 1.
  apply emits_bind; [apply emits_emit; listed|]. intros _.
  apply emits_bind.
  { unfold spinner, console_log, console_error, execSync. walk_emits listed. }
  intros _.
  apply emits_bind; [apply getCurrentBranch_listed|]. intros cur.
  apply emits_bind; [apply emits_emit; listed|]. intros _.
  apply emits_bind; [apply pushLoop_listed|]. intros [[] le].
  - unfold reportPushSuccess, spinner, console_log. walk_emits listed.
  - unfold reportPushFailure, pushHint, spinner, console_error. walk_emits listed.
Qed.

Lemma publishStaged_listed :
  emits LISTED (publishStaged sys options root skills).
Proof.
  unfold publishStaged. cbv zeta.
  apply emits_bind.
  { unfold ensureCleanBeforeAdd. apply emits_for_of. intros sk. cbv zeta.
    apply emits_bind; [apply removeGitDirectory_listed|]. intros removed.
    walk_emits listed. }
  intros _. apply emits_bind.
  { unfold stageAll, spinner, console_error.
    apply emits_bind; [apply emits_emit; listed|]. intros _.
    apply emits_try_catch; [|intros e; walk_emits listed].
    apply emits_bind; [|intros _; unfold execSync; walk_emits listed].
    apply emits_for_of_In. intros sk Hin. unfold stageSkill. cbv zeta.
    fold (skill_path sys sk).
    apply emits_bind; [apply removeGitDirectory_listed|]. intros removed.
    unfold console_error, execSync. walk_emits listed. }
  intros _. apply emits_bind.
  { unfold checkChanges, spinner, console_error, console_log, execSync.
    walk_emits listed. }
  intros changed. destruct (negb changed); [apply emits_ret|].
  apply emits_bind.
  { unfold commitChanges, commitErrorDetails, spinner, console_error, console_log,
      execSync. walk_emits listed. }
  intros committed. destruct (negb committed); [apply emits_ret|].
  apply pushToRemote_listed.
Qed.

End Inventory_proofs.

Section Inventory_upload.

Context {W : Type} (sys : Sys W).

(** X30: The upload (lines 464-1040) runs git and nothing else, and of git only
    these: the clone of the given URL into the mirror, [fetch], the query
    for the current branch, [pull] and [push] of branches with valid
    names, the listing, unstaging and staging of the paths of the given
    skills, [status], the two commits, and the query for the remote. *)
Theorem upload_commands (skills : list skill) (repoUrl repoName : string)
    (options : UploadOptions) :
  emits (command_event sys skills options repoUrl (mirrorDir sys repoName))
        (uploadToRepository sys skills repoUrl repoName options).
Proof.
  unfold uploadToRepository, mirrorDir, console_error.
  set (reposDir := join sys [sys_homedir W sys; ".openskills"; "repos"]).
  set (root := join sys [reposDir; or_else (last_segment repoName) repoName]).
  destruct (negb (isValidRepoName repoName)); [walk_emits listed|].
  destruct (negb (isValidGitUrl repoUrl)); [walk_emits listed|].
  cbv zeta.
  apply emits_bind; [apply prepareRepository_listed|]. intros _.
  apply emits_bind; [apply emits_call; listed|]. intros _.
  apply emits_bind; [|intros _; apply publishStaged_listed].
  apply emits_for_of_In. intros sk Hin. unfold processSkill, console_error.
  destruct (negb (isValidSkillName (name sk))); [walk_emits listed|].
  cbv zeta. apply emits_bind.
  - unfold confirmOverwrite, console_log, confirm. walk_emits listed.
  - intros []; [apply copySkill_listed; exact Hin | apply emits_ret].
Qed.

End Inventory_upload.

(** ** The repository configuration, read and written *)

Section Config_properties.

Context {W : Type} (sys : Sys W).
Variable sortByName : list json -> reply (list json).
Variable stringify : json -> string.
Variable now : W -> string.

Lemma has_name_truthy (name : string) (r : json) :
  has_name name r = true -> json_truthy (Some r) = true.
Proof. destruct r; cbn; solve [discriminate | reflexivity]. Qed.

Lemma named_run (name : string) (r : json) (s : state W) :
  r <> JNull -> @Config.named W name r s = (Ret (has_name name r), s).
Proof. destruct r; intros H; solve [reflexivity | destruct H; reflexivity]. Qed.

Lemma array_find_run (name : string) (items : list json) (s : state W) :
  Config.array_find (Config.named name) items s
  = (Ret (List.find (has_name name) items), s)
  \/ (In JNull items /\
      exists e, Config.array_find (Config.named name) items s = (Throw e, s)).
Proof.
  induction items as [|r items IH]; [now left|].
  cbn [Config.array_find List.find]. rewrite bind_run.
  destruct r as [|b|m x|t|l|fields];
    try (rewrite named_run by discriminate;
         destruct (has_name name _) eqn:Hn; [now left|];
         destruct IH as [IH | [Hin [e He]]];
           [left; exact IH | right; split; [now right | exists e; exact He]]).
  right. split; [now left|]. eexists. reflexivity.
Qed.

Lemma array_some_run (name : string) (items : list json) (s : state W) :
  Config.array_some (Config.named name) items s
  = (Ret (existsb (has_name name) items), s)
  \/ (In JNull items /\
      exists e, Config.array_some (Config.named name) items s = (Throw e, s)).
Proof.
  induction items as [|r items IH]; [now left|].
  cbn [Config.array_some existsb]. rewrite bind_run.
  destruct r as [|b|m x|t|l|fields];
    try (rewrite named_run by discriminate;
         destruct (has_name name _) eqn:Hn; [now left|];
         destruct IH as [IH | [Hin [e He]]];
           [left; exact IH | right; split; [now right | exists e; exact He]]).
  right. split; [now left|]. eexists. reflexivity.
Qed.

Lemma array_filter_run (name : string) (items : list json) (s : state W) :
  Config.array_filter (fun repo => bind (Config.named name repo) (fun b => ret (negb b)))
    items s
  = (Ret (List.filter (fun r => negb (has_name name r)) items), s)
  \/ (In JNull items /\
      exists e, Config.array_filter
                  (fun repo => bind (Config.named name repo) (fun b => ret (negb b)))
                  items s = (Throw e, s)).
Proof.
  set (p := fun repo => bind (Config.named name repo) (fun b => ret (negb b))).
  induction items as [|r items IH]; [now left|].
  cbn [Config.array_filter List.filter].
  destruct (json_is_null r) eqn:Hnull.
  - destruct r; try discriminate Hnull.
    right. split; [now left|]. eexists. reflexivity.
  - assert (Hr : r <> JNull) by (intros ->; discriminate Hnull).
    assert (Hp : p r s = (Ret (negb (has_name name r)), s)).
    { unfold p. rewrite bind_run, (named_run name r s Hr). reflexivity. }
    rewrite bind_run, Hp, bind_run.
    destruct IH as [IH | [Hin [e He]]].
    + left. rewrite IH. destruct (negb (has_name name r)); reflexivity.
    + right. split; [now right|]. exists e. rewrite He. reflexivity.
Qed.

(** X15: [getRepository] (config.ts, 109-112) answers the first stored entry of
    that name, and [null] when there is none; it leaves the world as it is;
    it raises only where the stored array holds a [null]. *)
Theorem getRepository_finds (name : string) (s : state W) :
  exists s', world s' = world s /\
    (Config.getRepository sys name s
     = (Ret (List.find (has_name name) (stored sys (world s))), s')
     \/ (In JNull (stored sys (world s)) /\
         exists e, Config.getRepository sys name s = (Throw e, s'))).
Proof.
  unfold Config.getRepository, stored.
  destruct (loadRepositories_run sys s) as [s1 [Hload Hw]].
  exists s1. split; [exact Hw|].
  rewrite bind_run, Hload.
  destruct (array_find_run name
              (match config_array sys (world s) with Some l => l | None => [] end) s1)
    as [Hf | [Hin [e He]]].
  - left. rewrite bind_run, Hf. cbn [ret]. f_equal.
    destruct (List.find (has_name name) _) as [r|] eqn:Hfind; [|reflexivity].
    apply find_some in Hfind. destruct Hfind as [_ Hn].
    now rewrite (has_name_truthy _ _ Hn).
  - right. split; [exact Hin|]. exists e. rewrite bind_run, He. reflexivity.
Qed.

(** X16: [addRepository] (config.ts, 66-87) refuses a name that is already
    stored and a URL that is no git URL: it raises, with the message that
    says which, and the world is left as it was, nothing written. *)
Theorem addRepository_rejects (name url : string) (s : state W) :
  existsb (has_name name) (stored sys (world s)) = true
  \/ Config.isValidGitUrl url = false ->
  exists e s',
    Config.addRepository sys sortByName stringify now name url s = (Throw e, s') /\
    world s' = world s /\
    (~ In JNull (stored sys (world s)) ->
     e = Error (if existsb (has_name name) (stored sys (world s))
                then "Repository '" ++ name ++ "' already exists"
                else "Invalid Git URL: " ++ url)).
Proof.
  intros Hwhy. unfold Config.addRepository, stored in *.
  destruct (loadRepositories_run sys s) as [s1 [Hload Hw]].
  rewrite bind_run, Hload.
  destruct (array_some_run name
              (match config_array sys (world s) with Some l => l | None => [] end) s1)
    as [Hs | [Hin [e He]]].
  - rewrite bind_run, Hs.
    destruct (existsb (has_name name) _) eqn:Hex.
    + eexists. exists s1. split; [reflexivity|]. split; [exact Hw | reflexivity].
    + destruct Hwhy as [Hwhy | Hurl]; [discriminate Hwhy|].
      rewrite Hurl. cbn [negb].
      eexists. exists s1. split; [reflexivity|]. split; [exact Hw | reflexivity].
  - exists e, s1. rewrite bind_run, He. split; [reflexivity|].
    split; [exact Hw | intros Hno; destruct (Hno Hin)].
Qed.

(** X17: Where the name is new and the URL is a git URL, [addRepository] saves
    the stored entries, all of them and in their order, followed by the
    new entry with the time of the call. *)
Theorem addRepository_appends (name url : string) (s : state W) :
  ~ In JNull (stored sys (world s)) ->
  existsb (has_name name) (stored sys (world s)) = false ->
  Config.isValidGitUrl url = true ->
  exists s1, world s1 = world s /\
    Config.addRepository sys sortByName stringify now name url s
    = Config.saveRepositories sys sortByName stringify
        (stored sys (world s) ++ [new_entry name url (now (world s))])%list s1.
Proof.
  intros Hno Hnew Hurl. unfold Config.addRepository, stored in *.
  destruct (loadRepositories_run sys s) as [s1 [Hload Hw]].
  exists s1. split; [exact Hw|].
  rewrite bind_run, Hload.
  destruct (array_some_run name
              (match config_array sys (world s) with Some l => l | None => [] end) s1)
    as [Hs | [Hin _]]; [|destruct (Hno Hin)].
  rewrite bind_run, Hs, Hnew, Hurl. cbn [negb].
  rewrite bind_run. cbn beta iota. rewrite Hw. reflexivity.
Qed.

(** X18: [removeRepository] (config.ts, 92-104): where no stored entry has the
    name it answers [false] and writes nothing; otherwise it saves the
    stored entries without those of that name, every one of them, and
    answers [true]. *)
Theorem removeRepository_run (name : string) (s : state W) :
  ~ In JNull (stored sys (world s)) ->
  exists s1, world s1 = world s /\
    Config.removeRepository sys sortByName stringify name s
    = if existsb (has_name name) (stored sys (world s))
      then bind (Config.saveRepositories sys sortByName stringify
                   (List.filter (fun r => negb (has_name name r)) (stored sys (world s))))
                (fun _ => ret true) s1
      else (Ret false, s1).
Proof.
  intros Hno. unfold Config.removeRepository, stored in *.
  destruct (loadRepositories_run sys s) as [s1 [Hload Hw]].
  exists s1. split; [exact Hw|].
  rewrite bind_run, Hload. cbv zeta.
  destruct (array_filter_run name
              (match config_array sys (world s) with Some l => l | None => [] end) s1)
    as [Hf | [Hin _]]; [|destruct (Hno Hin)].
  rewrite bind_run, Hf.
  generalize (match config_array sys (world s) with Some l => l | None => [] end).
  intros items.
  assert (Hlen : (List.length (List.filter (fun r => negb (has_name name r)) items)
                  =? List.length items)%nat
                 = negb (existsb (has_name name) items)).
  { induction items as [|r items IH]; [reflexivity|].
    cbn [List.filter existsb List.length].
    destruct (has_name name r); cbn [negb orb List.length].
    - apply Nat.eqb_neq.
      pose proof (filter_length_le (fun r => negb (has_name name r)) items). lia.
    - exact IH. }
  rewrite Hlen. destruct (existsb (has_name name) items); reflexivity.
Qed.

Lemma emits_pure {A} (P : event -> Prop) (o : outcome A) :
  emits P (fun s : state W => (o, s)).
Proof. intros s. exists []. cbn. now rewrite app_nil_r. Qed.

(** X19: [saveRepositories] (config.ts, 52-61) touches nothing but the
    configuration: it looks for the directory, makes it where it is
    missing, and writes one file, the configuration file, whose text is
    the list sorted by the engine, serialised, and a newline; and when it
    returns the file has been written. *)
Theorem saveRepositories_writes (repositories : list json) :
  emits (save_event sys sortByName stringify repositories)
        (Config.saveRepositories sys sortByName stringify repositories)
  /\ forall s s',
       Config.saveRepositories sys sortByName stringify repositories s = (Ret tt, s') ->
       exists evs content,
         trace s' = (trace s ++ evs ++ [EvWriteFile (getConfigPath sys) content])%list.
Proof.
  assert (Hdir : emits (save_event sys sortByName stringify repositories)
                       (Config.ensureConfigDir sys)).
  { unfold Config.ensureConfigDir, mkdirSync. cbv zeta.
    apply emits_bind; [apply emits_existsSync; intros r; reflexivity|].
    intros ex. apply emits_when, emits_call. reflexivity. }
  split.
  - unfold Config.saveRepositories. cbv zeta.
    apply emits_bind; [exact Hdir|]. intros _ s.
    unfold bind, writeFileSync, call.
    destruct (sortByName repositories) as [sorted|e] eqn:Hsort; cbn [of_reply].
    + destruct (sys_writeFile W sys _ _ (world s)) as [r w']. cbn [snd trace].
      eexists. split; [reflexivity|]. constructor; [|constructor].
      split; [reflexivity|]. exists sorted. split; [exact Hsort | reflexivity].
    + exists []. cbn. now rewrite app_nil_r.
  - intros s s' Hrun. unfold Config.saveRepositories in Hrun. cbv zeta in Hrun.
    apply bind_Ret_inv in Hrun. destruct Hrun as [[] [s1 [Hd Hrun]]].
    destruct (Hdir s) as [evs [Ht _]]. rewrite Hd in Ht. cbn [snd] in Ht.
    apply bind_Ret_inv in Hrun. destruct Hrun as [sorted [s2 [Hs Hrun]]].
    destruct (sortByName repositories) as [sorted'|e]; [|discriminate Hs].
    injection Hs as <- <-.
    unfold writeFileSync, call in Hrun.
    destruct (sys_writeFile W sys _ _ (world s1)) as [[[]|e] w']; [|discriminate Hrun].
    injection Hrun as <-. cbn [trace]. rewrite Ht, <- app_assoc.
    eexists. eexists. reflexivity.
Qed.

End Config_properties.

(** ** The repo command *)

Section Repo_properties.

Context {W : Type} (sys : Sys W).
Variable sortByName : list json -> reply (list json).
Variable stringify : json -> string.
Variable now : W -> string.

Lemma exits_only_loadRepositories c0 : exits_only c0 (loadRepositories sys).
Proof.
  intros s c s' H. destruct (loadRepositories_run sys s) as [s1 [Hl _]]. congruence.
Qed.

Lemma exits_only_array_some c0 name items :
  exits_only c0 (@Config.array_some W (Config.named name) items).
Proof.
  intros s c s' H.
  destruct (array_some_run name items s) as [Hr | [_ [e Hr]]]; congruence.
Qed.

Lemma exits_only_array_filter c0 name items :
  exits_only c0 (@Config.array_filter W
                   (fun repo => bind (Config.named name repo) (fun b => ret (negb b))) items).
Proof.
  intros s c s' H.
  destruct (array_filter_run name items s) as [Hr | [_ [e Hr]]]; congruence.
Qed.

Lemma exits_only_saveRepositories c0 repositories :
  exits_only c0 (Config.saveRepositories sys sortByName stringify repositories).
Proof.
  unfold Config.saveRepositories, Config.ensureConfigDir, mkdirSync, writeFileSync.
  cbv zeta.
  apply exits_only_bind; [walk_exits'|]. intros _.
  apply exits_only_bind; [|intros sorted; apply exits_only_call].
  intros s c s' H. destruct (sortByName repositories); discriminate H.
Qed.

Lemma exits_only_addRepository c0 name url :
  exits_only c0 (Config.addRepository sys sortByName stringify now name url).
Proof.
  unfold Config.addRepository.
  apply exits_only_bind; [apply exits_only_loadRepositories|]. intros items.
  apply exits_only_bind; [apply exits_only_array_some|]. intros [|];
    [apply exits_only_throw|].
  destruct (negb (Config.isValidGitUrl url)); [apply exits_only_throw|].
  apply exits_only_bind; [intros s c s' H; discriminate H|]. intros addedAt.
  apply exits_only_saveRepositories.
Qed.

(** X20: [repo add] (repo.ts, 14-24) lets no exception out: it returns, or it
    ends the process with status 1. *)
Theorem addRepo_settles (name url : string) :
  settles 1 (Repo.addRepo sys sortByName stringify now name url).
Proof.
  apply settles_of.
  - unfold Repo.addRepo, console_error. walk_throws.
  - unfold Repo.addRepo, console_log, console_error.
    apply exits_only_try_catch; [|intros e; walk_exits'].
    apply exits_only_bind; [apply exits_only_addRepository|]. intros _. walk_exits'.
Qed.

Lemma addRepository_refusal (name url : string) (s : state W) :
  ~ In JNull (stored sys (world s)) ->
  existsb (has_name name) (stored sys (world s)) = true
  \/ Config.isValidGitUrl url = false ->
  exists s1,
    world s1 = world s /\
    Config.addRepository sys sortByName stringify now name url s
    = (Throw (Error (if existsb (has_name name) (stored sys (world s))
                     then "Repository '" ++ name ++ "' already exists"
                     else "Invalid Git URL: " ++ url)), s1).
Proof.
  intros Hno Hwhy. unfold Config.addRepository, stored in *.
  destruct (loadRepositories_run sys s) as [s1 [Hload Hw]].
  exists s1. split; [exact Hw|].
  rewrite bind_run, Hload.
  destruct (array_some_run name
              (match config_array sys (world s) with Some l => l | None => [] end) s1)
    as [Hs | [Hin _]]; [|destruct (Hno Hin)].
  rewrite bind_run, Hs.
  destruct (existsb (has_name name) _) eqn:Hex; [reflexivity|].
  destruct Hwhy as [Hwhy | Hurl]; [discriminate Hwhy|].
  rewrite Hurl. reflexivity.
Qed.

(** X21: [repo add] with a name that is already stored, or with a URL that is no
    git URL, reports [Error: Repository '<name>' already exists] or
    [Error: Invalid Git URL: <url>] and ends the process with status 1;
    the stored configuration is not touched. *)
Theorem addRepo_reports_refusal (name url : string) (s : state W) :
  ~ In JNull (stored sys (world s)) ->
  existsb (has_name name) (stored sys (world s)) = true
  \/ Config.isValidGitUrl url = false ->
  exists s1,
    world s1 = world s /\
    Repo.addRepo sys sortByName stringify now name url s
    = (Exit 1,
       mkState (world s)
         (trace s1 ++ [EvError ("Error: " ++
                                if existsb (has_name name) (stored sys (world s))
                                then "Repository '" ++ name ++ "' already exists"
                                else "Invalid Git URL: " ++ url)])).
Proof.
  intros Hno Hwhy.
  destruct (addRepository_refusal name url s Hno Hwhy) as [s1 [Hw Hrun]].
  exists s1. split; [exact Hw|].
  unfold Repo.addRepo, try_catch. rewrite bind_run, Hrun.
  cbn. rewrite Hw. reflexivity.
Qed.

Lemma getRepository_run (name : string) (s : state W) :
  ~ In JNull (stored sys (world s)) ->
  exists s1, world s1 = world s /\
    Config.getRepository sys name s
    = (Ret (List.find (has_name name) (stored sys (world s))), s1).
Proof.
  intros Hno. unfold Config.getRepository, stored in *.
  destruct (loadRepositories_run sys s) as [s1 [Hload Hw]].
  exists s1. split; [exact Hw|].
  rewrite bind_run, Hload.
  destruct (array_find_run name
              (match config_array sys (world s) with Some l => l | None => [] end) s1)
    as [Hf | [Hin _]]; [|destruct (Hno Hin)].
  rewrite bind_run, Hf. cbn [ret]. f_equal.
  destruct (List.find (has_name name) _) as [r|] eqn:Hfind; [|reflexivity].
  apply find_some in Hfind. destruct Hfind as [_ Hn].
  now rewrite (has_name_truthy _ _ Hn).
Qed.

Lemma find_existsb (name : string) (items : list json) :
  json_truthy (List.find (has_name name) items) = existsb (has_name name) items.
Proof.
  induction items as [|r items IH]; [reflexivity|].
  cbn [List.find existsb]. destruct (has_name name r) eqn:Hn; [|exact IH].
  cbn [orb]. exact (has_name_truthy name r Hn).
Qed.

(** X22: [repo remove] (repo.ts, 29-65) of a name that is not stored reports
    [Error: Repository '<name>' not found] and ends the process with status
    1, with or without [--yes]: nothing is asked and nothing is written. *)
Theorem removeRepo_unknown (name : string) (yes : bool) (s : state W) :
  ~ In JNull (stored sys (world s)) ->
  existsb (has_name name) (stored sys (world s)) = false ->
  exists s1,
    world s1 = world s /\
    Repo.removeRepo sys sortByName stringify name yes s
    = (Exit 1,
       mkState (world s)
         (trace s1 ++ [EvError ("Error: Repository '" ++ name ++ "' not found")])).
Proof.
  intros Hno Hnew. unfold Repo.removeRepo.
  destruct (getRepository_run name s Hno) as [s1 [Hw Hget]].
  exists s1. split; [exact Hw|].
  rewrite !bind_run, Hget, find_existsb, Hnew. cbn. rewrite Hw. reflexivity.
Qed.

(** X23: [repo remove] without [--yes] asks first, and unless the answer is yes
    the configuration is not written: on a refusal the command returns, on
    an interrupted prompt the process ends with status 0, and any other
    failure of the prompt is raised; the world is as the prompt left it. *)
Theorem removeRepo_unconfirmed (name : string) (s : state W) (r : reply bool) (w' : W) :
  ~ In JNull (stored sys (world s)) ->
  existsb (has_name name) (stored sys (world s)) = true ->
  sys_confirm W sys ("Remove repository '" ++ name ++ "'?") (world s) = (r, w') ->
  r <> Done true ->
  exists s',
    world s' = w' /\
    Repo.removeRepo sys sortByName stringify name false s
    = (match r with
       | Done _ => Ret tt
       | Raised e => if is_ExitPromptError e then Exit 0 else Throw e
       end, s').
Proof.
  intros Hno Hthere Hask Hnot. unfold Repo.removeRepo.
  destruct (getRepository_run name s Hno) as [s1 [Hw Hget]].
  rewrite !bind_run, Hget, find_existsb, Hthere.
  cbv beta iota zeta delta [negb when ret bind try_catch confirm call].
  rewrite Hw, Hask.
  destruct r as [[|]|e]; cbn.
  - destruct Hnot. reflexivity.
  - eexists. split; [|reflexivity]. reflexivity.
  - destruct (is_ExitPromptError e); cbn; eexists; (split; [|reflexivity]); reflexivity.
Qed.

End Repo_properties.

(** ** The installer: sources, conflicts and the search for skills *)

Lemma split_from_spec (sep : ascii) (s acc : string) :
  (includes (str sep) s = false /\ split_from sep acc s = [acc ++ s])
  \/ (exists a b, s = a ++ String sep b /\ includes (str sep) a = false
                  /\ split_from sep acc s = (acc ++ a) :: split_from sep EmptyString b).
Proof.
  revert acc. induction s as [|c s IH]; intros acc.
  - left. split; [reflexivity|]. cbn. now rewrite append_nil_r.
  - cbn [split_from includes startsWith str]. rewrite andb_true_r.
    rewrite (Ascii.eqb_sym sep c).
    destruct (Ascii.eqb c sep) eqn:Hc.
    + apply Ascii.eqb_eq in Hc. subst c. right.
      exists EmptyString, s. cbn. rewrite append_nil_r. auto.
    + cbn [orb]. destruct (IH (acc ++ str c)) as [[Hno Hs] | [a [b [Hs [Hno Hsp]]]]].
      * left. split; [exact Hno|]. rewrite Hs, append_assoc. reflexivity.
      * right. exists (String c a), b. subst s. split; [reflexivity|].
        split.
        -- cbn [includes startsWith str]. rewrite andb_true_r, (Ascii.eqb_sym sep c), Hc.
           exact Hno.
        -- rewrite Hsp, append_assoc. reflexivity.
Qed.

Lemma split_from_cons (sep : ascii) (s acc : string) :
  exists x rest, split_from sep acc s = x :: rest.
Proof.
  destruct (split_from_spec sep s acc) as [[_ H] | [a [b [_ [_ H]]]]];
    rewrite H; eauto.
Qed.

(** Joining what was split gives the text back. *)
Lemma join_split_from (sep : ascii) (s acc : string) :
  JsString.join (str sep) (split_from sep acc s) = acc ++ s.
Proof.
  revert acc. induction s as [|c s IH]; intros acc.
  - cbn. now rewrite append_nil_r.
  - cbn [split_from]. destruct (Ascii.eqb c sep) eqn:Hc.
    + apply Ascii.eqb_eq in Hc. subst c.
      destruct (split_from_cons sep s EmptyString) as [x [rest Hx]].
      specialize (IH EmptyString). rewrite Hx in *.
      change (JsString.join (str sep) (acc :: x :: rest))
        with (acc ++ str sep ++ JsString.join (str sep) (x :: rest)).
      rewrite IH. reflexivity.
    + rewrite IH, append_assoc. reflexivity.
Qed.

(** A text is cut at its first separator in one way only. *)
Lemma first_separator_unique (sep : ascii) (a a' b b' : string) :
  includes (str sep) a = false -> includes (str sep) a' = false ->
  a ++ String sep b = a' ++ String sep b' -> a = a' /\ b = b'.
Proof.
  revert a'. induction a as [|c a IH]; intros [|c' a'] Ha Ha' H.
  - cbn in H. injection H as ->. auto.
  - cbn in H. injection H as <- _. cbn in Ha'. rewrite Ascii.eqb_refl in Ha'. discriminate Ha'.
  - cbn in H. injection H as -> _. cbn in Ha. rewrite Ascii.eqb_refl in Ha. discriminate Ha.
  - cbn [append] in H. injection H as <- H.
    cbn [includes startsWith str] in Ha, Ha'.
    apply orb_false_iff in Ha. apply orb_false_iff in Ha'.
    destruct (IH a' (proj2 Ha) (proj2 Ha') H) as [-> ->]. auto.
Qed.

Section Installer_properties.

Context {W : Type} (sys : Sys W).

Variable cwd : string.
Variable resolve : string -> string.
Variable now : string.
Variable installFromLocal : string -> string -> Install.InstallOptions -> M W unit.
Variable installSpecificSkill
  : string -> string -> string -> bool -> Install.InstallOptions -> M W unit.
Variable installFromRepo : string -> string -> Install.InstallOptions -> M W unit.

Local Notation "'INSTALL'" :=
  (Install.installSkill sys cwd resolve now installFromLocal installSpecificSkill
     installFromRepo).
Local Notation "'FROM_GIT'" :=
  (Install.installFromGit sys now installSpecificSkill installFromRepo).

(** X24: [installSkill] (install.ts, 51-128) reads its source in this
    order.  A local path, one that starts with [/], [./], [../] or [~/], is
    never parsed: it is expanded and handed to [installFromLocal], and the
    hints are printed.  Otherwise a git URL is cloned as it is, with no
    subpath.  Otherwise the source is a GitHub shorthand.  Without a slash
    it is refused: two lines of error and status 1, nothing cloned.  With
    one it is [owner/repo] or [owner/repo/subpath], the repository cloned
    is [https://github.com/owner/repo], and the subpath is everything after
    the second slash, slashes included: nothing of the source is lost or
    reordered. *)
Theorem installSkill_sources (source : string) (options : Install.InstallOptions)
    (s : state W) :
  let folder := if Install.universal options then ".agent/skills" else ".claude/skills" in
  let isProject := negb (Install.global options) in
  let targetDir := if isProject then sys_join W sys [cwd; folder]
                   else sys_join W sys [sys_homedir W sys; folder] in
  let announced :=
    mkState (world s)
      (trace s ++ [EvLog ("Installing from: " ++ source);
                   EvLog ("Location: "
                          ++ (if isProject then "project (" ++ folder ++ ")"
                              else "global (~/" ++ folder ++ ")") ++ nl)]) in
  (Install.isLocalPath source = true ->
   INSTALL source options s
   = bind (installFromLocal (Install.expandPath sys resolve source) targetDir options)
          (fun _ => Install.printPostInstallHints isProject) announced) /\
  (Install.isLocalPath source = false -> Install.isGitUrl source = true ->
   INSTALL source options s
   = FROM_GIT source EmptyString targetDir isProject options announced) /\
  (Install.isLocalPath source = false -> Install.isGitUrl source = false ->
   (includes "/" source = false /\
    INSTALL source options s
    = (Exit 1,
       mkState (world s)
         (trace announced
          ++ [EvError "Error: Invalid source format";
              EvError "Expected: owner/repo, owner/repo/skill-name, git URL, or local path"])))
   \/ (exists owner repo sub,
         includes "/" owner = false /\ includes "/" repo = false /\
         (source = owner ++ "/" ++ repo /\ sub = EmptyString
          \/ source = owner ++ "/" ++ repo ++ "/" ++ sub) /\
         INSTALL source options s
         = FROM_GIT ("https://github.com/" ++ owner ++ "/" ++ repo) sub targetDir isProject
             options announced)).
Proof.
  cbv zeta.
  assert (Hhead : forall k : M W unit,
             bind (console_log ("Installing from: " ++ source)) (fun _ =>
             bind (console_log
                     ("Location: "
                      ++ (if negb (Install.global options)
                          then "project ("
                               ++ (if Install.universal options then ".agent/skills"
                                   else ".claude/skills") ++ ")"
                          else "global (~/"
                               ++ (if Install.universal options then ".agent/skills"
                                   else ".claude/skills") ++ ")") ++ nl))
                  (fun _ => k)) s
             = k (mkState (world s)
                    (trace s ++ [EvLog ("Installing from: " ++ source);
                                 EvLog ("Location: "
                                        ++ (if negb (Install.global options)
                                            then "project ("
                                                 ++ (if Install.universal options
                                                     then ".agent/skills"
                                                     else ".claude/skills") ++ ")"
                                            else "global (~/"
                                                 ++ (if Install.universal options
                                                     then ".agent/skills"
                                                     else ".claude/skills") ++ ")")
                                        ++ nl)]))).
  { intros k. unfold bind, console_log, emit. cbn [world trace].
    rewrite <- app_assoc. reflexivity. }
  split; [|split].
  - intros Hlocal. unfold Install.installSkill. cbv zeta. rewrite Hlocal.
    rewrite Hhead. reflexivity.
  - intros Hlocal Hgit. unfold Install.installSkill. cbv zeta. rewrite Hlocal, Hgit.
    rewrite Hhead. reflexivity.
  - intros Hlocal Hgit. unfold Install.installSkill. cbv zeta. rewrite Hlocal, Hgit.
    rewrite Hhead. unfold split_on.
    destruct (split_from_spec "/" source EmptyString)
      as [[Hno Hs] | [owner [rest [Hsrc [Hown Hs]]]]].
    + left. split; [exact Hno|]. rewrite Hs. cbn.
      rewrite <- !app_assoc. reflexivity.
    + right. cbn [append] in Hs.
      destruct (split_from_spec "/" rest EmptyString)
        as [[Hno Hr] | [repo [sub [Hrest [Hrep Hr]]]]].
      * exists owner, rest, EmptyString. rewrite Hs, Hr. cbn [append].
        split; [exact Hown|]. split; [exact Hno|]. subst source.
        split; [left; auto | reflexivity].
      * exists owner, repo, sub. cbn [append] in Hr. rewrite Hs, Hr.
        split; [exact Hown|]. split; [exact Hrep|].
        destruct (split_from_cons "/" sub EmptyString) as [x [more Hx]].
        pose proof (join_split_from "/" sub EmptyString) as Hjoin.
        rewrite Hx in *. cbn [append] in Hjoin.
        cbn [List.length Nat.eqb Nat.ltb Nat.leb nth_error interpolated skipn].
        change (str "/") with "/" in Hjoin. rewrite Hjoin.
        split; [right; subst source rest; reflexivity | reflexivity].
Qed.

End Installer_properties.

Section Install_properties.

Context {W : Type} (sys : Sys W).
Variable marketplace : list string.

(** X25: [warnIfConflict] (install.ts, 390-425) asks only where the target is
    there and the prompt is not skipped, and then does what the answer
    says: it answers [false] on a refusal and on nothing else, ends the
    process with status 0 when the prompt is interrupted, and lets any
    other failure of the prompt through.  In every other case it answers
    [true] and leaves the world as it is. *)
Theorem warnIfConflict_outcomes (skillName targetPath : string)
    (isProject skipPrompt : bool) (s : state W) :
  exists s',
    if sys_exists W sys targetPath (world s) && negb skipPrompt then
      exists r w',
        sys_confirm W sys ("Skill '" ++ skillName ++ "' already exists. Overwrite?")
          (world s) = (r, w') /\
        world s' = w' /\
        Install.warnIfConflict sys marketplace skillName targetPath isProject skipPrompt s
        = (match r with
           | Done answer => Ret answer
           | Raised e => if is_ExitPromptError e then Exit 0 else Throw e
           end, s')
    else
      world s' = world s /\
      Install.warnIfConflict sys marketplace skillName targetPath isProject skipPrompt s
      = (Ret true, s').
Proof.
  unfold Install.warnIfConflict, Install.confirmConflict.
  cbv beta iota zeta delta [bind existsSync try_catch confirm call].
  cbn [world trace append].
  destruct (sys_exists W sys targetPath (world s)); cbn [andb].
  - destruct skipPrompt; cbn [negb].
    + eexists. split; [|reflexivity]. reflexivity.
    + cbn [world trace]. destruct (sys_confirm W sys _ (world s)) as [r w'] eqn:Hask.
      destruct r as [[|]|e]; cbn.
      * destruct (negb isProject && existsb (String.eqb skillName) marketplace);
          cbn; eexists; exists (Done true), w'; (split; [reflexivity|]);
          (split; [|reflexivity]); reflexivity.
      * eexists; exists (Done false), w'; (split; [reflexivity|]);
          (split; [|reflexivity]); reflexivity.
      * destruct (is_ExitPromptError e) eqn:He; cbn;
          eexists; exists (Raised e), w'; (split; [reflexivity|]);
          rewrite He; (split; [|reflexivity]); reflexivity.
  - destruct (negb isProject && existsb (String.eqb skillName) marketplace);
      cbn; eexists; (split; [|reflexivity]); reflexivity.
Qed.

(** X26: The warning about the marketplace is printed for a global install of a
    listed name only. *)
Theorem marketplace_warning_is_global (skillName targetPath : string)
    (isProject skipPrompt : bool) :
  emits (fun e => match e with
                  | EvWarn _ => isProject = false /\ In skillName marketplace
                  | _ => True
                  end)
        (Install.warnIfConflict sys marketplace skillName targetPath isProject skipPrompt).
Proof.
  unfold Install.warnIfConflict, Install.confirmConflict, console_log, confirm.
  apply emits_bind.
  { walk_emits ltac:(solve [exact I | intros; exact I]). }
  intros [b|]; [apply emits_ret|].
  destruct (negb isProject && existsb (String.eqb skillName) marketplace) eqn:Hc;
    [|apply emits_bind; [apply emits_ret | intros _; apply emits_ret]].
  apply andb_true_iff in Hc. destruct Hc as [Hp Hm].
  assert (Hin : In skillName marketplace).
  { apply existsb_exists in Hm. destruct Hm as [x [Hx He]].
    apply String.eqb_eq in He. now subst. }
  assert (Hproj : isProject = false) by (destruct isProject; [discriminate Hp | reflexivity]).
  unfold console_warn. walk_emits ltac:(solve [split; assumption]).
Qed.

(** What the search for skills may answer and leave behind, from a world
    [w]: the world as it was, and directories that hold a [SKILL.md]. *)
Lemma gather_found (w : W) (entries : list dirent)
    (body : dirent -> M W (list string)) :
  (forall entry s, world s = w -> search_result sys w (body entry s)) ->
  forall s, world s = w -> search_result sys w (Install.gather entries body s).
Proof.
  intros Hbody. induction entries as [|entry rest IH]; intros s Hs.
  - cbn. auto.
  - cbn [Install.gather]. rewrite bind_run.
    pose proof (Hbody entry s Hs) as Hb.
    destruct (body entry s) as [[found|e|c] s1]; cbn in Hb; [|exact Hb|exact Hb].
    destruct Hb as [Hw1 Hf1]. rewrite bind_run.
    pose proof (IH s1 Hw1) as Hr.
    destruct (Install.gather rest body s1) as [[more|e|c] s2]; cbn in Hr; [|exact Hr|exact Hr].
    destruct Hr as [Hw2 Hf2]. cbn. split; [exact Hw2 | apply Forall_app; auto].
Qed.

(** X27: The search for skills (install.ts, 266-281) only reads: it never ends
    the process and leaves the world as it was, also where it raises; and
    every directory it answers holds a [SKILL.md]. *)
Theorem findSkills_sound (stack : nat) (dir : string) (s : state W) :
  search_result sys (world s) (Install.findSkills sys stack dir s).
Proof.
  revert dir s. induction stack as [|stack IH]; intros dir s; cbn [Install.findSkills].
  - reflexivity.
  - rewrite bind_run. unfold readdirSync, query.
    destruct (sys_readdir W sys dir (world s)) as [entries|e]; cbn [of_reply];
      [|reflexivity].
    apply gather_found; [|reflexivity].
    intros entry s1 Hs1. cbv zeta.
    destruct (d_kind entry); try solve [cbn; auto].
    rewrite bind_run. unfold existsSync. cbn [world].
    destruct (sys_exists W sys _ (world s1)) eqn:Hex.
    + cbn. split; [exact Hs1|]. constructor; [|constructor]. rewrite <- Hs1. exact Hex.
    + rewrite <- Hs1.
      match goal with |- search_result _ _ (Install.findSkills _ _ ?d ?st) =>
        exact (IH d st) end.
Qed.

End Install_properties.

(** ** The commands on the simulated world *)

Ltac no_null := vm_compute; intros [H | []]; discriminate H.

Lemma addRepository_rejects_witness :
  fst (Config.addRepository sys_with_config keep_order no_text fixed_clock
         "origin" example_url (Sim.start world_with_config))
  = Throw (Error "Repository 'origin' already exists").
Proof.
  destruct (addRepository_rejects sys_with_config keep_order no_text fixed_clock
              "origin" example_url (Sim.start world_with_config))
    as [e [s' [Hrun [_ He]]]].
  - left. vm_compute. reflexivity.
  - rewrite Hrun. cbn [fst]. rewrite He; [vm_compute; reflexivity | no_null].
Defined.

Lemma addRepository_appends_witness :
  exists s1,
    world s1 = world_with_config /\
    Config.addRepository sys_with_config keep_order no_text fixed_clock
      "mirror" example_url (Sim.start world_with_config)
    = Config.saveRepositories sys_with_config keep_order no_text
        [stored_repository;
         new_entry "mirror" example_url "2025-06-01T00:00:00.000Z"] s1.
Proof.
  apply (addRepository_appends sys_with_config keep_order no_text fixed_clock
           "mirror" example_url (Sim.start world_with_config)).
  - no_null.
  - vm_compute. reflexivity.
  - vm_compute. reflexivity.
Defined.

Lemma removeRepository_run_witness :
  exists s1,
    world s1 = world_with_config /\
    Config.removeRepository sys_with_config keep_order no_text "origin"
      (Sim.start world_with_config)
    = bind (Config.saveRepositories sys_with_config keep_order no_text [])
           (fun _ => ret true) s1.
Proof.
  apply (removeRepository_run sys_with_config keep_order no_text "origin"
           (Sim.start world_with_config)).
  no_null.
Defined.

Lemma addRepo_reports_refusal_witness :
  exists s1,
    world s1 = world_with_config /\
    Repo.addRepo sys_with_config keep_order no_text fixed_clock
      "mirror" "team/skills" (Sim.start world_with_config)
    = (Exit 1,
       mkState world_with_config
         (trace s1 ++ [EvError "Error: Invalid Git URL: team/skills"])).
Proof.
  apply (addRepo_reports_refusal sys_with_config keep_order no_text fixed_clock
           "mirror" "team/skills" (Sim.start world_with_config)).
  - no_null.
  - right. vm_compute. reflexivity.
Defined.

Lemma removeRepo_unknown_witness :
  exists s1,
    world s1 = world_with_config /\
    Repo.removeRepo sys_with_config keep_order no_text "mirror" true
      (Sim.start world_with_config)
    = (Exit 1,
       mkState world_with_config
         (trace s1 ++ [EvError "Error: Repository 'mirror' not found"])).
Proof.
  apply (removeRepo_unknown sys_with_config keep_order no_text "mirror" true
           (Sim.start world_with_config)).
  - no_null.
  - vm_compute. reflexivity.
Defined.

Lemma removeRepo_unconfirmed_witness :
  exists s',
    world s' = world_with_config /\
    Repo.removeRepo sys_with_config keep_order no_text "origin" false
      (Sim.start world_with_config)
    = (Ret tt, s').
Proof.
  apply (removeRepo_unconfirmed sys_with_config keep_order no_text "origin"
           (Sim.start world_with_config) (Done false) world_with_config).
  - no_null.
  - vm_compute. reflexivity.
  - vm_compute. reflexivity.
  - discriminate.
Defined.

(** A shorthand with a subpath is cloned from GitHub; a path that starts
    with [../] is handed to the local installer and nothing is cloned. *)
Lemma installSkill_sources_witness :
  trace (snd (install_example "anthropics/skills/document-skills/pdf"
                (Install.mkInstallOptions false false false) (Sim.start world_fresh)))
  = [EvLog "Installing from: anthropics/skills/document-skills/pdf";
     EvLog ("Location: project (.claude/skills)" ++ nl);
     EvMkdir "/home/u/.openskills-temp-0";
     EvSpinner SpinStart "Cloning repository...";
     EvExec ("git clone --depth 1 --quiet " ++ dq "https://github.com/anthropics/skills"
             ++ " " ++ dq "/home/u/.openskills-temp-0/repo")
       (mkExecOptions None false None);
     EvSpinner SpinSucceed "Repository cloned";
     EvLog "installSpecificSkill document-skills/pdf";
     EvRm "/home/u/.openskills-temp-0" true;
     EvLog (nl ++ "Read skill: openskills read <skill-name>");
     EvLog "Sync to AGENTS.md: openskills sync"] /\
  trace (snd (install_example "../x/y" (Install.mkInstallOptions false false false)
                (Sim.start world_fresh)))
  = [EvLog "Installing from: ../x/y";
     EvLog ("Location: project (.claude/skills)" ++ nl);
     EvLog "installFromLocal /work/../x/y";
     EvLog (nl ++ "Read skill: openskills read <skill-name>");
     EvLog "Sync to AGENTS.md: openskills sync"].
Proof.
  unfold install_example. split.
  - destruct (installSkill_sources (Sim.sys Posix) "/work" (fun p => "/work/" ++ p) "0"
                (fun localPath _ _ => emit (EvLog ("installFromLocal " ++ localPath)))
                (fun _ skillSubpath _ _ _ =>
                   emit (EvLog ("installSpecificSkill " ++ skillSubpath)))
                (fun _ _ _ => ret tt)
                "anthropics/skills/document-skills/pdf"
                (Install.mkInstallOptions false false false) (Sim.start world_fresh))
      as [_ [_ Hshort]].
    destruct (Hshort eq_refl eq_refl)
      as [[Hno _] | [owner [repo [sub [Hown [Hrep [Hsrc Hrun]]]]]]].
    + discriminate Hno.
    + rewrite Hrun. destruct Hsrc as [[Hsrc _] | Hsrc].
      * destruct (first_separator_unique "/" "anthropics" owner
                    "skills/document-skills/pdf" repo eq_refl Hown Hsrc) as [_ <-].
        discriminate Hrep.
      * destruct (first_separator_unique "/" "anthropics" owner
                    "skills/document-skills/pdf" (repo ++ "/" ++ sub) eq_refl Hown Hsrc)
          as [<- Hrest].
        destruct (first_separator_unique "/" "skills" repo "document-skills/pdf" sub
                    eq_refl Hrep Hrest) as [<- <-].
        vm_compute. reflexivity.
  - destruct (installSkill_sources (Sim.sys Posix) "/work" (fun p => "/work/" ++ p) "0"
                (fun localPath _ _ => emit (EvLog ("installFromLocal " ++ localPath)))
                (fun _ skillSubpath _ _ _ =>
                   emit (EvLog ("installSpecificSkill " ++ skillSubpath)))
                (fun _ _ _ => ret tt)
                "../x/y" (Install.mkInstallOptions false false false) (Sim.start world_fresh))
      as [Hlocal _].
    rewrite (Hlocal eq_refl). vm_compute. reflexivity.
Defined.

(** A directory of skills: one skill at the top, one further down, and a
    directory that holds none. *)
Lemma findSkills_sound_witness :
  fst (Install.findSkills (Sim.sys Posix) 8 "/repo" (Sim.start world_skills))
  = Ret ["/repo/pdf"; "/repo/office/docx"]
  /\ search_result (Sim.sys Posix) world_skills
       (Install.findSkills (Sim.sys Posix) 8 "/repo" (Sim.start world_skills)).
Proof.
  split; [vm_compute; reflexivity|].
  apply (findSkills_sound (Sim.sys Posix) 8 "/repo" (Sim.start world_skills)).
Defined.

Lemma upload_exit_status_witness :
  fst (uploadToRepository (Sim.sys Posix) [demo] example_url "origin" no_options
         (Sim.start world_interrupts)) = Exit 0%Z
  /\ yes no_options = false.
Proof.
  split; [vm_compute; reflexivity|].
  destruct (upload_exit_status (Sim.sys Posix) [demo] example_url "origin" no_options
              (Sim.start world_interrupts)
              (snd (uploadToRepository (Sim.sys Posix) [demo] example_url "origin"
                      no_options (Sim.start world_interrupts)))
              0%Z) as [H | [_ H]].
  - vm_compute. reflexivity.
  - discriminate H.
  - exact H.
Defined.
